(** * The ogemle signaling server (server/src/index.ts)

    A shallow embedding of the matchmaking core: the client registry, the
    waiting queue, pairing, relay, teardown and the heartbeat.  Every handler
    of the source is a function on an explicit [State]; what the handlers
    write to the sockets is appended to a log. *)

From Stdlib Require Import ZArith Ascii String List Lia DecimalString.
From stdpp Require Import gmap strings list fin_maps.

Set Warnings "-clear-no-such-hyp,-register-all".

(** ** Data model *)

(** [socket.readyState] of the ws library. *)
Inductive ReadyState := CONNECTING | OPEN | CLOSING | CLOSED.

#[global] Instance ReadyState_eq_dec : EqDecision ReadyState.
Proof. solve_decision. Defined.

(** [interface Client].  The [id] field is written once, at creation, and
    is the key under which the object is stored in [heap] below, so it is
    not repeated in the record.  [socket] is represented by its
    [readyState]; what is written to it goes to the log. *)
Record Client := mkClient {
  readyState : ReadyState;
  partnerId : option string;
  wantsChat : bool;
  isAlive : bool;
  connectedAt : Z;
  pairedAt : option Z
}.

Definition setReadyState (v : ReadyState) (c : Client) : Client :=
  mkClient v (partnerId c) (wantsChat c) (isAlive c) (connectedAt c) (pairedAt c).
Definition setPartnerId (v : option string) (c : Client) : Client :=
  mkClient (readyState c) v (wantsChat c) (isAlive c) (connectedAt c) (pairedAt c).
Definition setWantsChat (v : bool) (c : Client) : Client :=
  mkClient (readyState c) (partnerId c) v (isAlive c) (connectedAt c) (pairedAt c).
Definition setIsAlive (v : bool) (c : Client) : Client :=
  mkClient (readyState c) (partnerId c) (wantsChat c) v (connectedAt c) (pairedAt c).
Definition setPairedAt (v : option Z) (c : Client) : Client :=
  mkClient (readyState c) (partnerId c) (wantsChat c) (isAlive c) (connectedAt c) v.

(** [interface ConversationRecord]. *)
Record ConversationRecord := mkRecord { duration : Z; endedAt : Z }.

(** The [stats] object. *)
Record Stats := mkStats {
  totalVisitors : Z;
  activeConversations : Z;
  conversationHistory : list ConversationRecord
}.

Inductive Role := Offerer | Answerer.

(** JavaScript truthiness of [client.partnerId] (a string or undefined):
    the empty string is falsy.  [partnerOf] is the partner id when the
    field is truthy. *)
Definition partnerOf (c : Client) : option string :=
  match partnerId c with
  | Some s => if decide (s = EmptyString) then None else Some s
  | None => None
  end.

(** Truthiness of [client.pairedAt] (a number or undefined): 0 is falsy. *)
Definition truthyNum (o : option Z) : bool :=
  match o with
  | Some t => negb (t =? 0)%Z
  | None => false
  end.

(** [indexOf] followed by [splice(index, 1)]: the first occurrence goes. *)
Fixpoint removeFirst (x : string) (l : list string) : list string :=
  match l with
  | [] => []
  | y :: l' => if decide (y = x) then l' else y :: removeFirst x l'
  end.

Definition dquote : string := String "034"%char EmptyString.

Definition msgConnected : string :=
  "Connected to signaling server. Click " +:+ dquote +:+ "Start" +:+ dquote
    +:+ " to find someone.".
Definition msgAlreadyChatting : string := "Already chatting. Leave to find someone new.".
Definition msgStillWaiting : string := "Waiting for the next available partner...".
Definition msgWaiting : string := "Waiting for someone to join...".
Definition msgNoPartner : string := "Waiting for a partner before sending media.".
Definition msgPartnerGone : string := "Partner disconnected.".
Definition msgConnectedPair : string := "Connected! Start your video.".
Definition msgInvalidJson : string := "Invalid JSON payload".
Definition msgUnknownType : string := "Unknown message type".

Section Server.

(** The relayed [payload]: whatever value [JSON.parse] produced.  The
    handlers are parametric in it. *)
Context {Payload : Type}.

(** [type OutgoingMessage]. *)
Inductive OutgoingMessage :=
  | MsgStatus (message : string)
  | MsgMatch (partner : string) (role : Role)
  | MsgSignal (payload : Payload)
  | MsgPartnerLeft
  | MsgError (message : string).

(** What a handler does to a socket. *)
Inductive Effect :=
  | ESend (to : string) (m : OutgoingMessage)
  | EPing (to : string)
  | ETerminate (to : string).

(** The module-level state.  The [clients] Map is its keys in insertion
    order ([clients]) together with the store of Client objects ([heap]):
    an object outlives its Map entry, because the socket callbacks close
    over it.  A function that takes a [Client] in the source takes its id
    here and reads or writes the object in the store, so that an update
    made through one reference is seen through every other.  The counters
    are integers; [log] records what is done to the sockets, oldest
    first. *)
Record State := mkState {
  clients : list string;
  heap : gmap string Client;
  waitingQueue : list string;
  stats : Stats;
  log : list Effect
}.

Definition setClients (v : list string) (st : State) : State :=
  mkState v (heap st) (waitingQueue st) (stats st) (log st).
Definition setHeap (v : gmap string Client) (st : State) : State :=
  mkState (clients st) v (waitingQueue st) (stats st) (log st).
Definition setQueue (v : list string) (st : State) : State :=
  mkState (clients st) (heap st) v (stats st) (log st).
Definition setStats (v : Stats) (st : State) : State :=
  mkState (clients st) (heap st) (waitingQueue st) v (log st).
Definition emit (e : Effect) (st : State) : State :=
  mkState (clients st) (heap st) (waitingQueue st) (stats st) (log st ++ [e]).

Definition initial : State :=
  mkState [] ∅ [] (mkStats 0 0 []) [].

(** A field assignment [obj.f = v] on the object with id [k]. *)
Definition modify (k : string) (f : Client → Client) (st : State) : State :=
  setHeap (alter f k (heap st)) st.

(** [clients.get(id)]. *)
Definition clientsGet (k : string) (st : State) : option Client :=
  if decide (k ∈ clients st) then heap st !! k else None.

(** [clients.set(id, client)]. *)
Definition clientsSet (k : string) (c : Client) (st : State) : State :=
  setHeap (<[k := c]> (heap st))
    (if decide (k ∈ clients st) then st else setClients (clients st ++ [k]) st).

(** [clients.delete(id)]. *)
Definition clientsDelete (k : string) (st : State) : State :=
  setClients (filter (λ j, j ≠ k) (clients st)) st.

(** [function send]: nothing is written unless the socket is OPEN. *)
Definition send (to : string) (m : OutgoingMessage) (st : State) : State :=
  match heap st !! to with
  | Some c => if decide (readyState c = OPEN) then emit (ESend to m) st else st
  | None => st
  end.

(** [function removeFromQueue]. *)
Definition removeFromQueue (k : string) (st : State) : State :=
  setQueue (removeFirst k (waitingQueue st)) st.

(** [function connectPair]. *)
Definition connectPair (now : Z) (offerer answerer : string) (st : State) : State :=
  let st := modify offerer (setPartnerId (Some answerer)) st in
  let st := modify answerer (setPartnerId (Some offerer)) st in
  let st := modify offerer (setWantsChat false) st in
  let st := modify answerer (setWantsChat false) st in
  let st := modify offerer (setPairedAt (Some now)) st in
  let st := modify answerer (setPairedAt (Some now)) st in
  let st := setStats (mkStats (totalVisitors (stats st))
                              (activeConversations (stats st) + 1)
                              (conversationHistory (stats st))) st in
  let st := send offerer (MsgMatch answerer Offerer) st in
  let st := send answerer (MsgMatch offerer Answerer) st in
  let st := send offerer (MsgStatus msgConnectedPair) st in
  send answerer (MsgStatus msgConnectedPair) st.

(** The tail of [handleReady] after the loop. *)
Definition pushWaiting (c : string) (st : State) : State :=
  send c (MsgStatus msgWaiting) (setQueue (waitingQueue st ++ [c]) st).

(** The [while] loop of [handleReady]; [q] is the queue at loop entry.
    [shift] pops the head; a falsy (empty) id breaks out of the loop. *)
Fixpoint matchLoop (now : Z) (c : string) (q : list string) (st : State) : State :=
  match q with
  | [] => pushWaiting c st
  | p :: q' =>
      let st1 := setQueue q' st in
      if decide (p = EmptyString) then pushWaiting c st1
      else match clientsGet p st1 with
           | Some partner =>
               if decide (readyState partner = OPEN)
               then connectPair now c p st1
               else matchLoop now c q' st1
           | None => matchLoop now c q' st1
           end
  end.

(** [function handleReady]. *)
Definition handleReady (now : Z) (c : string) (st : State) : State :=
  match heap st !! c with
  | None => st
  | Some client =>
      match partnerOf client with
      | Some _ => send c (MsgStatus msgAlreadyChatting) st
      | None =>
          if decide (c ∈ waitingQueue st)
          then send c (MsgStatus msgStillWaiting) st
          else let st := modify c (setWantsChat true) st in
               matchLoop now c (waitingQueue st) st
      end
  end.

(** The statistics update inside [handleLeave]; [now] is [Date.now()],
    taken to be the same for the two reads in one call, and [/] rounds
    down as [Math.floor] does. *)
Definition recordConversation (now t1 t2 : Z) (s : Stats) : Stats :=
  mkStats (totalVisitors s)
          (Z.max 0 (activeConversations s - 1))
          (conversationHistory s ++ [mkRecord ((now - Z.max t1 t2) / 1000) now]).

(** [function handleLeave]. *)
Definition handleLeave (now : Z) (c : string) (st : State) : State :=
  let st := removeFromQueue c st in
  let st :=
    match heap st !! c with
    | None => st
    | Some client =>
        match partnerOf client with
        | None => st
        | Some pid =>
            match clientsGet pid st with
            | None => st
            | Some partner =>
                let st :=
                  match pairedAt client, pairedAt partner with
                  | Some t1, Some t2 =>
                      if truthyNum (Some t1) && truthyNum (Some t2)
                      then setStats (recordConversation now t1 t2 (stats st)) st
                      else st
                  | _, _ => st
                  end in
                let st := modify pid (setPartnerId None) st in
                let st := modify pid (setPairedAt None) st in
                let st := send pid MsgPartnerLeft st in
                send pid (MsgStatus msgPartnerGone) st
            end
        end
    end in
  let st := modify c (setPartnerId None) st in
  let st := modify c (setPairedAt None) st in
  modify c (setWantsChat false) st.

(** [function handleSignal]. *)
Definition handleSignal (now : Z) (c : string) (payload : Payload) (st : State) : State :=
  match heap st !! c with
  | None => st
  | Some client =>
      match partnerOf client with
      | None => send c (MsgStatus msgNoPartner) st
      | Some pid =>
          match clientsGet pid st with
          | None => handleLeave now c st
          | Some _ => send pid (MsgSignal payload) st
          end
      end
  end.

(** [function cleanupClient]. *)
Definition cleanupClient (now : Z) (k : string) (st : State) : State :=
  match clientsGet k st with
  | None => st
  | Some _ => clientsDelete k (handleLeave now k st)
  end.

(** The result of [JSON.parse(raw)] followed by the [switch] on
    [message.type]. *)
Inductive Incoming :=
  | InReady
  | InSignal (payload : Payload)
  | InLeave
  | InOther.

Inductive Parsed :=
  | ParseThrows
  | ParseFalsy
  | ParseValue (m : Incoming).

(** [function handleMessage]. *)
Definition handleMessage (now : Z) (c : string) (raw : Parsed) (st : State) : State :=
  match raw with
  | ParseThrows => send c (MsgError msgInvalidJson) st
  | ParseFalsy => st
  | ParseValue InReady => handleReady now c st
  | ParseValue (InSignal payload) => handleSignal now c payload st
  | ParseValue InLeave => handleLeave now c st
  | ParseValue InOther => send c (MsgError msgUnknownType) st
  end.

(** The [wss.on('connection')] callback; [k] is the [nanoid()]. *)
Definition onConnection (now : Z) (k : string) (st : State) : State :=
  let st := clientsSet k (mkClient OPEN None false true now None) st in
  let st := setStats (mkStats (totalVisitors (stats st) + 1)
                              (activeConversations (stats st))
                              (conversationHistory (stats st))) st in
  send k (MsgStatus msgConnected) st.

(** [socket.on('pong')]. *)
Definition onPong (k : string) (st : State) : State :=
  modify k (setIsAlive true) st.

(** [socket.terminate()] of ws: a socket that is not CLOSED is destroyed
    and becomes CLOSING. *)
Definition terminate (k : string) (st : State) : State :=
  emit (ETerminate k)
    (modify k (λ c, if decide (readyState c = CLOSED) then c else setReadyState CLOSING c) st).

(** The body of the [for...of] loop of the heartbeat.  A Map iterator is
    live: an entry deleted before it is reached is not visited.
    [pingThrows] says whether [socket.ping()] throws. *)
Definition heartbeatStep (now : Z) (pingThrows : string → bool) (k : string) (st : State) : State :=
  match clientsGet k st with
  | None => st
  | Some client =>
      if negb (isAlive client)
      then cleanupClient now k (terminate k st)
      else let st := modify k (setIsAlive false) st in
           let st := emit (EPing k) st in
           if pingThrows k then cleanupClient now k st else st
  end.

(** The [setInterval] callback. *)
Definition heartbeat (now : Z) (pingThrows : string → bool) (st : State) : State :=
  foldl (λ s k, heartbeatStep now pingThrows k s) st (clients st).

(** ** Events *)

(** What the runtime delivers to the server: a new connection together
    with its fresh id, a pong, a message, the close and error callbacks of
    a socket, a socket leaving the OPEN state on the transport's side, and
    the heartbeat timer.  [now] is the value of [Date.now()] while the
    event is handled. *)
Inductive Event :=
  | EvConnection (now : Z) (k : string)
  | EvPong (k : string)
  | EvMessage (now : Z) (k : string) (raw : Parsed)
  | EvClose (now : Z) (k : string)
  | EvError (now : Z) (k : string)
  | EvSocket (k : string) (rs : ReadyState)
  | EvHeartbeat (now : Z) (pingThrows : string → bool).

Definition handle (ev : Event) (st : State) : State :=
  match ev with
  | EvConnection now k => onConnection now k st
  | EvPong k => onPong k st
  | EvMessage now k raw => handleMessage now k raw st
  | EvClose now k => cleanupClient now k st
  | EvError now k => cleanupClient now k st
  | EvSocket k rs => modify k (setReadyState rs) st
  | EvHeartbeat now pingThrows => heartbeat now pingThrows st
  end.

(** When the runtime can deliver an event.  [nanoid()] returns a new,
    non-empty id; [Date.now()] is positive; pongs and messages are
    delivered for registered clients only (a client leaves the registry
    when its socket closes, fails, is terminated or cannot be pinged, and
    nothing more is delivered for it, whatever [readyState] says in the
    meantime); the close and error callbacks may come at any time, also
    for a client already cleaned up; a socket never returns to OPEN. *)
Definition enabled (st : State) (ev : Event) : Prop :=
  match ev with
  | EvConnection now k => (0 < now)%Z ∧ k ≠ EmptyString ∧ heap st !! k = None
  | EvPong k => k ∈ clients st
  | EvMessage now k _ => (0 < now)%Z ∧ k ∈ clients st
  | EvClose now k => (0 < now)%Z
  | EvError now k => (0 < now)%Z
  | EvSocket k rs => rs ≠ OPEN
  | EvHeartbeat now _ => (0 < now)%Z
  end.

Inductive reachable : State → Prop :=
  | reachable_initial : reachable initial
  | reachable_step st ev :
      reachable st → enabled st ev → reachable (handle ev st).

Fixpoint run (evs : list Event) (st : State) : State :=
  match evs with
  | [] => st
  | ev :: evs' => run evs' (handle ev st)
  end.

(** ** Observations on a state *)

(** The socket of [k] is OPEN. *)
Definition isOpen (k : string) (st : State) : bool :=
  match heap st !! k with
  | Some c => bool_decide (readyState c = OPEN)
  | None => false
  end.

(** The object [k] has a truthy [partnerId]. *)
Definition paired (h : gmap string Client) (k : string) : bool :=
  match h !! k with
  | Some c => match partnerOf c with Some _ => true | None => false end
  | None => false
  end.

Fixpoint count (f : string → bool) (l : list string) : nat :=
  match l with
  | [] => 0
  | k :: l' => (if f k then 1 else 0) + count f l'
  end.

(** The number of pairings formed so far, read off the log: [connectPair]
    is the only sender of a match with the answerer role, and it runs only
    for an answerer whose socket is OPEN. *)
Fixpoint formed (l : list Effect) : nat :=
  match l with
  | [] => 0
  | ESend _ (MsgMatch _ Answerer) :: l' => S (formed l')
  | _ :: l' => formed l'
  end.

(** The messages written to the socket of [k]. *)
Fixpoint received (k : string) (l : list Effect) : list OutgoingMessage :=
  match l with
  | [] => []
  | ESend to m :: l' => if decide (to = k) then m :: received k l' else received k l'
  | _ :: l' => received k l'
  end.

(** An error message sent to anybody. *)
Definition isError (e : Effect) : bool :=
  match e with
  | ESend _ (MsgError _) => true
  | _ => false
  end.

(** An entry the loop of [handleReady] accepts: registered, socket OPEN. *)
Definition validEntry (st : State) (k : string) : Prop :=
  k ∈ clients st ∧ isOpen k st = true.

(** ** The invariant of the reachable states *)

(** What holds of the object stored under [k], given the registry keys
    [cl] and the store [h]: its id is not empty; a partner link points to
    another, registered client whose link points back, and only registered
    clients have one; [pairedAt] is set to a non-zero time exactly when
    [partnerId] is; a paired client does not want a chat. *)
Definition objInv (cl : list string) (h : gmap string Client) (k : string) (c : Client) : Prop :=
  k ≠ EmptyString
  ∧ (∀ b, partnerId c = Some b →
       b ≠ k ∧ k ∈ cl ∧ b ∈ cl ∧ ∃ cb, h !! b = Some cb ∧ partnerId cb = Some k)
  ∧ match partnerId c with
    | Some _ => ∃ t, pairedAt c = Some t ∧ t ≠ 0%Z
    | None => pairedAt c = None
    end
  ∧ (is_Some (partnerId c) → wantsChat c = false).

(** A queued id is registered, unpaired and wants a chat. *)
Definition queueInv (cl : list string) (h : gmap string Client) (k : string) : Prop :=
  k ∈ cl ∧ ∃ c, h !! k = Some c ∧ partnerId c = None ∧ wantsChat c = true.

Definition Inv (st : State) : Prop :=
  NoDup (clients st)
  ∧ (∀ k, k ∈ clients st → is_Some (heap st !! k))
  ∧ (∀ k c, heap st !! k = Some c → objInv (clients st) (heap st) k c)
  ∧ NoDup (waitingQueue st)
  ∧ (∀ k, k ∈ waitingQueue st → queueInv (clients st) (heap st) k)
  ∧ Z.of_nat (count (paired (heap st)) (clients st))
      = (2 * activeConversations (stats st))%Z
  ∧ (activeConversations (stats st)
       + Z.of_nat (length (conversationHistory (stats st))))%Z
      = Z.of_nat (formed (log st)).

(** The three assignments that end [handleLeave], as one update. *)
Definition resetClient (o : Client) : Client :=
  setWantsChat false (setPairedAt None (setPartnerId None o)).

(** The two assignments to the partner in [handleLeave], as one update. *)
Definition resetPartner (o : Client) : Client :=
  setPairedAt None (setPartnerId None o).

(** The three assignments [connectPair] makes to one side, as one update. *)
Definition linkTo (now : Z) (p : string) (o : Client) : Client :=
  setPairedAt (Some now) (setWantsChat false (setPartnerId (Some p) o)).

(** What [send] appends to the log. *)
Definition sent (k : string) (m : OutgoingMessage) (st : State) : list Effect :=
  if isOpen k st then [ESend k m] else [].

(** The four sends of [connectPair]. *)
Definition pairLog (offerer answerer : string) (st : State) : list Effect :=
  sent offerer (MsgMatch answerer Offerer) st
  ++ sent answerer (MsgMatch offerer Answerer) st
  ++ sent offerer (MsgStatus msgConnectedPair) st
  ++ sent answerer (MsgStatus msgConnectedPair) st.

(** Every event of a run is enabled when it is delivered. *)
Fixpoint enabledRun (st : State) (evs : list Event) : Prop :=
  match evs with
  | [] => True
  | ev :: evs' => enabled st ev ∧ enabledRun (handle ev st) evs'
  end.

(** A step from [s] to [s'] that registers nobody, leaves every [isAlive]
    flag as it is and only appends to the log. *)
Definition keeps (s s' : State) : Prop :=
  (∀ i, i ∈ clients s' → i ∈ clients s)
  ∧ (∀ i, isAlive <$> heap s' !! i = isAlive <$> heap s !! i)
  ∧ (∃ l, log s' = log s ++ l).

(** The client [k] has an object and, if still registered, has not
    acknowledged the last probe. *)
Definition unacknowledged (k : string) (s : State) : Prop :=
  is_Some (heap s !! k)
  ∧ (k ∈ clients s → ∃ o, heap s !! k = Some o ∧ isAlive o = false).

(** A step from [s] to [s'] that creates no client object, counts no
    visitor and only appends to the history of conversations. *)
Definition steady (s s' : State) : Prop :=
  dom (heap s') =@{gset string} dom (heap s)
  ∧ totalVisitors (stats s') = totalVisitors (stats s)
  ∧ conversationHistory (stats s) `prefix_of` conversationHistory (stats s').

(** ** The HTTP side: [/admin] and [/stats] *)

(** The [buckets] object of the [/stats] handler: the counts for
    '0-30s', '30s-1m', '1-5m', '5-15m' and '15m+'. *)
Record Buckets := mkBuckets {
  b0_30s : Z;
  b30s_1m : Z;
  b1_5m : Z;
  b5_15m : Z;
  b15m_up : Z
}.

(** The body of the [forEach] over the history. *)
Definition countRecord (b : Buckets) (record : ConversationRecord) : Buckets :=
  let d := duration record in
  if (d <? 30)%Z then mkBuckets (b0_30s b + 1) (b30s_1m b) (b1_5m b) (b5_15m b) (b15m_up b)
  else if (d <? 60)%Z then mkBuckets (b0_30s b) (b30s_1m b + 1) (b1_5m b) (b5_15m b) (b15m_up b)
  else if (d <? 300)%Z then mkBuckets (b0_30s b) (b30s_1m b) (b1_5m b + 1) (b5_15m b) (b15m_up b)
  else if (d <? 900)%Z then mkBuckets (b0_30s b) (b30s_1m b) (b1_5m b) (b5_15m b + 1) (b15m_up b)
  else mkBuckets (b0_30s b) (b30s_1m b) (b1_5m b) (b5_15m b) (b15m_up b + 1).

Definition distribution (history : list ConversationRecord) : Buckets :=
  foldl countRecord (mkBuckets 0 0 0 0 0) history.

(** [s.split(sep)] of JavaScript for a separator of one character: the
    pieces between the occurrences of [sep], empty pieces included. *)
Fixpoint jsSplit (sep : ascii) (s : string) : list string :=
  match s with
  | EmptyString => [EmptyString]
  | String c s' =>
      if decide (c = sep) then EmptyString :: jsSplit sep s'
      else match jsSplit sep s' with
           | w :: ws => String c w :: ws
           | [] => [String c EmptyString]
           end
  end.

(** [authHeader?.split(' ')[1]]: undefined without a header or without
    a second piece. *)
Definition bearerToken (authorization : option string) : option string :=
  match authorization with
  | None => None
  | Some h => jsSplit " "%char h !! 1
  end.

(** The character [c] occurs in [s]. *)
Fixpoint hasChar (c : ascii) (s : string) : bool :=
  match s with
  | EmptyString => false
  | String d s' => if decide (d = c) then true else hasChar c s'
  end.

(** What the handler reads of a request. *)
Record Request := mkRequest {
  url : string;
  method : string;
  authorization : option string
}.

(** The object the [/stats] handler serialises. *)
Record Report := mkReport {
  repTotalVisitors : Z;
  repActiveConversations : Z;
  repHistoryTotal : Z;
  repDistribution : Buckets;
  repCurrentlyConnected : Z;
  repQueueLength : Z
}.

Inductive Body :=
  | BodyEmpty
  | BodyText (text : string)
  | BodyUnauthorized
  | BodyStats (r : Report).

Record Response := mkResponse {
  status : Z;
  headers : list (string * string);
  body : Body
}.

(** The request listener of [http.createServer].  [password] is
    [ADMIN_PASSWORD]; [adminFile] is what [fs.readFile] hands to its
    callback for admin.html, [None] for an error. *)
Definition httpHandler (password : string) (adminFile : option string)
    (req : Request) (st : State) : Response :=
  if decide (url req = "/admin" ∧ method req = "GET") then
    match adminFile with
    | None => mkResponse 500 [] (BodyText "Admin page not found")
    | Some data => mkResponse 200 [("Content-Type", "text/html")] (BodyText data)
    end
  else if decide (url req = "/stats" ∧ method req = "GET") then
    if decide (bearerToken (authorization req) = Some password) then
      mkResponse 200
        [("Content-Type", "application/json");
         ("Access-Control-Allow-Origin", "*");
         ("Access-Control-Allow-Headers", "Authorization, Content-Type")]
        (BodyStats
           (mkReport (totalVisitors (stats st))
                     (activeConversations (stats st))
                     (Z.of_nat (length (conversationHistory (stats st))))
                     (distribution (conversationHistory (stats st)))
                     (Z.of_nat (length (clients st)))
                     (Z.of_nat (length (waitingQueue st)))))
    else mkResponse 401 [("Content-Type", "application/json")] BodyUnauthorized
  else if decide (url req = "/stats" ∧ method req = "OPTIONS") then
    mkResponse 204
      [("Access-Control-Allow-Origin", "*");
       ("Access-Control-Allow-Methods", "GET, OPTIONS");
       ("Access-Control-Allow-Headers", "Authorization, Content-Type")]
      BodyEmpty
  else mkResponse 404 [] (BodyText "Not Found").

(** Every socket the log says was terminated is not OPEN, and the log
    has no send to a socket behind the entry of its termination. *)
Definition terminatedQuiet (s : State) : Prop :=
  (∀ k, ETerminate k ∈ log s → ∃ o, heap s !! k = Some o ∧ readyState o ≠ OPEN)
  ∧ (∀ l1 l2 k m, log s = l1 ++ ETerminate k :: l2 → ESend k m ∉ l2).

(** The reading of [Date.now()] an event is handled at; pongs and
    socket state changes read no clock. *)
Definition clockOf (ev : Event) : option Z :=
  match ev with
  | EvConnection now _ => Some now
  | EvMessage now _ _ => Some now
  | EvClose now _ => Some now
  | EvError now _ => Some now
  | EvHeartbeat now _ => Some now
  | EvPong _ => None
  | EvSocket _ _ => None
  end.

(** Along the run the clock never goes back, starting at [t]. *)
Fixpoint monotoneFrom (t : Z) (evs : list Event) : Prop :=
  match evs with
  | [] => True
  | ev :: evs' =>
      match clockOf ev with
      | Some now => (t ≤ now)%Z ∧ monotoneFrom now evs'
      | None => monotoneFrom t evs'
      end
  end.

(** No [pairedAt] lies after [t] and no recorded duration is negative. *)
Definition timely (t : Z) (s : State) : Prop :=
  (∀ k o u, heap s !! k = Some o → pairedAt o = Some u → (u ≤ t)%Z)
  ∧ Forall (λ r, (0 ≤ duration r)%Z) (conversationHistory (stats s)).

End Server.

(** ** Frames as text

    The server reads a frame with [JSON.parse] and writes one with
    [JSON.stringify], both of the JavaScript runtime.  They are modelled
    on a fragment of JSON: whitespace, objects, arrays, strings of
    printable ASCII characters without escape sequences, integers of
    magnitude at most 2^53 - 1 written without fraction or exponent, and
    the literals true, false and null.  The parser answers [None] for any
    other text, whether the runtime would reject it or not. *)

(** The values [JSON.parse] yields.  [JNum n] is the number n; [JObj]
    lists the own properties of the object in property order. *)
Inductive Json :=
  | JNull
  | JBool (b : bool)
  | JNum (n : Z)
  | JStr (s : string)
  | JArr (items : list Json)
  | JObj (fields : list (string * Json)).

Inductive Token :=
  | TLBrace | TRBrace | TLBracket | TRBracket | TColon | TComma
  | TString (s : string)
  | TNumber (n : Z)
  | TTrue | TFalse | TNull.

Definition backslash : string := String "092"%char EmptyString.

Definition isDigit (c : ascii) : bool :=
  (48 <=? nat_of_ascii c)%nat && (nat_of_ascii c <=? 57)%nat.

Definition digitValue (c : ascii) : Z := Z.of_nat (nat_of_ascii c) - 48.

(** The four whitespace characters of JSON: space, tab, line feed and
    carriage return. *)
Definition isWhitespace (c : ascii) : bool :=
  bool_decide (c = " "%char ∨ c = "009"%char ∨ c = "010"%char ∨ c = "013"%char).

(** A character that stands for itself inside a string: printable ASCII
    other than the double quote and the backslash. *)
Definition isPlain (c : ascii) : bool :=
  (32 <=? nat_of_ascii c)%nat && (nat_of_ascii c <=? 126)%nat
  && negb (bool_decide (c = "034"%char)) && negb (bool_decide (c = "092"%char)).

(** The characters of a string up to its closing quote, and the text
    behind the quote. *)
Fixpoint lexString (s : string) : option (string * string) :=
  match s with
  | EmptyString => None
  | String c s' =>
      if decide (c = "034"%char) then Some (EmptyString, s')
      else if isPlain c then
        match lexString s' with
        | Some (w, rest) => Some (String c w, rest)
        | None => None
        end
      else None
  end.

Fixpoint lexDigits (acc : Z) (s : string) : Z * string :=
  match s with
  | EmptyString => (acc, s)
  | String c s' =>
      if isDigit c then lexDigits (10 * acc + digitValue c) s' else (acc, s)
  end.

(** The integer part of a number: a single 0, or digits that start with
    a digit other than 0. *)
Definition lexNatural (s : string) : option (Z * string) :=
  match s with
  | EmptyString => None
  | String c s' =>
      if decide (c = "0"%char) then Some (0%Z, s')
      else if isDigit c then Some (lexDigits (digitValue c) s')
      else None
  end.

(** Behind a modelled number comes no further digit, no fraction and no
    exponent. *)
Definition endsNumber (rest : string) : bool :=
  match rest with
  | EmptyString => true
  | String c _ =>
      negb (isDigit c
            || bool_decide (c = "."%char ∨ c = "e"%char ∨ c = "E"%char))
  end.

(** [Number.MAX_SAFE_INTEGER]. *)
Definition maxSafeInteger : Z := 9007199254740991.

Fixpoint stripPrefix (p s : string) : option string :=
  match p with
  | EmptyString => Some s
  | String c p' =>
      match s with
      | EmptyString => None
      | String d s' => if decide (c = d) then stripPrefix p' s' else None
      end
  end.

(** The tokens of a text; [fuel] bounds the number of steps, one
    character at least being consumed by each. *)
Fixpoint lex (fuel : nat) (s : string) : option (list Token) :=
  match fuel with
  | O => None
  | S fuel' =>
      match s with
      | EmptyString => Some []
      | String c s' =>
          if isWhitespace c then lex fuel' s'
          else if decide (c = "{"%char) then cons TLBrace <$> lex fuel' s'
          else if decide (c = "}"%char) then cons TRBrace <$> lex fuel' s'
          else if decide (c = "["%char) then cons TLBracket <$> lex fuel' s'
          else if decide (c = "]"%char) then cons TRBracket <$> lex fuel' s'
          else if decide (c = ":"%char) then cons TColon <$> lex fuel' s'
          else if decide (c = ","%char) then cons TComma <$> lex fuel' s'
          else if decide (c = "034"%char) then
            match lexString s' with
            | Some (w, rest) => cons (TString w) <$> lex fuel' rest
            | None => None
            end
          else if decide (c = "-"%char) then
            match lexNatural s' with
            | Some (n, rest) =>
                if endsNumber rest && (0 <? n)%Z && (n <=? maxSafeInteger)%Z
                then cons (TNumber (- n)) <$> lex fuel' rest
                else None
            | None => None
            end
          else if isDigit c then
            match lexNatural s with
            | Some (n, rest) =>
                if endsNumber rest && (n <=? maxSafeInteger)%Z
                then cons (TNumber n) <$> lex fuel' rest
                else None
            | None => None
            end
          else
            match stripPrefix "true" s, stripPrefix "false" s, stripPrefix "null" s with
            | Some rest, _, _ => cons TTrue <$> lex fuel' rest
            | _, Some rest, _ => cons TFalse <$> lex fuel' rest
            | _, _, Some rest => cons TNull <$> lex fuel' rest
            | _, _, _ => None
            end
      end
  end.

(** Defining a property of an object: the value of a key that is
    already there is replaced in place, a new key goes to the end. *)
Fixpoint setField (k : string) (v : Json) (fs : list (string * Json)) : list (string * Json) :=
  match fs with
  | [] => [(k, v)]
  | (k', v') :: fs' =>
      if decide (k' = k) then (k, v) :: fs' else (k', v') :: setField k v fs'
  end.

(** A key that may be an array index; objects enumerate such keys before
    the others, and they are left out of the fragment. *)
Definition startsWithDigit (k : string) : bool :=
  match k with
  | EmptyString => false
  | String c _ => isDigit c
  end.

(** The grammar of JSON over the tokens.  Each function returns what it
    has read and the tokens behind it; [fuel] bounds the depth of the
    recursion. *)
Fixpoint parseValue (fuel : nat) (ts : list Token) : option (Json * list Token) :=
  match fuel with
  | O => None
  | S fuel' =>
      match ts with
      | TNull :: r => Some (JNull, r)
      | TTrue :: r => Some (JBool true, r)
      | TFalse :: r => Some (JBool false, r)
      | TNumber n :: r => Some (JNum n, r)
      | TString s :: r => Some (JStr s, r)
      | TLBracket :: TRBracket :: r => Some (JArr [], r)
      | TLBracket :: r =>
          match parseItems fuel' r with
          | Some (vs, r') => Some (JArr vs, r')
          | None => None
          end
      | TLBrace :: TRBrace :: r => Some (JObj [], r)
      | TLBrace :: r =>
          match parseFields fuel' r with
          | Some (fs, r') =>
              Some (JObj (foldl (λ acc f, setField (fst f) (snd f) acc) [] fs), r')
          | None => None
          end
      | _ => None
      end
  end
with parseItems (fuel : nat) (ts : list Token) : option (list Json * list Token) :=
  match fuel with
  | O => None
  | S fuel' =>
      match parseValue fuel' ts with
      | Some (v, TComma :: r) =>
          match parseItems fuel' r with
          | Some (vs, r') => Some (v :: vs, r')
          | None => None
          end
      | Some (v, TRBracket :: r) => Some ([v], r)
      | _ => None
      end
  end
with parseFields (fuel : nat) (ts : list Token) : option (list (string * Json) * list Token) :=
  match fuel with
  | O => None
  | S fuel' =>
      match ts with
      | TString k :: TColon :: r =>
          if startsWithDigit k then None
          else
            match parseValue fuel' r with
            | Some (v, TComma :: r') =>
                match parseFields fuel' r' with
                | Some (fs, r'') => Some ((k, v) :: fs, r'')
                | None => None
                end
            | Some (v, TRBrace :: r') => Some ([(k, v)], r')
            | _ => None
            end
      | _ => None
      end
  end.

(** [JSON.parse(text)] on the fragment. *)
Definition jsonParse (text : string) : option Json :=
  match lex (S (String.length text)) text with
  | Some ts =>
      match parseValue (2 * S (length ts)) ts with
      | Some (v, []) => Some v
      | _ => None
      end
  | None => None
  end.

Definition hexDigit (n : nat) : ascii :=
  nth n ["0"; "1"; "2"; "3"; "4"; "5"; "6"; "7"; "8"; "9";
         "a"; "b"; "c"; "d"; "e"; "f"]%char "0"%char.

(** How [JSON.stringify] writes one character of a string. *)
Definition escapeChar (c : ascii) : string :=
  if decide (c = "034"%char) then backslash +:+ String "034"%char EmptyString
  else if decide (c = "092"%char) then backslash +:+ backslash
  else if decide (c = "008"%char) then backslash +:+ "b"
  else if decide (c = "009"%char) then backslash +:+ "t"
  else if decide (c = "010"%char) then backslash +:+ "n"
  else if decide (c = "012"%char) then backslash +:+ "f"
  else if decide (c = "013"%char) then backslash +:+ "r"
  else if (nat_of_ascii c <? 32)%nat
       then backslash +:+ "u00"
              +:+ String (hexDigit (nat_of_ascii c / 16))
                    (String (hexDigit (nat_of_ascii c mod 16)) EmptyString)
  else String c EmptyString.

Fixpoint escapeString (s : string) : string :=
  match s with
  | EmptyString => EmptyString
  | String c s' => escapeChar c +:+ escapeString s'
  end.

Definition quoteJSON (s : string) : string :=
  String "034"%char (escapeString s +:+ String "034"%char EmptyString).

Fixpoint joinComma (l : list string) : string :=
  match l with
  | [] => EmptyString
  | [x] => x
  | x :: l' => x +:+ "," +:+ joinComma l'
  end.

(** How an integer is written: its decimal digits, behind a minus sign
    when it is negative. *)
Definition decimal (n : Z) : string := NilZero.string_of_int (Z.to_int n).

(** [JSON.stringify(value)] without indentation. *)
Fixpoint jsonStringify (v : Json) : string :=
  match v with
  | JNull => "null"
  | JBool true => "true"
  | JBool false => "false"
  | JNum n => decimal n
  | JStr s => quoteJSON s
  | JArr items => "[" +:+ joinComma (map jsonStringify items) +:+ "]"
  | JObj fields =>
      "{" +:+ joinComma (map (λ f, quoteJSON (fst f) +:+ ":" +:+ jsonStringify (snd f))
                             fields)
          +:+ "}"
  end.

(** JavaScript truthiness of a parsed value. *)
Definition truthy (v : Json) : bool :=
  match v with
  | JNull => false
  | JBool b => b
  | JNum n => negb (n =? 0)%Z
  | JStr s => negb (bool_decide (s = EmptyString))
  | JArr _ => true
  | JObj _ => true
  end.

Fixpoint lookupField (key : string) (fs : list (string * Json)) : option Json :=
  match fs with
  | [] => None
  | (k, v) :: fs' => if decide (k = key) then Some v else lookupField key fs'
  end.

(** [value.type] and [value.payload]: an own property of an object,
    undefined for every other value. *)
Definition getField (key : string) (v : Json) : option Json :=
  match v with
  | JObj fields => lookupField key fields
  | _ => None
  end.

(** What [handleMessage] makes of a parsed value: the falsy values are
    dropped, and the [switch] compares [message.type] with the three
    names.  The payload of a signal is [message.payload], which is
    undefined ([None]) when the property is absent. *)
Definition classify (v : Json) : @Parsed (option Json) :=
  if truthy v then
    match getField "type" v with
    | Some (JStr t) =>
        if decide (t = "ready") then ParseValue InReady
        else if decide (t = "signal") then ParseValue (InSignal (getField "payload" v))
        else if decide (t = "leave") then ParseValue InLeave
        else ParseValue InOther
    | _ => ParseValue InOther
    end
  else ParseFalsy.

(** A frame as [handleMessage] sees it, for a text of the fragment. *)
Definition receive (raw : string) : option (@Parsed (option Json)) :=
  classify <$> jsonParse raw.

Definition roleName (r : Role) : string :=
  match r with
  | Offerer => "offerer"
  | Answerer => "answerer"
  end.

(** The object literals passed to [send]; a property whose value is
    undefined is not written by [JSON.stringify]. *)
Definition messageJson (m : @OutgoingMessage (option Json)) : Json :=
  match m with
  | MsgStatus message =>
      JObj [("type", JStr "status"); ("payload", JObj [("message", JStr message)])]
  | MsgMatch partner role =>
      JObj [("type", JStr "match");
            ("payload", JObj [("partnerId", JStr partner); ("role", JStr (roleName role))])]
  | MsgSignal (Some payload) => JObj [("type", JStr "signal"); ("payload", payload)]
  | MsgSignal None => JObj [("type", JStr "signal")]
  | MsgPartnerLeft => JObj [("type", JStr "partner_left")]
  | MsgError message =>
      JObj [("type", JStr "error"); ("payload", JObj [("message", JStr message)])]
  end.

(** The text [send] writes to the socket: [JSON.stringify(message)]. *)
Definition wire (m : @OutgoingMessage (option Json)) : string :=
  jsonStringify (messageJson m).

(** The text of a signal frame around the text of its payload. *)
Definition quoted (s : string) : string := dquote +:+ s +:+ dquote.

Definition signalText (payloadText : string) : string :=
  "{" +:+ quoted "type" +:+ ":" +:+ quoted "signal" +:+ ","
      +:+ quoted "payload" +:+ ":" +:+ payloadText +:+ "}".

(** ** Concrete runs

    Two visitors A and B; payloads are strings. *)

Definition evReady (now : Z) (k : string) : @Event string :=
  EvMessage now k (ParseValue InReady).

(** A connected and asked for a partner; B connected. *)
Definition exWaiting : @State string :=
  run [EvConnection 1000 "A"; evReady 2000 "A"; EvConnection 3000 "B"] initial.

(** Then B asked for a partner. *)
Definition exPaired : @State string :=
  run [EvConnection 1000 "A"; evReady 2000 "A"; EvConnection 3000 "B";
       evReady 4000 "B"] initial.

(** Then a heartbeat tick probed both, and only B answered. *)
Definition exTicked : @State string :=
  run [EvConnection 1000 "A"; evReady 2000 "A"; EvConnection 3000 "B";
       evReady 4000 "B"; EvHeartbeat 5000 (λ _, false); EvPong "B"] initial.

(** A state in which the partner of A is not registered. *)
Definition exDangling : @State string :=
  mkState ["A"]
          {[ "A" := mkClient OPEN (Some "Z") false true 1000 (Some 2000%Z) ]}
          ["A"] (mkStats 1 1 []) [].

(** A queue of several entries: D, whose socket has closed; X, an id
    that is not registered; then A and C, both waiting with OPEN sockets.
    B is connected and has not asked for a partner. *)
Definition exQueue : @State string :=
  mkState ["D"; "A"; "C"; "B"]
          (<["D" := mkClient CLOSED None true true 1000 None]>
           (<["A" := mkClient OPEN None true true 2000 None]>
            (<["C" := mkClient OPEN None true true 3000 None]>
             {[ "B" := mkClient OPEN None false true 4000 None ]})))
          ["D"; "X"; "A"; "C"] (mkStats 4 0 []) [].

(** An offer written with spaces behind the colons and commas, the value
    it denotes, and the same value as [JSON.stringify] writes it. *)
Definition exOfferText : string :=
  "{" +:+ quoted "kind" +:+ ": " +:+ quoted "offer" +:+ ", "
      +:+ quoted "data" +:+ ": [1, 2]}".

Definition exOffer : Json :=
  JObj [("kind", JStr "offer"); ("data", JArr [JNum 1; JNum 2])].

Definition exOfferCompact : string :=
  "{" +:+ quoted "kind" +:+ ":" +:+ quoted "offer" +:+ ","
      +:+ quoted "data" +:+ ":[1,2]}".

(** The two visitors A and B, paired, with parsed JSON as payloads. *)
Definition exPairedJson : @State (option Json) :=
  run [EvConnection 1000 "A"; EvMessage 2000 "A" (ParseValue InReady);
       EvConnection 3000 "B"; EvMessage 4000 "B" (ParseValue InReady)] initial.


Section ServerProofs.

Context {Payload : Type}.
Implicit Types (st s : @State Payload) (k j p : string).

(** ** Lists: removal, counting, the log *)

Lemma removeFirst_notin k (l : list string) : k ∉ l → removeFirst k l = l.
Proof.
  induction l as [|y l IH]; simpl; [done|].
  intros Hn. apply not_elem_of_cons in Hn as [Hne Hn].
  destruct (decide (y = k)); [congruence|]. by rewrite IH.
Qed.

Lemma removeFirst_elem k j (l : list string) : j ∈ removeFirst k l → j ∈ l.
Proof.
  induction l as [|y l IH]; simpl; [done|].
  destruct (decide (y = k)); rewrite ?elem_of_cons; [by right|].
  intros [->|Hj]; [by left | right; by apply IH].
Qed.

Lemma removeFirst_NoDup k (l : list string) :
  NoDup l → NoDup (removeFirst k l) ∧ k ∉ removeFirst k l.
Proof.
  induction 1 as [|y l Hy Hl IH]; simpl.
  - split; [constructor | apply not_elem_of_nil].
  - destruct (decide (y = k)) as [->|Hne]; [done|].
    destruct IH as [IH1 IH2]. split.
    + constructor; [|done]. intros Hin. by apply Hy, removeFirst_elem with k.
    + rewrite not_elem_of_cons. split; [congruence | done].
Qed.

Lemma removeFirst_other k j (l : list string) : j ≠ k → j ∈ l → j ∈ removeFirst k l.
Proof.
  intros Hne. induction l as [|y l IH]; simpl; [done|].
  destruct (decide (y = k)) as [->|]; rewrite ?elem_of_cons.
  - by intros [->|Hj].
  - intros [->|Hj]; [by left | right; by apply IH].
Qed.

Lemma count_ext (f g : string → bool) (l : list string) :
  (∀ k, k ∈ l → f k = g k) → count f l = count g l.
Proof.
  induction l as [|y l IH]; simpl; [done|]. intros H.
  rewrite (H y) by apply list_elem_of_here.
  rewrite IH; [done|]. intros k Hk. apply H. by apply list_elem_of_further.
Qed.

Lemma count_app (f : string → bool) (l1 l2 : list string) :
  count f (l1 ++ l2) = count f l1 + count f l2.
Proof. induction l1 as [|y l IH]; simpl; [done|]. rewrite IH. lia. Qed.

Lemma count_flip_on (f g : string → bool) (a : string) (l : list string) :
  NoDup l → a ∈ l → f a = false → g a = true →
  (∀ k, k ∈ l → k ≠ a → g k = f k) →
  count g l = S (count f l).
Proof.
  induction 1 as [|y l Hy Hl IH]; simpl; [by intros ?%elem_of_nil|].
  intros Ha Hf Hg Hrest. apply elem_of_cons in Ha as [<-|Ha].
  - rewrite Hf, Hg. simpl. f_equal. apply count_ext.
    intros k Hk. apply Hrest; [by apply list_elem_of_further|].
    intros ->. done.
  - rewrite (Hrest y); [|apply list_elem_of_here|by intros ->].
    rewrite IH; [lia|done..|].
    intros k Hk. apply Hrest. by apply list_elem_of_further.
Qed.

Lemma count_flip_off (f g : string → bool) (a : string) (l : list string) :
  NoDup l → a ∈ l → f a = true → g a = false →
  (∀ k, k ∈ l → k ≠ a → g k = f k) →
  S (count g l) = count f l.
Proof.
  intros Hnd Ha Hf Hg Hrest. symmetry.
  apply (count_flip_on g f a l); [done..|].
  intros k Hk Hne. symmetry. by apply Hrest.
Qed.

Lemma count_filter_false (f : string → bool) (a : string) (l : list string) :
  f a = false → count f (filter (λ j, j ≠ a) l) = count f l.
Proof.
  intros Hf. induction l as [|y l IH]; simpl; [done|].
  rewrite filter_cons. destruct (decide (y = a)) as [->|Hne].
  - rewrite decide_False by (intros H; by apply H). by rewrite Hf.
  - rewrite decide_True by done. simpl. by rewrite IH.
Qed.

Lemma formed_app (l1 l2 : list (@Effect Payload)) :
  formed (l1 ++ l2) = formed l1 + formed l2.
Proof.
  induction l1 as [|e l IH]; simpl; [done|].
  destruct e as [to m| |]; [destruct m as [|? []| | |]|..]; simpl; rewrite IH; lia.
Qed.

Lemma received_app k (l1 l2 : list (@Effect Payload)) :
  received k (l1 ++ l2) = received k l1 ++ received k l2.
Proof.
  induction l1 as [|e l IH]; simpl; [done|].
  destruct e; [case_decide|..]; simpl; by rewrite IH.
Qed.

(** ** What [send] and the field updates leave alone *)

Lemma send_clients k m st : clients (send k m st) = clients st.
Proof. unfold send. destruct (heap st !! k); [case_decide|]; done. Qed.

Lemma send_heap k m st : heap (send k m st) = heap st.
Proof. unfold send. destruct (heap st !! k); [case_decide|]; done. Qed.

Lemma send_queue k m st : waitingQueue (send k m st) = waitingQueue st.
Proof. unfold send. destruct (heap st !! k); [case_decide|]; done. Qed.

Lemma send_stats k m st : stats (send k m st) = stats st.
Proof. unfold send. destruct (heap st !! k); [case_decide|]; done. Qed.

Lemma send_log k m st :
  log (send k m st) = log st ++ (if isOpen k st then [ESend k m] else []).
Proof.
  unfold send, isOpen. destruct (heap st !! k) as [o|]; simpl.
  - destruct (decide (readyState o = OPEN)).
    + by rewrite bool_decide_eq_true_2.
    + rewrite bool_decide_eq_false_2 by done. by rewrite app_nil_r.
  - by rewrite app_nil_r.
Qed.

Lemma send_isOpen k m j st : isOpen j (send k m st) = isOpen j st.
Proof. unfold isOpen. by rewrite send_heap. Qed.

Lemma send_clientsGet k m j st : clientsGet j (send k m st) = clientsGet j st.
Proof. unfold clientsGet. by rewrite send_clients, send_heap. Qed.

Lemma send_eq k m st :
  send k m st
  = mkState (clients st) (heap st) (waitingQueue st) (stats st)
            (log st ++ (if isOpen k st then [ESend k m] else [])).
Proof.
  rewrite <- send_log, <- (send_clients k m), <- (send_heap k m),
    <- (send_queue k m), <- (send_stats k m).
  by destruct (send k m st).
Qed.

Lemma isOpen_true k st :
  isOpen k st = true ↔ ∃ c, heap st !! k = Some c ∧ readyState c = OPEN.
Proof.
  unfold isOpen. destruct (heap st !! k) as [o|].
  - rewrite bool_decide_eq_true. naive_solver.
  - naive_solver.
Qed.

(** The invariant does not see the log beyond the count of formed
    pairings. *)
Lemma Inv_frame st st' :
  clients st' = clients st → heap st' = heap st →
  waitingQueue st' = waitingQueue st → stats st' = stats st →
  formed (log st') = formed (log st) →
  Inv st → Inv st'.
Proof.
  unfold Inv. intros -> -> -> -> ->. done.
Qed.

Lemma Inv_send k m st :
  (∀ p, m ≠ MsgMatch p Answerer) → Inv st → Inv (send k m st).
Proof.
  intros Hm. apply Inv_frame;
    rewrite ?send_clients, ?send_heap, ?send_queue, ?send_stats; try done.
  rewrite send_log, formed_app. destruct (isOpen k st); simpl; [|lia].
  destruct m as [|q []| | |]; simpl; try lia. by destruct (Hm q).
Qed.

Lemma Inv_emit e st :
  formed [e] = 0 → Inv st → Inv (emit e st).
Proof.
  intros He. apply Inv_frame; try done.
  simpl. rewrite formed_app, He. lia.
Qed.

(** ** [handleLeave], case by case *)

Lemma partnerOf_Some (o : Client) p :
  partnerOf o = Some p ↔ partnerId o = Some p ∧ p ≠ EmptyString.
Proof.
  unfold partnerOf. destruct (partnerId o) as [s|]; [|naive_solver].
  case_decide; naive_solver.
Qed.

Lemma partnerOf_None_unpaired (o : Client) :
  partnerId o = None → partnerOf o = None.
Proof. unfold partnerOf. by intros ->. Qed.

Lemma handleLeave_alone now k st o :
  heap st !! k = Some o → partnerOf o = None →
  handleLeave now k st
  = mkState (clients st) (alter resetClient k (heap st))
            (removeFirst k (waitingQueue st)) (stats st) (log st).
Proof.
  intros Ho Hp. unfold handleLeave, removeFromQueue, modify. simpl.
  rewrite Ho, Hp. simpl. by rewrite !alter_alter_eq.
Qed.

Lemma handleLeave_dangling now k st o p :
  heap st !! k = Some o → partnerOf o = Some p → clientsGet p st = None →
  handleLeave now k st
  = mkState (clients st) (alter resetClient k (heap st))
            (removeFirst k (waitingQueue st)) (stats st) (log st).
Proof.
  intros Ho Hp Hg. unfold handleLeave, removeFromQueue, modify. simpl.
  rewrite Ho, Hp. unfold clientsGet in *. simpl. rewrite Hg. simpl.
  by rewrite !alter_alter_eq.
Qed.

Lemma handleLeave_paired now k st o p op t1 t2 :
  heap st !! k = Some o → partnerOf o = Some p → clientsGet p st = Some op →
  pairedAt o = Some t1 → pairedAt op = Some t2 → t1 ≠ 0%Z → t2 ≠ 0%Z →
  handleLeave now k st
  = mkState (clients st)
            (alter resetClient k (alter resetPartner p (heap st)))
            (removeFirst k (waitingQueue st))
            (recordConversation now t1 t2 (stats st))
            (log st ++ (if isOpen p st
                        then [ESend p MsgPartnerLeft; ESend p (MsgStatus msgPartnerGone)]
                        else [])).
Proof.
  intros Ho Hp Hg H1 H2 Hz1 Hz2.
  unfold handleLeave, removeFromQueue. simpl.
  rewrite Ho, Hp. unfold clientsGet in *. simpl. rewrite Hg. simpl.
  rewrite H1, H2.
  assert ((t1 =? 0)%Z = false) as -> by by apply Z.eqb_neq.
  assert ((t2 =? 0)%Z = false) as -> by by apply Z.eqb_neq.
  simpl. rewrite !send_eq. unfold modify. simpl.
  rewrite !alter_alter_eq. f_equal.
  assert (Hop : heap st !! p = Some op) by (by case_decide).
  unfold isOpen. simpl. rewrite !lookup_alter_eq, Hop. simpl.
  destruct (bool_decide (readyState op = OPEN)); simpl; [|by rewrite app_nil_r].
  by rewrite <- app_assoc.
Qed.

(** ** Consequences of the invariant *)

Lemma Inv_partner st k o p :
  Inv st → heap st !! k = Some o → partnerId o = Some p →
  p ≠ k ∧ p ≠ EmptyString ∧ k ∈ clients st ∧ p ∈ clients st
  ∧ partnerOf o = Some p
  ∧ ∃ op t1 t2, heap st !! p = Some op ∧ partnerId op = Some k
      ∧ pairedAt o = Some t1 ∧ t1 ≠ 0%Z ∧ pairedAt op = Some t2 ∧ t2 ≠ 0%Z.
Proof.
  intros (_ & _ & Hobj & _) Ho Hp.
  destruct (Hobj _ _ Ho) as (_ & Hsym & Hat & _).
  destruct (Hsym _ Hp) as (Hne & Hk & Hpc & op & Hop & Hback).
  destruct (Hobj _ _ Hop) as (Hid & _ & Hat' & _).
  rewrite Hp in Hat. rewrite Hback in Hat'.
  destruct Hat as (t1 & ? & ?), Hat' as (t2 & ? & ?).
  repeat split; try done.
  - by apply partnerOf_Some.
  - by exists op, t1, t2.
Qed.

Lemma Inv_unpaired st k o :
  Inv st → heap st !! k = Some o → partnerOf o = None → partnerId o = None.
Proof.
  intros HI Ho Hnone. destruct (partnerId o) as [p|] eqn:Hp; [|done].
  destruct (Inv_partner _ _ _ _ HI Ho Hp) as (_ & _ & _ & _ & Hof & _).
  congruence.
Qed.

Lemma Inv_queued_unpaired st k o :
  Inv st → k ∈ waitingQueue st → heap st !! k = Some o → partnerId o = None.
Proof.
  intros (_ & _ & _ & _ & Hq & _) Hk Ho.
  destruct (Hq _ Hk) as (_ & o' & Ho' & Hp & _). congruence.
Qed.

Lemma paired_alter_other (f : Client → Client) (h : gmap string Client) k j :
  j ≠ k → paired (alter f k h) j = paired h j.
Proof. intros Hne. unfold paired. by rewrite lookup_alter_ne. Qed.

Lemma paired_true (h : gmap string Client) k o p :
  h !! k = Some o → partnerOf o = Some p → paired h k = true.
Proof. unfold paired. by intros -> ->. Qed.

Lemma paired_false (h : gmap string Client) k o :
  h !! k = Some o → partnerOf o = None → paired h k = false.
Proof. unfold paired. by intros -> ->. Qed.

(** ** The invariant is kept by [handleLeave] *)

Ltac split_Inv :=
  unfold Inv; simpl; split; [|split; [|split; [|split; [|split; [|split]]]]].

Lemma Inv_unlink_alone st k o :
  Inv st → heap st !! k = Some o → partnerId o = None →
  Inv (mkState (clients st) (alter resetClient k (heap st))
               (removeFirst k (waitingQueue st)) (stats st) (log st)).
Proof.
  intros HI Ho Hp.
  destruct HI as (Hnd & Hreg & Hobj & Hqnd & Hq & Hcnt & Hfm).
  split_Inv; try done.
  - intros j Hj. apply lookup_alter_is_Some. by apply Hreg.
  - intros j oj. rewrite lookup_alter_Some.
    intros [(-> & x & Hx & ->)|(Hne & Hj)].
    + destruct (Hobj _ _ Hx) as (Hid & _). unfold objInv. simpl.
      split; [done|]. split; [done|]. split; [done|]. by intros [? ?].
    + destruct (Hobj _ _ Hj) as (Hid & Hsym & Hat & Hw).
      split; [done|]. split; [|done].
      intros b Hb. destruct (Hsym _ Hb) as (? & ? & ? & ob & Hob & Hback).
      repeat split; try done. exists ob. split; [|done].
      rewrite lookup_alter_ne; [done|]. intros <-. congruence.
  - by apply removeFirst_NoDup.
  - intros j Hj.
    assert (j ≠ k) as Hne.
    { intros ->. by apply (removeFirst_NoDup k) in Hqnd as [_ Hn]. }
    apply removeFirst_elem in Hj. destruct (Hq _ Hj) as (? & oj & ? & ?).
    split; [done|]. exists oj. by rewrite lookup_alter_ne.
  - rewrite <- Hcnt. f_equal. apply count_ext. intros j _.
    destruct (decide (j = k)) as [->|Hne]; [|by apply paired_alter_other].
    unfold paired. rewrite lookup_alter_eq, Ho. simpl.
    by rewrite (partnerOf_None_unpaired o).
Qed.

Lemma Inv_unlink_pair st now k o p l :
  Inv st → heap st !! k = Some o → partnerId o = Some p → formed l = 0 →
  ∀ t1 t2,
  Inv (mkState (clients st)
               (alter resetClient k (alter resetPartner p (heap st)))
               (removeFirst k (waitingQueue st))
               (recordConversation now t1 t2 (stats st))
               (log st ++ l)).
Proof.
  intros HI Ho Hp Hl t1 t2.
  destruct (Inv_partner _ _ _ _ HI Ho Hp)
    as (Hpk & Hpe & Hkc & Hpc & Hof & op & u1 & u2 & Hop & Hback & _).
  assert (Hofp : partnerOf op = Some k).
  { apply partnerOf_Some. split; [done|].
    destruct HI as (_ & _ & Hobj & _). by destruct (Hobj _ _ Ho). }
  pose proof HI as (Hnd & Hreg & Hobj & Hqnd & Hq & Hcnt & Hfm).
  assert (Hcount : S (S (count (paired (alter resetClient k (alter resetPartner p (heap st))))
                          (clients st)))
                   = count (paired (heap st)) (clients st)).
  { rewrite <- (count_flip_off (paired (heap st))
                 (paired (alter resetPartner p (heap st))) p (clients st)); try done.
    - f_equal. apply count_flip_off with k; try done.
      + rewrite paired_alter_other by done. by eapply paired_true.
      + unfold paired. rewrite lookup_alter_eq, lookup_alter_ne, Ho by done. done.
      + intros j _ Hne. by apply paired_alter_other.
    - by eapply paired_true.
    - unfold paired. rewrite lookup_alter_eq, Hop. done.
    - intros j _ Hne. by apply paired_alter_other. }
  split_Inv; try done.
  - intros j Hj. apply lookup_alter_is_Some, lookup_alter_is_Some. by apply Hreg.
  - intros j oj. rewrite lookup_alter_Some.
    intros [(-> & x & Hx & ->)|(Hne & Hj)].
    + split; [by destruct (Hobj _ _ Ho)|]. split; [done|]. split; [done|].
      by intros [? ?].
    + apply lookup_alter_Some in Hj as [(-> & x & Hx & ->)|(Hne' & Hj)].
      * split; [done|]. split; [done|]. split; [done|]. by intros [? ?].
      * destruct (Hobj _ _ Hj) as (Hid & Hsym & Hat & Hw).
        split; [done|]. split; [|done].
        intros b Hb. destruct (Hsym _ Hb) as (? & ? & ? & ob & Hob & Hbk).
        repeat split; try done. exists ob. split; [|done].
        rewrite !lookup_alter_ne; [done|intros <-; congruence..].
  - by apply removeFirst_NoDup.
  - intros j Hj. apply removeFirst_elem in Hj.
    destruct (Hq _ Hj) as (? & oj & Hoj & Hun & ?).
    split; [done|]. exists oj.
    rewrite !lookup_alter_ne; [done|intros <-; congruence..].
  - lia.
  - rewrite length_app, formed_app, Hl. simpl. lia.
Qed.

Lemma Inv_handleLeave now k st :
  Inv st → is_Some (heap st !! k) → Inv (handleLeave now k st).
Proof.
  intros HI [o Ho]. destruct (partnerId o) as [p|] eqn:Hp.
  - destruct (Inv_partner _ _ _ _ HI Ho Hp)
      as (Hpk & Hpe & Hkc & Hpc & Hof & op & t1 & t2 & Hop & Hback & H1 & Hz1 & H2 & Hz2).
    rewrite (handleLeave_paired now k st o p op t1 t2); try done.
    + apply Inv_unlink_pair with o; try done. by destruct (isOpen p st).
    + unfold clientsGet. by rewrite decide_True.
  - rewrite (handleLeave_alone now k st o); [|done|by apply partnerOf_None_unpaired].
    by apply Inv_unlink_alone with o.
Qed.

(** ** [cleanupClient] and [connectPair] *)

Lemma Inv_clientsDelete k st o :
  Inv st → heap st !! k = Some o → partnerId o = None → k ∉ waitingQueue st →
  Inv (clientsDelete k st).
Proof.
  intros (Hnd & Hreg & Hobj & Hqnd & Hq & Hcnt & Hfm) Ho Hp Hk.
  split_Inv; try done.
  - by apply NoDup_filter.
  - intros j [_ Hj]%list_elem_of_filter. by apply Hreg.
  - intros j oj Hj. destruct (Hobj _ _ Hj) as (Hid & Hsym & Hat & Hw).
    split; [done|]. split; [|done].
    intros b Hb. destruct (Hsym _ Hb) as (? & ? & ? & ob & Hob & Hbk).
    split; [done|]. rewrite !list_elem_of_filter.
    split; [split; [congruence|done]|]. split; [split; [congruence|done]|].
    by exists ob.
  - intros j Hj. destruct (Hq _ Hj) as (? & oj & ? & ?).
    split; [|by exists oj]. apply list_elem_of_filter. split; [congruence|done].
  - rewrite count_filter_false; [done|].
    by apply paired_false with o, partnerOf_None_unpaired.
Qed.

Lemma handleLeave_clients now k st : clients (handleLeave now k st) = clients st.
Proof.
  unfold handleLeave, removeFromQueue, clientsGet. simpl.
  destruct (heap st !! k) as [o|]; [|done].
  destruct (partnerOf o) as [p|]; [|done]. simpl.
  destruct (decide (p ∈ clients st)); [|done].
  destruct (heap st !! p) as [op|]; [|done].
  rewrite !send_clients. simpl.
  destruct (pairedAt o), (pairedAt op); try done.
  by destruct (negb _ && negb _).
Qed.

Lemma handleLeave_self now k st o :
  Inv st → heap st !! k = Some o →
  (k ∉ waitingQueue (handleLeave now k st))
  ∧ ∃ o', heap (handleLeave now k st) !! k = Some o' ∧ partnerId o' = None.
Proof.
  intros HI Ho.
  assert (k ∉ removeFirst k (waitingQueue st)) as Hk.
  { apply removeFirst_NoDup. by destruct HI as (_ & _ & _ & ? & _). }
  destruct (partnerId o) as [p|] eqn:Hp.
  - destruct (Inv_partner _ _ _ _ HI Ho Hp)
      as (Hpk & Hpe & Hkc & Hpc & Hof & op & t1 & t2 & Hop & Hback & H1 & Hz1 & H2 & Hz2).
    rewrite (handleLeave_paired now k st o p op t1 t2); try done.
    + simpl. split; [done|]. rewrite lookup_alter_eq, lookup_alter_ne, Ho by done.
      by eexists.
    + unfold clientsGet. by rewrite decide_True.
  - rewrite (handleLeave_alone now k st o); [|done|by apply partnerOf_None_unpaired].
    simpl. split; [done|]. rewrite lookup_alter_eq, Ho. by eexists.
Qed.

Lemma Inv_cleanupClient now k st : Inv st → Inv (cleanupClient now k st).
Proof.
  intros HI. unfold cleanupClient, clientsGet.
  destruct (decide (k ∈ clients st)) as [Hk|]; [|done].
  destruct (heap st !! k) as [o|] eqn:Ho; [|done].
  destruct (handleLeave_self now k st o HI Ho) as (Hq & o' & Ho' & Hp').
  apply Inv_clientsDelete with o'; try done.
  apply Inv_handleLeave; [done|by exists o].
Qed.

Lemma connectPair_eq now a b st :
  a ≠ b →
  connectPair now a b st
  = mkState (clients st)
            (alter (linkTo now b) a (alter (linkTo now a) b (heap st)))
            (waitingQueue st)
            (mkStats (totalVisitors (stats st))
                     (activeConversations (stats st) + 1)
                     (conversationHistory (stats st)))
            (log st ++ pairLog a b st).
Proof.
  intros Hne. unfold connectPair. rewrite !send_eq. unfold modify. simpl.
  f_equal.
  - apply map_eq. intros j. rewrite !lookup_alter.
    repeat case_decide; simplify_eq; by destruct (heap st !! j).
  - unfold pairLog, sent, isOpen. simpl.
    rewrite <- !app_assoc. repeat f_equal.
    all: rewrite !lookup_alter; repeat case_decide; simplify_eq;
      by destruct (heap st !! _).
Qed.

Lemma formed_sent k m st :
  formed (sent k m st)
  = match m with
    | MsgMatch _ Answerer => if isOpen k st then 1 else 0
    | _ => 0
    end.
Proof.
  unfold sent. destruct (isOpen k st); simpl.
  - by destruct m as [|q []| | |].
  - by destruct m as [|q []| | |].
Qed.

Lemma formed_pairLog a b st :
  formed (pairLog a b st) = if isOpen b st then 1 else 0.
Proof.
  unfold pairLog. rewrite !formed_app, !formed_sent. lia.
Qed.

Lemma Inv_connectPair now a b st oa ob :
  Inv st → a ≠ b → now ≠ 0%Z →
  a ∈ clients st → b ∈ clients st →
  heap st !! a = Some oa → heap st !! b = Some ob →
  partnerId oa = None → partnerId ob = None →
  a ∉ waitingQueue st → b ∉ waitingQueue st →
  isOpen b st = true →
  Inv (connectPair now a b st).
Proof.
  intros HI Hne Hnow Ha Hb Hoa Hob Hpa Hpb Hqa Hqb Hopen.
  rewrite connectPair_eq by done.
  pose proof HI as (Hnd & Hreg & Hobj & Hqnd & Hq & Hcnt & Hfm).
  assert (Haid : a ≠ EmptyString) by (by destruct (Hobj _ _ Hoa)).
  assert (Hbid : b ≠ EmptyString) by (by destruct (Hobj _ _ Hob)).
  assert (Hcount : count (paired (alter (linkTo now b) a (alter (linkTo now a) b (heap st))))
                         (clients st)
                   = S (S (count (paired (heap st)) (clients st)))).
  { rewrite (count_flip_on (paired (alter (linkTo now a) b (heap st))) _ a (clients st));
      try done.
    - f_equal. apply count_flip_on with b; try done.
      + by apply paired_false with ob, partnerOf_None_unpaired.
      + unfold paired. rewrite lookup_alter_eq, Hob. simpl.
        unfold partnerOf. simpl. by rewrite decide_False.
      + intros j _ Hj. by apply paired_alter_other.
    - rewrite paired_alter_other by done.
      by apply paired_false with oa, partnerOf_None_unpaired.
    - unfold paired. rewrite lookup_alter_eq, lookup_alter_ne, Hoa by congruence. simpl.
      unfold partnerOf. simpl. by rewrite decide_False.
    - intros j _ Hj. by apply paired_alter_other. }
  split_Inv; try done.
  - intros j Hj. apply lookup_alter_is_Some, lookup_alter_is_Some. by apply Hreg.
  - intros j oj. rewrite lookup_alter_Some.
    intros [(-> & x & Hx & ->)|(Hja & Hj)].
    + rewrite lookup_alter_ne in Hx by congruence.
      split; [done|]. split; [|split; [by exists now|done]].
      simpl. intros ? [= <-]. repeat split; try done.
      exists (linkTo now j ob). by rewrite lookup_alter_ne, lookup_alter_eq, Hob by congruence.
    + apply lookup_alter_Some in Hj as [(-> & x & Hx & ->)|(Hjb & Hj)].
      * split; [done|]. split; [|split; [by exists now|done]].
        simpl. intros ? [= <-]. repeat split; try done.
        exists (linkTo now j oa).
        by rewrite lookup_alter_eq, lookup_alter_ne, Hoa by congruence.
      * destruct (Hobj _ _ Hj) as (Hid & Hsym & Hat & Hw).
        split; [done|]. split; [|done].
        intros c Hc. destruct (Hsym _ Hc) as (? & ? & ? & oc & Hoc & Hbk).
        repeat split; try done. exists oc. split; [|done].
        rewrite !lookup_alter_ne; [done|intros <-; congruence..].
  - intros j Hj. destruct (Hq _ Hj) as (? & oj & Hoj & Hun & ?).
    split; [done|]. exists oj.
    rewrite !lookup_alter_ne; [done|intros <-; congruence..].
  - lia.
  - rewrite formed_app, formed_pairLog, Hopen. lia.
Qed.

(** ** The invariant is kept by every handler *)

(** An update that touches neither the partner link nor [wantsChat]. *)
Lemma Inv_modify_neutral k (f : Client → Client) st :
  (∀ o, partnerId (f o) = partnerId o ∧ pairedAt (f o) = pairedAt o
        ∧ wantsChat (f o) = wantsChat o) →
  Inv st → Inv (modify k f st).
Proof.
  intros Hf (Hnd & Hreg & Hobj & Hqnd & Hq & Hcnt & Hfm).
  assert (Hlk : ∀ j oj, heap st !! j = Some oj →
            ∃ oj', alter f k (heap st) !! j = Some oj'
                   ∧ partnerId oj' = partnerId oj ∧ pairedAt oj' = pairedAt oj
                   ∧ wantsChat oj' = wantsChat oj).
  { intros j oj Hj. rewrite lookup_alter. case_decide; simplify_eq.
    - rewrite Hj. simpl. exists (f oj). split; [done|apply Hf].
    - by exists oj. }
  split_Inv; try done.
  - intros j Hj. apply lookup_alter_is_Some. by apply Hreg.
  - intros j oj' Hj'.
    assert (is_Some (heap st !! j)) as [oj Hj].
    { apply (lookup_alter_is_Some f _ k). by exists oj'. }
    destruct (Hlk _ _ Hj) as (oj2 & Hj2 & E1 & E2 & E3).
    assert (oj2 = oj') as -> by congruence.
    destruct (Hobj _ _ Hj) as (Hid & Hsym & Hat & Hw).
    unfold objInv. rewrite E1, E2, E3.
    split; [done|]. split; [|done].
    intros b Hb. destruct (Hsym _ Hb) as (? & ? & ? & ob & Hob & Hbk).
    repeat split; try done.
    destruct (Hlk _ _ Hob) as (ob' & Hob' & E1' & _).
    exists ob'. split; [done|congruence].
  - intros j Hj. destruct (Hq _ Hj) as (? & oj & Hoj & ? & ?).
    split; [done|]. destruct (Hlk _ _ Hoj) as (oj' & ? & ? & ? & ?).
    exists oj'. repeat split; congruence.
  - rewrite <- Hcnt. f_equal. apply count_ext. intros j _.
    unfold paired. destruct (heap st !! j) as [oj|] eqn:Hj.
    + destruct (Hlk _ _ Hj) as (oj' & -> & E1 & _).
      unfold partnerOf. by rewrite E1.
    + apply (lookup_alter_None f _ k) in Hj. by rewrite Hj.
Qed.

Lemma Inv_wantsChat k st o :
  Inv st → heap st !! k = Some o → partnerId o = None →
  Inv (modify k (setWantsChat true) st).
Proof.
  intros (Hnd & Hreg & Hobj & Hqnd & Hq & Hcnt & Hfm) Ho Hp.
  split_Inv; try done.
  - intros j Hj. apply lookup_alter_is_Some. by apply Hreg.
  - intros j oj. rewrite lookup_alter_Some.
    intros [(-> & x & Hx & ->)|(Hne & Hj)].
    + assert (x = o) as -> by congruence.
      destruct (Hobj _ _ Ho) as (Hid & Hsym & Hat & Hw).
      split; [done|]. split; [simpl; by rewrite Hp|]. split; [done|].
      simpl. rewrite Hp. by intros [? ?].
    + destruct (Hobj _ _ Hj) as (Hid & Hsym & Hat & Hw).
      split; [done|]. split; [|done].
      intros b Hb. destruct (Hsym _ Hb) as (? & ? & ? & ob & Hob & Hbk).
      repeat split; try done. exists ob. split; [|done].
      rewrite lookup_alter_ne; [done|intros <-; congruence].
  - intros j Hj. destruct (Hq _ Hj) as (? & oj & Hoj & ? & ?).
    split; [done|]. destruct (decide (k = j)) as [->|Hne].
    + rewrite lookup_alter_eq, Hoj. by eexists.
    + rewrite lookup_alter_ne by done. by exists oj.
  - rewrite <- Hcnt. f_equal. apply count_ext. intros j _.
    unfold paired. rewrite lookup_alter. case_decide; simplify_eq; [|done].
    by destruct (heap st !! j).
Qed.

Lemma Inv_pop st p q :
  Inv st → waitingQueue st = p :: q → Inv (setQueue q st).
Proof.
  intros (Hnd & Hreg & Hobj & Hqnd & Hq & Hcnt & Hfm) Hpq.
  rewrite Hpq in Hqnd, Hq. apply NoDup_cons in Hqnd as [_ Hqnd].
  split_Inv; try done.
  intros j Hj. apply Hq. by apply list_elem_of_further.
Qed.

Lemma Inv_pushWaiting k st o :
  Inv st → k ∈ clients st → heap st !! k = Some o →
  partnerId o = None → wantsChat o = true → k ∉ waitingQueue st →
  Inv (pushWaiting k st).
Proof.
  intros HI Hk Ho Hp Hw Hnq. unfold pushWaiting. apply Inv_send; [done|].
  destruct HI as (Hnd & Hreg & Hobj & Hqnd & Hq & Hcnt & Hfm).
  split_Inv; try done.
  - apply NoDup_app. split; [done|]. split; [|apply NoDup_singleton].
    intros j Hj ->%list_elem_of_singleton. done.
  - intros j [Hj| ->%list_elem_of_singleton]%elem_of_app; [by apply Hq|].
    split; [done|]. by exists o.
Qed.

Lemma Inv_matchLoop now k o q : ∀ st,
  Inv st → now ≠ 0%Z → waitingQueue st = q →
  k ∈ clients st → heap st !! k = Some o →
  partnerId o = None → wantsChat o = true → k ∉ q →
  Inv (matchLoop now k q st).
Proof.
  induction q as [|p q IH]; intros st HI Hnow Hq Hk Ho Hp Hw Hnq; simpl.
  - apply Inv_pushWaiting with o; try done. by rewrite Hq.
  - apply not_elem_of_cons in Hnq as [Hkp Hnq].
    pose proof (Inv_pop _ _ _ HI Hq) as HI1.
    case_decide.
    { apply Inv_pushWaiting with o; done. }
    unfold clientsGet. simpl.
    destruct (decide (p ∈ clients st)) as [Hpc|]; [|by apply IH].
    destruct (heap st !! p) as [op|] eqn:Hop; [|by apply IH].
    destruct (decide (readyState op = OPEN)) as [Hopen|]; [|by apply IH].
    destruct HI as (_ & _ & _ & Hqnd & Hqi & _).
    rewrite Hq in Hqnd, Hqi. apply NoDup_cons in Hqnd as [Hpq _].
    destruct (Hqi p) as (_ & op' & Hop' & Hpp & _); [apply list_elem_of_here|].
    assert (op' = op) as -> by congruence.
    apply Inv_connectPair with o op; try done.
    apply isOpen_true. by exists op.
Qed.

Lemma Inv_handleReady now k st :
  Inv st → now ≠ 0%Z → k ∈ clients st → Inv (handleReady now k st).
Proof.
  intros HI Hnow Hk. unfold handleReady.
  destruct (heap st !! k) as [o|] eqn:Ho; [|done].
  destruct (partnerOf o) as [p|] eqn:Hof; [by apply Inv_send|].
  case_decide as Hq; [by apply Inv_send|].
  pose proof (Inv_unpaired _ _ _ HI Ho Hof) as Hp.
  apply Inv_matchLoop with (setWantsChat true o); try done.
  - by apply Inv_wantsChat with o.
  - simpl. by rewrite lookup_alter_eq, Ho.
Qed.

Lemma Inv_handleSignal now k payload st :
  Inv st → k ∈ clients st → Inv (handleSignal now k payload st).
Proof.
  intros HI Hk. unfold handleSignal.
  destruct (heap st !! k) as [o|] eqn:Ho; [|done].
  destruct (partnerOf o) as [p|]; [|by apply Inv_send].
  destruct (clientsGet p st); [by apply Inv_send|].
  apply Inv_handleLeave; [done|by exists o].
Qed.

Lemma Inv_handleMessage now k raw st :
  Inv st → now ≠ 0%Z → k ∈ clients st → Inv (handleMessage now k raw st).
Proof.
  intros HI Hnow Hk. destruct raw as [| |[]]; simpl.
  - by apply Inv_send.
  - done.
  - by apply Inv_handleReady.
  - by apply Inv_handleSignal.
  - apply Inv_handleLeave; [done|]. by destruct HI as (_ & Hreg & _); apply Hreg.
  - by apply Inv_send.
Qed.

Lemma Inv_onConnection now k st :
  Inv st → k ≠ EmptyString → heap st !! k = None → Inv (onConnection now k st).
Proof.
  intros (Hnd & Hreg & Hobj & Hqnd & Hq & Hcnt & Hfm) Hid Hfresh.
  assert (Hk : k ∉ clients st).
  { intros [? ?]%Hreg. congruence. }
  unfold onConnection. apply Inv_send; [done|].
  unfold clientsSet. rewrite decide_False by done.
  split_Inv; try done.
  - apply NoDup_app. split; [done|]. split; [|apply NoDup_singleton].
    intros j Hj ->%list_elem_of_singleton. done.
  - intros j [Hj| ->%list_elem_of_singleton]%elem_of_app.
    + rewrite lookup_insert_ne; [by apply Hreg|]. by intros ->.
    + rewrite lookup_insert_eq. by eexists.
  - intros j oj. rewrite lookup_insert_Some.
    intros [(<- & <-)|(Hne & Hj)].
    + split; [done|]. split; [done|]. split; [done|]. by intros [? ?].
    + destruct (Hobj _ _ Hj) as (? & Hsym & Hat & Hw).
      split; [done|]. split; [|done].
      intros b Hb. destruct (Hsym _ Hb) as (? & ? & ? & ob & Hob & Hbk).
      rewrite !elem_of_app. repeat split; try done; [by left..|].
      exists ob. split; [|done].
      rewrite lookup_insert_ne; [done|]. intros <-. congruence.
  - intros j Hj. destruct (Hq _ Hj) as (? & oj & Hoj & ? & ?).
    split; [apply elem_of_app; by left|]. exists oj. split; [|done].
    rewrite lookup_insert_ne; [done|]. intros <-. congruence.
  - rewrite count_app. simpl. unfold paired at 2. rewrite lookup_insert_eq. simpl.
    rewrite <- Hcnt. f_equal. rewrite Nat.add_0_r. apply count_ext.
    intros j Hj. unfold paired. rewrite lookup_insert_ne; [done|]. by intros ->.
Qed.

Lemma Inv_terminate k st : Inv st → Inv (terminate k st).
Proof.
  intros HI. unfold terminate. apply Inv_emit; [done|].
  apply Inv_modify_neutral; [|done]. intros o. by case_decide.
Qed.

Lemma Inv_heartbeatStep now pingThrows k st :
  Inv st → Inv (heartbeatStep now pingThrows k st).
Proof.
  intros HI. unfold heartbeatStep.
  destruct (clientsGet k st) as [o|]; [|done].
  destruct (negb (isAlive o)).
  - by apply Inv_cleanupClient, Inv_terminate.
  - assert (Inv (emit (EPing k) (modify k (setIsAlive false) st))) as HI'.
    { apply Inv_emit; [done|]. by apply Inv_modify_neutral. }
    destruct (pingThrows k); [by apply Inv_cleanupClient|done].
Qed.

Lemma Inv_heartbeat now pingThrows st : Inv st → Inv (heartbeat now pingThrows st).
Proof.
  unfold heartbeat. generalize (clients st) as l. intros l. revert st.
  induction l as [|k l IH]; intros st HI; simpl; [done|].
  by apply IH, Inv_heartbeatStep.
Qed.

Lemma Inv_initial : Inv (@initial Payload).
Proof.
  split_Inv; try done; try apply NoDup_nil_2.
  - by intros k ?%elem_of_nil.
  - by intros k ?%elem_of_nil.
Qed.

Lemma Inv_handle ev st : Inv st → enabled st ev → Inv (handle ev st).
Proof.
  intros HI He. destruct ev as [now k|k|now k raw|now k|now k|k rs|now pt]; simpl in *.
  - destruct He as (? & ? & ?). by apply Inv_onConnection.
  - by apply Inv_modify_neutral.
  - destruct He as [? ?]. apply Inv_handleMessage; [done|lia|done].
  - by apply Inv_cleanupClient.
  - by apply Inv_cleanupClient.
  - by apply Inv_modify_neutral.
  - by apply Inv_heartbeat.
Qed.

Lemma reachable_Inv st : reachable st → Inv st.
Proof.
  induction 1 as [|st ev _ IH He]; [apply Inv_initial|by apply Inv_handle].
Qed.

(** ** Pairing symmetry, self-pairing, the waiting queue *)

Lemma clientsGet_Some k st o :
  clientsGet k st = Some o ↔ k ∈ clients st ∧ heap st !! k = Some o.
Proof. unfold clientsGet. case_decide; naive_solver. Qed.

(** C1.  Pairing symmetry: in every reachable state, a registered client A
    whose [partnerId] is a non-empty id B has a registered partner B whose
    [partnerId] is A, and both carry a [pairedAt]; so no state between two
    handler executions has exactly one side of a pairing linked. *)
Theorem pairing_symmetry st a oa b :
  reachable st → clientsGet a st = Some oa → partnerOf oa = Some b →
  ∃ ob, clientsGet b st = Some ob ∧ partnerOf ob = Some a
        ∧ is_Some (pairedAt oa) ∧ is_Some (pairedAt ob).
Proof.
  intros HI%reachable_Inv [Ha Hoa]%clientsGet_Some [Hp _]%partnerOf_Some.
  destruct (Inv_partner _ _ _ _ HI Hoa Hp)
    as (_ & _ & _ & Hb & _ & ob & t1 & t2 & Hob & Hback & H1 & _ & H2 & _).
  exists ob. split; [by apply clientsGet_Some|].
  split; [|by rewrite H1, H2].
  apply partnerOf_Some. split; [done|].
  destruct HI as (_ & _ & Hobj & _). by destruct (Hobj _ _ Hoa).
Qed.

(** C7.  No self-pairing: in every reachable state no client object has
    its own id as [partnerId]; and a ready from a client that is in the
    waiting queue changes no client object at all. *)
Theorem no_self_pairing st :
  reachable st →
  (∀ a oa, heap st !! a = Some oa → partnerId oa ≠ Some a)
  ∧ (∀ now a, a ∈ waitingQueue st →
       heap (handleReady now a st) = heap st
       ∧ waitingQueue (handleReady now a st) = waitingQueue st).
Proof.
  intros HI%reachable_Inv. split.
  - intros a oa Hoa Hp.
    by destruct (Inv_partner _ _ _ _ HI Hoa Hp) as (Hne & _).
  - intros now a Ha. unfold handleReady.
    destruct (heap st !! a) as [o|]; [|done].
    destruct (partnerOf o); [by rewrite send_heap, send_queue|].
    rewrite decide_True by done. by rewrite send_heap, send_queue.
Qed.

(** C8.  The waiting queue: in every reachable state no id occurs twice in
    the queue and every queued id is a registered client with no
    [partnerId] (and with [wantsChat] set); a ready from a queued client
    leaves the registry, the clients, the queue and the statistics as they
    are and only sends it the still-waiting status. *)
Theorem waiting_queue_invariant st :
  reachable st →
  NoDup (waitingQueue st)
  ∧ (∀ k, k ∈ waitingQueue st →
       ∃ o, clientsGet k st = Some o ∧ partnerId o = None ∧ wantsChat o = true)
  ∧ (∀ now k, k ∈ waitingQueue st →
       handleReady now k st
       = mkState (clients st) (heap st) (waitingQueue st) (stats st)
           (log st ++ (if isOpen k st
                       then [ESend k (MsgStatus msgStillWaiting)] else []))).
Proof.
  intros HI%reachable_Inv.
  pose proof HI as (_ & _ & _ & Hqnd & Hq & _).
  split; [done|]. split.
  - intros k Hk. destruct (Hq _ Hk) as (? & o & ? & ? & ?).
    exists o. by rewrite clientsGet_Some.
  - intros now k Hk. destruct (Hq _ Hk) as (? & o & Ho & Hp & ?).
    unfold handleReady. rewrite Ho, (partnerOf_None_unpaired o) by done.
    rewrite decide_True by done. apply send_eq.
Qed.

Lemma reachable_run evs : ∀ st,
  reachable st → enabledRun st evs → reachable (run evs st).
Proof.
  induction evs as [|ev evs IH]; intros st Hr He; simpl; [done|].
  destruct He as [He Hes]. apply IH; [|done]. by apply reachable_step.
Qed.

Lemma Inv_run evs : ∀ st, Inv st → enabledRun st evs → Inv (run evs st).
Proof.
  induction evs as [|ev evs IH]; intros st HI He; simpl; [done|].
  destruct He as [He Hes]. apply IH; [|done]. by apply Inv_handle.
Qed.

(** ** The counter of active conversations *)

Lemma handleLeave_stats now k st :
  stats (handleLeave now k st) = stats st
  ∨ ∃ t1 t2, stats (handleLeave now k st) = recordConversation now t1 t2 (stats st).
Proof.
  unfold handleLeave, removeFromQueue, clientsGet. simpl.
  destruct (heap st !! k) as [o|]; [|by left].
  destruct (partnerOf o) as [p|]; [|by left]. simpl.
  destruct (decide (p ∈ clients st)); [|by left].
  destruct (heap st !! p) as [op|]; [|by left].
  rewrite !send_stats. simpl.
  destruct (pairedAt o) as [t1|], (pairedAt op) as [t2|]; try by left.
  destruct (negb _ && negb _); [right; by exists t1, t2|by left].
Qed.

Lemma connectPair_stats now a b st :
  stats (connectPair now a b st)
  = mkStats (totalVisitors (stats st)) (activeConversations (stats st) + 1)
            (conversationHistory (stats st)).
Proof. unfold connectPair. cbv zeta. rewrite !send_stats. reflexivity. Qed.

Lemma nonneg_handleLeave now k st :
  (0 ≤ activeConversations (stats st))%Z →
  (0 ≤ activeConversations (stats (handleLeave now k st)))%Z.
Proof.
  intros H. destruct (handleLeave_stats now k st) as [->|(t1 & t2 & ->)]; [done|].
  simpl. lia.
Qed.

Lemma nonneg_cleanupClient now k st :
  (0 ≤ activeConversations (stats st))%Z →
  (0 ≤ activeConversations (stats (cleanupClient now k st)))%Z.
Proof.
  intros H. unfold cleanupClient. destruct (clientsGet k st); [|done].
  simpl. by apply nonneg_handleLeave.
Qed.

Lemma nonneg_matchLoop now k q : ∀ st,
  (0 ≤ activeConversations (stats st))%Z →
  (0 ≤ activeConversations (stats (matchLoop now k q st)))%Z.
Proof.
  induction q as [|p q IH]; intros st H; simpl.
  - unfold pushWaiting. by rewrite send_stats.
  - case_decide; [unfold pushWaiting; by rewrite send_stats|].
    destruct (clientsGet p _) as [op|]; [|by apply IH].
    case_decide; [|by apply IH].
    rewrite connectPair_stats. simpl. lia.
Qed.

Lemma nonneg_handleMessage now k raw st :
  (0 ≤ activeConversations (stats st))%Z →
  (0 ≤ activeConversations (stats (handleMessage now k raw st)))%Z.
Proof.
  intros H. destruct raw as [| |[|payload| |]]; simpl; rewrite ?send_stats; try done.
  - unfold handleReady. destruct (heap st !! k) as [o|]; [|done].
    destruct (partnerOf o); [by rewrite send_stats|].
    case_decide; [by rewrite send_stats|]. by apply nonneg_matchLoop.
  - unfold handleSignal. destruct (heap st !! k) as [o|]; [|done].
    destruct (partnerOf o) as [p|]; [|by rewrite send_stats].
    destruct (clientsGet p st); [by rewrite send_stats|].
    by apply nonneg_handleLeave.
  - by apply nonneg_handleLeave.
Qed.

Lemma nonneg_heartbeatStep now pingThrows k st :
  (0 ≤ activeConversations (stats st))%Z →
  (0 ≤ activeConversations (stats (heartbeatStep now pingThrows k st)))%Z.
Proof.
  intros H. unfold heartbeatStep. destruct (clientsGet k st) as [o|]; [|done].
  destruct (negb (isAlive o)); [by apply nonneg_cleanupClient|].
  destruct (pingThrows k); [by apply nonneg_cleanupClient|done].
Qed.

Lemma nonneg_handle ev st :
  (0 ≤ activeConversations (stats st))%Z →
  (0 ≤ activeConversations (stats (handle ev st)))%Z.
Proof.
  intros H. destruct ev as [now k|k|now k raw|now k|now k|k rs|now pt]; simpl; try done.
  - unfold onConnection. rewrite send_stats. unfold clientsSet. simpl.
    by case_decide.
  - by apply nonneg_handleMessage.
  - by apply nonneg_cleanupClient.
  - by apply nonneg_cleanupClient.
  - unfold heartbeat. generalize (clients st) as l. intros l. revert st H.
    induction l as [|j l IH]; intros st H; simpl; [done|].
    by apply IH, nonneg_heartbeatStep.
Qed.

(** ** The relay *)

(** C4.  The relay: a signal from a client with no (truthy) [partnerId]
    changes nothing but the log, to which only a status for the sender is
    added; a signal from a client whose partner is registered changes
    nothing but the log, to which only a signal message for the partner is
    added, carrying the very value that [JSON.parse] gave for the payload:
    the handler is parametric in it, so it neither inspects nor modifies
    it.  ([send] writes to a socket only when it is OPEN, and writes the
    message as [JSON.stringify] renders it.) *)
Theorem relay_contract now k (payload : Payload) st o :
  heap st !! k = Some o →
  (partnerOf o = None →
     handleSignal now k payload st
     = mkState (clients st) (heap st) (waitingQueue st) (stats st)
         (log st ++ (if isOpen k st
                     then [ESend k (MsgStatus msgNoPartner)] else [])))
  ∧ (∀ p op, partnerOf o = Some p → clientsGet p st = Some op →
     handleSignal now k payload st
     = mkState (clients st) (heap st) (waitingQueue st) (stats st)
         (log st ++ (if isOpen p st
                     then [ESend p (MsgSignal payload)] else []))).
Proof.
  intros Ho. unfold handleSignal. rewrite Ho. split.
  - intros ->. apply send_eq.
  - intros p op -> ->. apply send_eq.
Qed.

Lemma handleLeave_heap_paired now k st o p op :
  heap st !! k = Some o → partnerOf o = Some p → clientsGet p st = Some op →
  heap (handleLeave now k st)
  = alter resetClient k (alter resetPartner p (heap st)).
Proof.
  intros Ho Hp Hg. unfold handleLeave, removeFromQueue. simpl.
  rewrite Ho, Hp. unfold clientsGet in *. simpl. rewrite Hg.
  unfold modify. simpl. rewrite !send_heap. simpl. rewrite !alter_alter_eq.
  destruct (pairedAt o), (pairedAt op); try done.
  by destruct (_ && _).
Qed.

(** C9.  A signal from a client whose [partnerId] is truthy but is not in
    the registry forwards nothing and tears the client's pairing state
    down: its [partnerId] and [pairedAt] are cleared, [wantsChat] is
    false, its id is taken out of the queue, and nothing else changes: the
    log is unchanged, so the client is sent neither [partner_left] nor a
    status, and the statistics are unchanged.  The cleared [partnerId] and
    [pairedAt] are those of a remaining side after its partner's
    [handleLeave]. *)
Theorem dangling_partner_teardown now k (payload : Payload) st o p :
  heap st !! k = Some o → partnerOf o = Some p → clientsGet p st = None →
  log (handleSignal now k payload st) = log st
  ∧ clients (handleSignal now k payload st) = clients st
  ∧ stats (handleSignal now k payload st) = stats st
  ∧ heap (handleSignal now k payload st) = alter resetClient k (heap st)
  ∧ heap (handleSignal now k payload st) !! k
    = Some (mkClient (readyState o) None false (isAlive o) (connectedAt o) None)
  ∧ waitingQueue (handleSignal now k payload st) = removeFirst k (waitingQueue st)
  ∧ (NoDup (waitingQueue st) → k ∉ waitingQueue (handleSignal now k payload st))
  ∧ (∀ now2 st2 q oq ok,
       heap st2 !! q = Some oq → partnerOf oq = Some k → q ≠ k →
       clientsGet k st2 = Some ok →
       ∃ ok', heap (handleLeave now2 q st2) !! k = Some ok'
              ∧ partnerId ok' = None ∧ pairedAt ok' = None).
Proof.
  intros Ho Hp Hg.
  assert (handleSignal now k payload st
          = mkState (clients st) (alter resetClient k (heap st))
              (removeFirst k (waitingQueue st)) (stats st) (log st)) as ->.
  { unfold handleSignal. rewrite Ho, Hp, Hg.
    by apply handleLeave_dangling with o p. }
  cbn [log clients stats heap waitingQueue].
  do 4 (split; [done|]). split; [|split; [done|split]].
  - by rewrite lookup_alter_eq, Ho.
  - intros Hnd. by apply removeFirst_NoDup.
  - intros now2 st2 q oq ok Hq Hqk Hne Hk.
    rewrite (handleLeave_heap_paired now2 q st2 oq k ok) by done.
    apply clientsGet_Some in Hk as [_ Hk].
    rewrite lookup_alter_ne, lookup_alter_eq, Hk by done. simpl. by eexists.
Qed.

(** ** [handleReady]: the scan of the queue *)

Lemma validEntry_get st k :
  ¬ validEntry st k →
  match clientsGet k st with
  | Some o => readyState o ≠ OPEN
  | None => True
  end.
Proof.
  intros Hv. destruct (clientsGet k st) as [o|] eqn:Hg; [|done].
  intros Hopen. apply Hv. apply clientsGet_Some in Hg as [? Ho].
  split; [done|]. apply isOpen_true. by exists o.
Qed.

Lemma matchLoop_found now a b post pre : ∀ st,
  Forall (λ j, j ≠ EmptyString ∧ ¬ validEntry st j) pre →
  b ≠ EmptyString → validEntry st b →
  matchLoop now a (pre ++ b :: post) st = connectPair now a b (setQueue post st).
Proof.
  induction pre as [|p pre IH]; intros st Hpre Hb Hv; simpl.
  - rewrite decide_False by done.
    destruct Hv as [Hbc [ob [Hob Hopen]]%isOpen_true].
    unfold clientsGet. simpl. rewrite decide_True, Hob by done.
    by rewrite decide_True.
  - apply Forall_cons in Hpre as [[Hp Hnv] Hpre].
    rewrite decide_False by done.
    apply validEntry_get in Hnv.
    assert (clientsGet p (setQueue (pre ++ b :: post) st) = clientsGet p st) as -> by done.
    assert (matchLoop now a (pre ++ b :: post) (setQueue (pre ++ b :: post) st)
            = connectPair now a b (setQueue post st)) as Hrec.
    { by rewrite IH. }
    destruct (clientsGet p st) as [op|]; [|done].
    by rewrite decide_False.
Qed.

Lemma matchLoop_none now a q : ∀ st,
  waitingQueue st = q →
  Forall (λ j, j ≠ EmptyString ∧ ¬ validEntry st j) q →
  matchLoop now a q st = pushWaiting a (setQueue [] st).
Proof.
  induction q as [|p q IH]; intros st Hq Hall; simpl.
  - destruct st; simpl in *; by subst.
  - apply Forall_cons in Hall as [[Hp Hnv] Hall].
    rewrite decide_False by done.
    apply validEntry_get in Hnv.
    assert (clientsGet p (setQueue q st) = clientsGet p st) as -> by done.
    assert (matchLoop now a q (setQueue q st) = pushWaiting a (setQueue [] st)) as Hrec.
    { by rewrite IH. }
    destruct (clientsGet p st) as [op|]; [|done].
    by rewrite decide_False.
Qed.

Lemma Inv_queue_nonempty st k : Inv st → k ∈ waitingQueue st → k ≠ EmptyString.
Proof.
  intros (_ & _ & Hobj & _ & Hq & _) Hk.
  destruct (Hq _ Hk) as (_ & o & Ho & _). by destruct (Hobj _ _ Ho).
Qed.

Lemma isOpen_wantsChat j k v st :
  isOpen j (modify k (setWantsChat v) st) = isOpen j st.
Proof.
  unfold isOpen. simpl. rewrite lookup_alter.
  case_decide; simplify_eq; by destruct (heap st !! _).
Qed.

(** A ready that finds a valid entry [b] behind the invalid entries
    [pre], in any state whose queue holds no empty id (the loop breaks on
    a falsy id). *)
Lemma handleReady_scan_found st now a oa pre b post :
  Forall (λ j, j ≠ EmptyString) (waitingQueue st) →
  heap st !! a = Some oa → partnerOf oa = None → a ∉ waitingQueue st →
  waitingQueue st = pre ++ b :: post →
  Forall (λ j, ¬ validEntry st j) pre → validEntry st b →
  handleReady now a st
  = mkState (clients st)
      (alter (linkTo now b) a (alter (linkTo now a) b (heap st)))
      post
      (mkStats (totalVisitors (stats st)) (activeConversations (stats st) + 1)
               (conversationHistory (stats st)))
      (log st ++ sent a (MsgMatch b Offerer) st
              ++ [ESend b (MsgMatch a Answerer)]
              ++ sent a (MsgStatus msgConnectedPair) st
              ++ [ESend b (MsgStatus msgConnectedPair)]).
Proof.
  intros Hne Hoa Hp Hnq Hq Hpre Hv.
  rewrite Forall_forall in Hne.
  assert (Hab : a ≠ b).
  { intros ->. apply Hnq. rewrite Hq. apply elem_of_app. right. apply list_elem_of_here. }
  unfold handleReady. rewrite Hoa, Hp, decide_False by done.
  cbn [waitingQueue modify setHeap]. rewrite Hq.
  rewrite matchLoop_found.
  - rewrite connectPair_eq by done. cbn [clients heap waitingQueue stats log setQueue].
    f_equal.
    + apply map_eq. intros j. cbn [heap modify setHeap]. rewrite !lookup_alter.
      repeat case_decide; simplify_eq; by destruct (heap st !! _).
    + f_equal. unfold pairLog, sent.
      assert (∀ j, isOpen j (setQueue post (modify a (setWantsChat true) st))
                   = isOpen j st) as Hio.
      { intros j. apply (isOpen_wantsChat j a true st). }
      fold (setHeap (alter (setWantsChat true) a (heap st)) st).
      fold (modify a (setWantsChat true) st).
      fold (setQueue post (modify a (setWantsChat true) st)).
      rewrite !Hio. destruct Hv as [_ ->]. done.
  - apply Forall_forall. intros j Hj. split.
    + apply Hne. rewrite Hq. apply elem_of_app. by left.
    + rewrite Forall_forall in Hpre. intros [? Hjo]. apply (Hpre j Hj).
      split; [done|]. by rewrite <- (isOpen_wantsChat j a true st).
  - apply Hne. rewrite Hq. apply elem_of_app. right. apply list_elem_of_here.
  - destruct Hv as [? Hbo]. split; [done|].
    by rewrite <- (isOpen_wantsChat b a true st) in Hbo.
Qed.

(** A ready that finds no valid entry, in any state whose queue holds no
    empty id. *)
Lemma handleReady_scan_none st now a oa :
  Forall (λ j, j ≠ EmptyString) (waitingQueue st) →
  heap st !! a = Some oa → partnerOf oa = None → a ∉ waitingQueue st →
  Forall (λ j, ¬ validEntry st j) (waitingQueue st) →
  handleReady now a st
  = mkState (clients st) (alter (setWantsChat true) a (heap st)) [a] (stats st)
      (log st ++ sent a (MsgStatus msgWaiting) st).
Proof.
  intros Hne Hoa Hp Hnq Hall.
  rewrite Forall_forall in Hne.
  unfold handleReady. rewrite Hoa, Hp, decide_False by done.
  rewrite matchLoop_none.
  - unfold pushWaiting. rewrite send_eq. cbn [clients heap waitingQueue stats log setQueue modify setHeap].
    f_equal. unfold sent.
    assert (isOpen a (setQueue ([] ++ [a]) (setQueue [] (modify a (setWantsChat true) st)))
            = isOpen a st) as ->; [apply (isOpen_wantsChat a a true st)|done].
  - done.
  - apply Forall_forall. intros j Hj. split.
    + by apply Hne.
    + rewrite Forall_forall in Hall. intros [? Hjo]. apply (Hall j Hj).
      split; [done|]. by rewrite <- (isOpen_wantsChat j a true st).
Qed.

Lemma Inv_queue_ids st : Inv st → Forall (λ j, j ≠ EmptyString) (waitingQueue st).
Proof.
  intros HI. apply Forall_forall. intros j Hj. by apply (Inv_queue_nonempty st).
Qed.

(** The two outcomes of the scan in a state that satisfies the
    invariant. *)
Lemma handleReady_found st now a oa pre b post :
  Inv st → heap st !! a = Some oa → partnerOf oa = None → a ∉ waitingQueue st →
  waitingQueue st = pre ++ b :: post →
  Forall (λ j, ¬ validEntry st j) pre → validEntry st b →
  handleReady now a st
  = mkState (clients st)
      (alter (linkTo now b) a (alter (linkTo now a) b (heap st)))
      post
      (mkStats (totalVisitors (stats st)) (activeConversations (stats st) + 1)
               (conversationHistory (stats st)))
      (log st ++ sent a (MsgMatch b Offerer) st
              ++ [ESend b (MsgMatch a Answerer)]
              ++ sent a (MsgStatus msgConnectedPair) st
              ++ [ESend b (MsgStatus msgConnectedPair)]).
Proof.
  intros HI. apply handleReady_scan_found. by apply Inv_queue_ids.
Qed.

Lemma handleReady_none st now a oa :
  Inv st → heap st !! a = Some oa → partnerOf oa = None → a ∉ waitingQueue st →
  Forall (λ j, ¬ validEntry st j) (waitingQueue st) →
  handleReady now a st
  = mkState (clients st) (alter (setWantsChat true) a (heap st)) [a] (stats st)
      (log st ++ sent a (MsgStatus msgWaiting) st).
Proof.
  intros HI. apply handleReady_scan_none. by apply Inv_queue_ids.
Qed.

(** C3.  A ready from a registered client A that has no partner and is
    not queued scans the queue from the head, in any state whose queue
    holds no empty id (every id is a [nanoid()]; this holds in all
    reachable states).  The entries before the first valid one
    (registered, socket OPEN) are dropped, whether they are unregistered
    ids or clients whose socket is not OPEN; the first valid entry B is
    paired with A: both links and both [pairedAt] are set, the queue keeps
    what was behind B, in its order, the counter goes up by one, A is sent
    the offerer role and B the answerer role.  With no valid entry the
    queue becomes [A] alone and A is sent the waiting status. *)
Theorem ready_fifo_matching st now a oa :
  Forall (λ j, j ≠ EmptyString) (waitingQueue st) →
  clientsGet a st = Some oa → partnerOf oa = None →
  a ∉ waitingQueue st →
  (∀ pre b post,
     waitingQueue st = pre ++ b :: post →
     Forall (λ j, ¬ validEntry st j) pre → validEntry st b →
     handleReady now a st
     = mkState (clients st)
         (alter (linkTo now b) a (alter (linkTo now a) b (heap st)))
         post
         (mkStats (totalVisitors (stats st)) (activeConversations (stats st) + 1)
                  (conversationHistory (stats st)))
         (log st ++ (if isOpen a st then [ESend a (MsgMatch b Offerer)] else [])
                 ++ [ESend b (MsgMatch a Answerer)]
                 ++ (if isOpen a st then [ESend a (MsgStatus msgConnectedPair)] else [])
                 ++ [ESend b (MsgStatus msgConnectedPair)]))
  ∧ (Forall (λ j, ¬ validEntry st j) (waitingQueue st) →
     handleReady now a st
     = mkState (clients st) (alter (setWantsChat true) a (heap st)) [a] (stats st)
         (log st ++ (if isOpen a st then [ESend a (MsgStatus msgWaiting)] else []))).
Proof.
  intros Hne [_ Hoa]%clientsGet_Some Hp Hnq. split.
  - intros pre b post Hq Hpre Hv. by apply handleReady_scan_found with oa pre.
  - intros Hall. by apply handleReady_scan_none with oa.
Qed.

(** C2.  Roles: when A is the first valid entry of the waiting queue and
    a registered, unpaired, unqueued client B with an OPEN socket sends
    ready, B is sent the match naming A with the offerer role and A the
    match naming B with the answerer role, each followed by a status. *)
Theorem role_assignment st now a b ob pre post :
  reachable st →
  waitingQueue st = pre ++ a :: post →
  Forall (λ j, ¬ validEntry st j) pre → validEntry st a →
  clientsGet b st = Some ob → partnerOf ob = None → b ∉ waitingQueue st →
  isOpen b st = true →
  log (handleReady now b st)
  = log st ++ [ESend b (MsgMatch a Offerer); ESend a (MsgMatch b Answerer);
               ESend b (MsgStatus msgConnectedPair);
               ESend a (MsgStatus msgConnectedPair)].
Proof.
  intros HI%reachable_Inv Hq Hpre Hv [_ Hob]%clientsGet_Some Hp Hnq Hopen.
  rewrite (handleReady_found st now b ob pre a post) by done.
  cbn [log]. unfold sent. by rewrite Hopen.
Qed.

(** ** Leaving twice *)

Lemma handleLeave_self_eq now k st o :
  Inv st → heap st !! k = Some o →
  heap (handleLeave now k st) !! k = Some (resetClient o).
Proof.
  intros HI Ho. destruct (partnerId o) as [p|] eqn:Hp.
  - destruct (Inv_partner _ _ _ _ HI Ho Hp)
      as (Hpk & Hpe & Hkc & Hpc & Hof & op & t1 & t2 & Hop & _).
    rewrite (handleLeave_heap_paired now k st o p op); try done.
    + by rewrite lookup_alter_eq, lookup_alter_ne, Ho.
    + by apply clientsGet_Some.
  - rewrite (handleLeave_alone now k st o); [|done|by apply partnerOf_None_unpaired].
    simpl. by rewrite lookup_alter_eq, Ho.
Qed.

(** A leave of an unpaired, unqueued client whose fields are already
    reset changes nothing. *)
Lemma handleLeave_noop now k st o :
  heap st !! k = Some o → partnerOf o = None → resetClient o = o →
  k ∉ waitingQueue st → handleLeave now k st = st.
Proof.
  intros Ho Hp Hr Hq. rewrite (handleLeave_alone now k st o) by done.
  rewrite removeFirst_notin by done.
  rewrite alter_id; [by destruct st|]. intros x Hx. congruence.
Qed.

(** A leave of an unpaired client touches neither statistics nor log. *)
Lemma handleLeave_quiet now k st o :
  heap st !! k = Some o → partnerOf o = None →
  stats (handleLeave now k st) = stats st ∧ log (handleLeave now k st) = log st.
Proof. intros Ho Hp. by rewrite (handleLeave_alone now k st o). Qed.

Lemma handleLeave_log now k st :
  ∃ l, log (handleLeave now k st) = log st ++ l
       ∧ ∀ e, e ∈ l → e = ESend (default k (heap st !! k ≫= partnerOf)) MsgPartnerLeft
                      ∨ e = ESend (default k (heap st !! k ≫= partnerOf))
                              (MsgStatus msgPartnerGone).
Proof.
  unfold handleLeave, removeFromQueue, clientsGet. simpl.
  assert (Hnil : ∃ l : list (@Effect Payload), log st = log st ++ l
            ∧ ∀ e, e ∈ l → e = ESend (default k (heap st !! k ≫= partnerOf)) MsgPartnerLeft
                      ∨ e = ESend (default k (heap st !! k ≫= partnerOf))
                              (MsgStatus msgPartnerGone)).
  { exists []. split; [by rewrite app_nil_r|]. by intros e ?%elem_of_nil. }
  destruct (heap st !! k) as [o|]; [|done]. simpl in *.
  destruct (partnerOf o) as [p|]; [|done]. simpl in *.
  destruct (decide (p ∈ clients st)); [|done].
  destruct (heap st !! p) as [op|]; [|done].
  rewrite !send_log. simpl.
  match goal with
  | |- ∃ l, (log ?X ++ ?A) ++ ?B = _ ∧ _ =>
      assert (log X = log st) as ->
        by (destruct (pairedAt o), (pairedAt op); try done; by destruct (_ && _));
      exists (A ++ B)
  end.
  split; [by rewrite app_assoc|].
  intros x [He|He]%elem_of_app; case_match;
    try (by apply elem_of_nil in He);
    apply list_elem_of_singleton in He; [by left|by right].
Qed.

Lemma Inv_nonneg st : Inv st → (0 ≤ activeConversations (stats st))%Z.
Proof. intros (_ & _ & _ & _ & _ & Hcnt & _). lia. Qed.

(** C5.  Leaving is idempotent.  In a reachable state, for a registered
    client: a second leave right after the first changes nothing at all;
    a leave after the partner has left or has been cleaned up changes
    neither the statistics nor the log; a leave adds no error message to
    the log; and the counter of active conversations plus the number of
    duration records equals the number of pairings formed, with the
    counter non-negative, so that every formed pairing accounts for at most
    one record and one decrement. *)
Theorem idempotent_leave st now1 now2 k o :
  reachable st → clientsGet k st = Some o →
  handleLeave now2 k (handleLeave now1 k st) = handleLeave now1 k st
  ∧ (∀ p, partnerOf o = Some p →
       stats (handleLeave now2 k (handleLeave now1 p st))
         = stats (handleLeave now1 p st)
       ∧ log (handleLeave now2 k (handleLeave now1 p st))
         = log (handleLeave now1 p st)
       ∧ stats (handleLeave now2 k (cleanupClient now1 p st))
         = stats (cleanupClient now1 p st)
       ∧ log (handleLeave now2 k (cleanupClient now1 p st))
         = log (cleanupClient now1 p st))
  ∧ (∀ e, e ∈ log (handleLeave now1 k st) → isError e = true → e ∈ log st)
  ∧ (activeConversations (stats st)
       + Z.of_nat (length (conversationHistory (stats st))))%Z
    = Z.of_nat (formed (log st))
  ∧ (0 ≤ activeConversations (stats st))%Z.
Proof.
  intros HI%reachable_Inv [Hk Ho]%clientsGet_Some.
  split; [|split; [|split; [|split]]].
  - apply handleLeave_noop with (resetClient o).
    + by apply handleLeave_self_eq.
    + done.
    + done.
    + by apply (handleLeave_self now1 k st o).
  - intros p [Hp _]%partnerOf_Some.
    destruct (Inv_partner _ _ _ _ HI Ho Hp)
      as (Hpk & Hpe & _ & Hpc & _ & op & _ & _ & Hop & Hback & _).
    assert (Hofp : partnerOf op = Some k).
    { apply partnerOf_Some. split; [done|].
      destruct HI as (_ & _ & Hobj & _). by destruct (Hobj _ _ Ho). }
    assert (Hkh : heap (handleLeave now1 p st) !! k = Some (resetPartner o)).
    { rewrite (handleLeave_heap_paired now1 p st op k o); try done.
      - by rewrite lookup_alter_ne, lookup_alter_eq, Ho by congruence.
      - by apply clientsGet_Some. }
    split; [|split; [|split]].
    + by apply (handleLeave_quiet now2 k _ (resetPartner o)).
    + by apply (handleLeave_quiet now2 k _ (resetPartner o)).
    + unfold cleanupClient. replace (clientsGet p st) with (Some op)
        by (symmetry; by apply clientsGet_Some).
      by apply (handleLeave_quiet now2 k (clientsDelete p _) (resetPartner o)).
    + unfold cleanupClient. replace (clientsGet p st) with (Some op)
        by (symmetry; by apply clientsGet_Some).
      by apply (handleLeave_quiet now2 k (clientsDelete p _) (resetPartner o)).
  - intros e He Herr. destruct (handleLeave_log now1 k st) as (l & Hl & Hno).
    rewrite Hl in He. apply elem_of_app in He as [He|He]; [done|].
    by destruct (Hno _ He) as [-> | ->].
  - by destruct HI as (_ & _ & _ & _ & _ & _ & Hfm).
  - by apply Inv_nonneg.
Qed.

(** ** The heartbeat *)

Lemma keeps_refl s : keeps s s.
Proof. split; [done|]. split; [done|]. exists []. by rewrite app_nil_r. Qed.

Lemma keeps_trans s1 s2 s3 : keeps s1 s2 → keeps s2 s3 → keeps s1 s3.
Proof.
  intros (Hc1 & Ha1 & l1 & Hl1) (Hc2 & Ha2 & l2 & Hl2).
  split; [by intros i ?%Hc2%Hc1|]. split; [intros i; by rewrite Ha2|].
  exists (l1 ++ l2). by rewrite Hl2, Hl1, app_assoc.
Qed.

Lemma keeps_send k m s : keeps s (send k m s).
Proof.
  split; [by rewrite send_clients|]. split; [by rewrite send_heap|].
  rewrite send_log. by eexists.
Qed.

Lemma keeps_emit e s : keeps s (emit e s).
Proof. split; [done|]. split; [done|]. by exists [e]. Qed.

Lemma keeps_modify k (f : Client → Client) s :
  (∀ o, isAlive (f o) = isAlive o) → keeps s (modify k f s).
Proof.
  intros Hf. split; [done|]. split; [|exists []; simpl; by rewrite app_nil_r].
  intros i. simpl. rewrite lookup_alter. case_decide; simplify_eq; [|done].
  destruct (heap s !! i); simpl; [|done]. by rewrite Hf.
Qed.

Lemma keeps_setQueue q s : keeps s (setQueue q s).
Proof. split; [done|]. split; [done|]. exists []. simpl. by rewrite app_nil_r. Qed.

Lemma keeps_setStats v s : keeps s (setStats v s).
Proof. split; [done|]. split; [done|]. exists []. simpl. by rewrite app_nil_r. Qed.

Lemma keeps_clientsDelete k s : keeps s (clientsDelete k s).
Proof.
  split; [by intros i [_ ?]%list_elem_of_filter|]. split; [done|].
  exists []. simpl. by rewrite app_nil_r.
Qed.

Ltac keeps_chain :=
  repeat first
    [ apply keeps_refl
    | eapply keeps_trans; [|apply keeps_send]
    | eapply keeps_trans; [|apply keeps_emit]
    | eapply keeps_trans; [|apply keeps_setQueue]
    | eapply keeps_trans; [|apply keeps_setStats]
    | eapply keeps_trans; [|apply keeps_clientsDelete]
    | eapply keeps_trans; [|apply keeps_modify; intros; reflexivity] ].

Lemma keeps_handleLeave now k s : keeps s (handleLeave now k s).
Proof.
  unfold handleLeave, removeFromQueue.
  eapply keeps_trans; [|apply keeps_modify; intros; reflexivity].
  eapply keeps_trans; [|apply keeps_modify; intros; reflexivity].
  eapply keeps_trans; [|apply keeps_modify; intros; reflexivity].
  cbn [heap setQueue].
  destruct (heap s !! k) as [o|]; [|keeps_chain].
  destruct (partnerOf o) as [p|]; [|keeps_chain].
  destruct (clientsGet p _) as [op|]; [|keeps_chain].
  destruct (pairedAt o), (pairedAt op); try keeps_chain.
  destruct (_ && _); keeps_chain.
Qed.

Lemma keeps_cleanupClient now k s : keeps s (cleanupClient now k s).
Proof.
  unfold cleanupClient. destruct (clientsGet k s); [|apply keeps_refl].
  eapply keeps_trans; [apply keeps_handleLeave|apply keeps_clientsDelete].
Qed.

Lemma keeps_connectPair now a b s : keeps s (connectPair now a b s).
Proof. unfold connectPair. keeps_chain. Qed.

Lemma keeps_matchLoop now k q : ∀ s, keeps s (matchLoop now k q s).
Proof.
  induction q as [|p q IH]; intros s; simpl.
  - unfold pushWaiting. keeps_chain.
  - case_decide; [unfold pushWaiting; keeps_chain|].
    assert (keeps s (matchLoop now k q (setQueue q s))) as Hrec.
    { eapply keeps_trans; [apply keeps_setQueue|apply IH]. }
    destruct (clientsGet p _) as [op|]; [|done].
    case_decide; [|done].
    eapply keeps_trans; [apply keeps_setQueue|apply keeps_connectPair].
Qed.

Lemma keeps_handleMessage now k raw s : keeps s (handleMessage now k raw s).
Proof.
  destruct raw as [| |[|payload| |]]; cbn [handleMessage].
  - keeps_chain.
  - keeps_chain.
  - unfold handleReady. destruct (heap s !! k) as [o|]; [|keeps_chain].
    destruct (partnerOf o); [keeps_chain|].
    case_decide; [keeps_chain|].
    eapply keeps_trans; [|apply keeps_matchLoop].
    apply keeps_modify. by intros.
  - unfold handleSignal. destruct (heap s !! k) as [o|]; [|keeps_chain].
    destruct (partnerOf o) as [p|]; [|keeps_chain].
    destruct (clientsGet p s); [keeps_chain|apply keeps_handleLeave].
  - apply keeps_handleLeave.
  - keeps_chain.
Qed.

Lemma keeps_terminate k s : keeps s (terminate k s).
Proof.
  unfold terminate. eapply keeps_trans; [|apply keeps_emit].
  apply keeps_modify. intros o. by case_decide.
Qed.

Lemma cleanupClient_others now j s i :
  i ≠ j → i ∈ clients s → i ∈ clients (cleanupClient now j s).
Proof.
  intros Hne Hi. unfold cleanupClient. destruct (clientsGet j s); [|done].
  unfold clientsDelete. cbn [clients setClients].
  rewrite handleLeave_clients. by apply list_elem_of_filter.
Qed.

Lemma cleanupClient_gone now j s : Inv s → j ∉ clients (cleanupClient now j s).
Proof.
  intros (_ & Hreg & _). unfold cleanupClient, clientsGet.
  destruct (decide (j ∈ clients s)) as [Hj|]; [|done].
  destruct (Hreg _ Hj) as [o ->]. unfold clientsDelete. cbn [clients setClients].
  intros [? _]%list_elem_of_filter. done.
Qed.

(** What one iteration of the heartbeat loop, for [j], does to the
    registry, the flags and the log. *)
Lemma heartbeatStep_effect now pingThrows j s :
  (∀ i, i ∈ clients (heartbeatStep now pingThrows j s) → i ∈ clients s)
  ∧ (∀ i, i ≠ j → i ∈ clients s → i ∈ clients (heartbeatStep now pingThrows j s))
  ∧ (∀ i, i ≠ j →
       isAlive <$> heap (heartbeatStep now pingThrows j s) !! i
       = isAlive <$> heap s !! i)
  ∧ (∀ o, heap s !! j = Some o →
       ∃ o', heap (heartbeatStep now pingThrows j s) !! j = Some o'
             ∧ (isAlive o' = true → isAlive o = true))
  ∧ (∃ l, log (heartbeatStep now pingThrows j s) = log s ++ l).
Proof.
  assert (Hk : ∀ s', keeps s s' →
            (∀ i, i ≠ j → i ∈ clients s → i ∈ clients s') →
            (∀ i, i ∈ clients s' → i ∈ clients s)
            ∧ (∀ i, i ≠ j → i ∈ clients s → i ∈ clients s')
            ∧ (∀ i, i ≠ j → isAlive <$> heap s' !! i = isAlive <$> heap s !! i)
            ∧ (∀ o, heap s !! j = Some o →
                 ∃ o', heap s' !! j = Some o' ∧ (isAlive o' = true → isAlive o = true))
            ∧ (∃ l, log s' = log s ++ l)).
  { intros s' (Hc & Ha & Hl) Hoth. split; [done|]. split; [done|].
    split; [|split; [|done]].
    - intros i _. apply Ha.
    - intros o Ho. specialize (Ha j). rewrite Ho in Ha.
      destruct (heap s' !! j) as [o'|]; [|done]. exists o'. split; [done|].
      simpl in Ha. congruence. }
  unfold heartbeatStep. destruct (clientsGet j s) as [o|];
    [|apply Hk; [apply keeps_refl|done]].
  destruct (negb (isAlive o)).
  - apply Hk.
    + eapply keeps_trans; [apply keeps_terminate|apply keeps_cleanupClient].
    + intros i Hne Hi. by apply cleanupClient_others.
  - set (s1 := emit (EPing j) (modify j (setIsAlive false) s)).
    assert (Hs1 : ∀ s', keeps s1 s' →
              (∀ i, i ≠ j → i ∈ clients s → i ∈ clients s') →
              (∀ i, i ∈ clients s' → i ∈ clients s)
              ∧ (∀ i, i ≠ j → i ∈ clients s → i ∈ clients s')
              ∧ (∀ i, i ≠ j → isAlive <$> heap s' !! i = isAlive <$> heap s !! i)
              ∧ (∀ o, heap s !! j = Some o →
                   ∃ o', heap s' !! j = Some o' ∧ (isAlive o' = true → isAlive o = true))
              ∧ (∃ l, log s' = log s ++ l)).
    { intros s' (Hc & Ha & l & Hl) Hoth. split; [done|]. split; [done|].
      split; [|split].
      - intros i Hne. rewrite Ha. unfold s1. simpl. by rewrite lookup_alter_ne.
      - intros oj Hoj. specialize (Ha j). unfold s1 in Ha. simpl in Ha.
        rewrite lookup_alter_eq, Hoj in Ha. simpl in Ha.
        destruct (heap s' !! j) as [o'|]; [|done]. exists o'. split; [done|].
        simpl in Ha. congruence.
      - exists (EPing j :: l). rewrite Hl. unfold s1. cbn [log emit modify setHeap].
        by rewrite <- app_assoc. }
    destruct (pingThrows j).
    + apply Hs1; [apply keeps_cleanupClient|].
      intros i Hne Hi. by apply cleanupClient_others.
    + apply Hs1; [apply keeps_refl|done].
Qed.

Lemma Inv_heartbeatFold now pingThrows l : ∀ s,
  Inv s → Inv (foldl (λ s k, heartbeatStep now pingThrows k s) s l).
Proof.
  induction l as [|k l IH]; intros s HI; simpl; [done|].
  by apply IH, Inv_heartbeatStep.
Qed.

Lemma heartbeatFold_other now pingThrows i l : ∀ s,
  i ∉ l →
  (i ∈ clients (foldl (λ s k, heartbeatStep now pingThrows k s) s l) ↔ i ∈ clients s)
  ∧ isAlive <$> heap (foldl (λ s k, heartbeatStep now pingThrows k s) s l) !! i
    = isAlive <$> heap s !! i.
Proof.
  induction l as [|j l IH]; intros s Hi; simpl; [done|].
  apply not_elem_of_cons in Hi as [Hne Hi].
  destruct (IH (heartbeatStep now pingThrows j s) Hi) as [Hc Ha].
  destruct (heartbeatStep_effect now pingThrows j s) as (H1 & H2 & H3 & _).
  split.
  - rewrite Hc. split; [apply H1|by apply H2].
  - rewrite Ha. by apply H3.
Qed.

Lemma heartbeatFold_any now pingThrows l : ∀ s,
  (∀ i, i ∈ clients (foldl (λ s k, heartbeatStep now pingThrows k s) s l) → i ∈ clients s)
  ∧ (∀ i o, heap s !! i = Some o →
       ∃ o', heap (foldl (λ s k, heartbeatStep now pingThrows k s) s l) !! i = Some o'
             ∧ (isAlive o' = true → isAlive o = true))
  ∧ (∃ lg, log (foldl (λ s k, heartbeatStep now pingThrows k s) s l) = log s ++ lg).
Proof.
  induction l as [|j l IH]; intros s; simpl.
  - split; [done|]. split; [by eauto|]. exists []. by rewrite app_nil_r.
  - destruct (IH (heartbeatStep now pingThrows j s)) as (Hc & Ha & lg & Hl).
    destruct (heartbeatStep_effect now pingThrows j s) as (H1 & _ & H3 & H4 & l1 & Hl1).
    split; [by intros i ?%Hc%H1|]. split.
    + intros i o Ho.
      assert (∃ o1, heap (heartbeatStep now pingThrows j s) !! i = Some o1
                    ∧ (isAlive o1 = true → isAlive o = true)) as (o1 & Ho1 & Hle).
      { destruct (decide (i = j)) as [->|Hne]; [by apply H4|].
        specialize (H3 i Hne). rewrite Ho in H3.
        destruct (heap (heartbeatStep now pingThrows j s) !! i) as [o1|]; [|done].
        exists o1. split; [done|]. simpl in H3. congruence. }
      destruct (Ha _ _ Ho1) as (o' & Ho' & Hle'). exists o'. split; [done|]. tauto.
    + exists (l1 ++ lg). by rewrite Hl, Hl1, app_assoc.
Qed.

Lemma heartbeatStep_self now pingThrows k s o :
  Inv s → clientsGet k s = Some o →
  ∃ l, log (heartbeatStep now pingThrows k s) = log s ++ l
       ∧ (isAlive o = false →
            (k ∉ clients (heartbeatStep now pingThrows k s)) ∧ ETerminate k ∈ l)
       ∧ (isAlive o = true →
            EPing k ∈ l
            ∧ ∃ o', heap (heartbeatStep now pingThrows k s) !! k = Some o'
                    ∧ isAlive o' = false).
Proof.
  intros HI Hg. unfold heartbeatStep. rewrite Hg.
  apply clientsGet_Some in Hg as [Hk Ho].
  destruct (isAlive o) eqn:Hal; simpl.
  - set (s1 := emit (EPing k) (modify k (setIsAlive false) s)).
    assert (Hk1 : heap s1 !! k = Some (setIsAlive false o)).
    { unfold s1. simpl. by rewrite lookup_alter_eq, Ho. }
    destruct (pingThrows k).
    + destruct (keeps_cleanupClient now k s1) as (_ & Ha & l & Hl).
      exists (EPing k :: l). split; [|split; [done|]].
      { rewrite Hl. unfold s1. cbn [log emit modify setHeap]. by rewrite <- app_assoc. }
      intros _. split; [apply list_elem_of_here|].
      specialize (Ha k). rewrite Hk1 in Ha.
      destruct (heap (cleanupClient now k s1) !! k) as [o'|]; [|done].
      exists o'. split; [done|]. simpl in Ha. congruence.
    + exists [EPing k]. split; [done|]. split; [done|].
      intros _. split; [apply list_elem_of_here|]. by eexists.
  - destruct (keeps_cleanupClient now k (terminate k s)) as (_ & _ & l & Hl).
    exists (ETerminate k :: l). split; [|split; [|done]].
    { rewrite Hl. unfold terminate. cbn [log emit modify setHeap]. by rewrite <- app_assoc. }
    intros _. split; [|apply list_elem_of_here].
    by apply cleanupClient_gone, Inv_terminate.
Qed.

(** One tick, seen from one registered client. *)
Lemma heartbeat_each now pingThrows st k o :
  Inv st → clientsGet k st = Some o →
  ∃ lg, log (heartbeat now pingThrows st) = log st ++ lg
        ∧ (isAlive o = false →
             (k ∉ clients (heartbeat now pingThrows st)) ∧ ETerminate k ∈ lg)
        ∧ (isAlive o = true →
             EPing k ∈ lg
             ∧ ∃ o', heap (heartbeat now pingThrows st) !! k = Some o'
                     ∧ isAlive o' = false).
Proof.
  intros HI Hg. pose proof Hg as [Hk Ho]%clientsGet_Some.
  unfold heartbeat.
  destruct (list_elem_of_split _ _ Hk) as (l1 & l2 & Hsplit).
  assert (Hnd : NoDup (l1 ++ k :: l2)).
  { rewrite <- Hsplit. by destruct HI. }
  apply NoDup_app in Hnd as (_ & Hk1 & [Hk2 _]%NoDup_cons).
  assert (Hk1' : k ∉ l1).
  { intros Hin. apply (Hk1 _ Hin), list_elem_of_here. }
  rewrite Hsplit, foldl_app. simpl.
  set (s1 := foldl (λ s j, heartbeatStep now pingThrows j s) st l1).
  set (s2 := heartbeatStep now pingThrows k s1).
  destruct (heartbeatFold_other now pingThrows k l1 st Hk1') as [Hc1 Ha1].
  destruct (heartbeatFold_any now pingThrows l1 st) as (_ & _ & lg1 & Hl1).
  fold s1 in Hc1, Ha1, Hl1.
  assert (∃ o1, clientsGet k s1 = Some o1 ∧ isAlive o1 = isAlive o) as (o1 & Hg1 & Hal1).
  { rewrite Ho in Ha1. destruct (heap s1 !! k) as [o1|] eqn:Ho1; [|done].
    exists o1. split; [|simpl in Ha1; congruence].
    apply clientsGet_Some. split; [by apply Hc1|done]. }
  assert (HI1 : Inv s1) by by apply Inv_heartbeatFold.
  destruct (heartbeatStep_self now pingThrows k s1 o1 HI1 Hg1) as (l & Hl & Hdead & Halive).
  fold s2 in Hl, Hdead, Halive.
  destruct (heartbeatFold_other now pingThrows k l2 s2 Hk2) as [Hc2 Ha2].
  destruct (heartbeatFold_any now pingThrows l2 s2) as (_ & _ & lg2 & Hl2).
  exists (lg1 ++ l ++ lg2). split; [|split].
  - by rewrite Hl2, Hl, Hl1, <- !app_assoc.
  - intros Hd. rewrite Hc2. rewrite <- Hal1 in Hd. destruct (Hdead Hd) as [? Ht].
    split; [done|]. rewrite !elem_of_app. right. by left.
  - intros Hd. rewrite <- Hal1 in Hd. destruct (Halive Hd) as (Hp & o' & Ho' & Hf).
    split; [rewrite !elem_of_app; right; by left|].
    rewrite Ho' in Ha2.
    destruct (heap (foldl _ s2 l2) !! k) as [o2|]; [|done].
    exists o2. split; [done|]. simpl in Ha2. congruence.
Qed.

(** A leave of [j] touches only [j] and the partner of [j]. *)
Lemma handleLeave_frame now j s i :
  i ≠ j → (∀ oj, heap s !! j = Some oj → partnerOf oj ≠ Some i) →
  heap (handleLeave now j s) !! i = heap s !! i.
Proof.
  intros Hne Hp. unfold handleLeave, removeFromQueue, modify.
  cbn [heap setHeap setQueue]. rewrite !lookup_alter_ne by done.
  destruct (heap s !! j) as [oj|] eqn:Hj; [|done].
  destruct (partnerOf oj) as [p|] eqn:Hpj; [|done].
  assert (p ≠ i) by (intros ->; by apply (Hp oj)).
  destruct (clientsGet p _) as [op|]; [|done].
  rewrite !send_heap. cbn [heap setHeap]. rewrite !lookup_alter_ne by done.
  destruct (pairedAt oj), (pairedAt op); try done.
  by destruct (_ && _).
Qed.

Lemma cleanupClient_frame now j s i :
  i ≠ j → (∀ oj, heap s !! j = Some oj → partnerOf oj ≠ Some i) →
  heap (cleanupClient now j s) !! i = heap s !! i.
Proof.
  intros Hne Hp. unfold cleanupClient. destruct (clientsGet j s); [|done].
  unfold clientsDelete. cbn [heap setClients]. by apply handleLeave_frame.
Qed.

Lemma heartbeatStep_frame now pingThrows j s i :
  i ≠ j → (∀ oj, heap s !! j = Some oj → partnerOf oj ≠ Some i) →
  heap (heartbeatStep now pingThrows j s) !! i = heap s !! i.
Proof.
  intros Hne Hp. unfold heartbeatStep. destruct (clientsGet j s) as [o|]; [|done].
  assert (Hmod : ∀ (f : Client → Client) e,
            (∀ x, partnerOf (f x) = partnerOf x) →
            heap (cleanupClient now j (emit e (modify j f s))) !! i = heap s !! i).
  { intros f e Hf. rewrite cleanupClient_frame; [|done|].
    - simpl. by rewrite lookup_alter_ne.
    - intros oj. simpl. rewrite lookup_alter_eq.
      destruct (heap s !! j) as [x|] eqn:Hx; [|done].
      intros [= <-]. rewrite Hf. by apply Hp. }
  destruct (negb (isAlive o)).
  - apply Hmod. intros x. by case_decide.
  - destruct (pingThrows j); [by apply Hmod|].
    simpl. by rewrite lookup_alter_ne.
Qed.

Lemma isOpen_lookup i s s' : heap s' !! i = heap s !! i → isOpen i s' = isOpen i s.
Proof. unfold isOpen. by intros ->. Qed.

(** Until the loop reaches a dead client [k] paired with [p], the pair
    stays as it is: the iterations for other clients do not touch it, and
    the iteration for a live [p] whose ping succeeds only clears its
    flag. *)
Lemma heartbeatFold_pair now pingThrows k p l :
  pingThrows p = false → ∀ s,
  NoDup l → k ∉ l → Inv s →
  (∃ ok, clientsGet k s = Some ok ∧ partnerOf ok = Some p ∧ isAlive ok = false) →
  isOpen p s = true →
  (p ∈ l → ∃ op, heap s !! p = Some op ∧ isAlive op = true) →
  (∃ ok, clientsGet k (foldl (λ s j, heartbeatStep now pingThrows j s) s l) = Some ok
         ∧ partnerOf ok = Some p ∧ isAlive ok = false)
  ∧ isOpen p (foldl (λ s j, heartbeatStep now pingThrows j s) s l) = true.
Proof.
  intros Hpt. induction l as [|j l IH]; intros s Hnd Hk HI Hpair Hopen Hpl; simpl; [done|].
  apply NoDup_cons in Hnd as [Hjl Hnd].
  apply not_elem_of_cons in Hk as [Hkj Hk].
  destruct Hpair as (ok & Hgk & Hofk & Hdead).
  pose proof Hgk as [Hkc Hok]%clientsGet_Some.
  pose proof Hofk as [Hpk _]%partnerOf_Some.
  destruct (Inv_partner _ _ _ _ HI Hok Hpk)
    as (Hne & _ & _ & Hpc & _ & op & _ & _ & Hop & Hback & _).
  destruct (heartbeatStep_effect now pingThrows j s) as (_ & Hoth & _).
  apply IH; try done.
  - by apply Inv_heartbeatStep.
  - destruct (decide (j = p)) as [->|Hjp].
    + destruct Hpl as (op' & Hop' & Hal); [apply list_elem_of_here|].
      assert (op' = op) as -> by congruence.
      unfold heartbeatStep.
      replace (clientsGet p s) with (Some op) by (symmetry; by apply clientsGet_Some).
      rewrite Hal, Hpt. simpl. exists ok. split; [|done].
      apply clientsGet_Some. split; [done|]. simpl. by rewrite lookup_alter_ne.
    + exists ok. split; [|done]. apply clientsGet_Some. split; [by apply Hoth|].
      rewrite heartbeatStep_frame; [done|done|].
      intros oj Hoj [Hpj _]%partnerOf_Some.
      destruct (Inv_partner _ _ _ _ HI Hoj Hpj) as (_ & _ & _ & _ & _ & ok' & _ & _ & Hok' & Hb' & _).
      congruence.
  - destruct (decide (j = p)) as [->|Hjp].
    + destruct Hpl as (op' & Hop' & Hal); [apply list_elem_of_here|].
      assert (op' = op) as -> by congruence.
      unfold heartbeatStep.
      replace (clientsGet p s) with (Some op) by (symmetry; by apply clientsGet_Some).
      rewrite Hal, Hpt. simpl.
      apply isOpen_true in Hopen as (op' & Hop'' & Hrs).
      apply isOpen_true. simpl. rewrite lookup_alter_eq, Hop''. by eexists.
    + rewrite <- Hopen. apply isOpen_lookup.
      rewrite heartbeatStep_frame; [done|congruence|].
      intros oj Hoj [Hpj _]%partnerOf_Some.
      destruct (Inv_partner _ _ _ _ HI Hoj Hpj) as (_ & _ & _ & _ & _ & op' & _ & _ & Hop' & Hb' & _).
      congruence.
  - intros Hpin. destruct (decide (j = p)) as [->|Hjp]; [done|].
    destruct Hpl as (op' & Hop' & Hal); [by apply list_elem_of_further|].
    exists op'. split; [|done].
    rewrite heartbeatStep_frame; [done|congruence|].
    intros oj Hoj [Hpj _]%partnerOf_Some.
    destruct (Inv_partner _ _ _ _ HI Hoj Hpj) as (_ & _ & _ & _ & _ & op2 & _ & _ & Hop2 & Hb' & _).
    congruence.
Qed.

(** The teardown of a dead client [k] paired with a registered [p]. *)
Lemma heartbeatStep_dead_log now pingThrows k p s ok :
  Inv s → clientsGet k s = Some ok → partnerOf ok = Some p → isAlive ok = false →
  log (heartbeatStep now pingThrows k s)
  = log s ++ ETerminate k
        :: (if isOpen p s
            then [ESend p MsgPartnerLeft; ESend p (MsgStatus msgPartnerGone)]
            else []).
Proof.
  intros HI Hgk Hofk Hdead. unfold heartbeatStep. rewrite Hgk, Hdead. simpl negb. cbv iota.
  pose proof (Inv_terminate k s HI) as HI1.
  pose proof Hgk as [Hkc Hok]%clientsGet_Some.
  set (f := λ c : Client, if decide (readyState c = CLOSED) then c else setReadyState CLOSING c).
  assert (Hf : ∀ x, partnerId (f x) = partnerId x).
  { intros x. unfold f. by case_decide. }
  assert (Hok1 : heap (terminate k s) !! k = Some (f ok)).
  { unfold terminate. simpl. by rewrite lookup_alter_eq, Hok. }
  apply partnerOf_Some in Hofk as [Hpk Hpe].
  assert (Hpk1 : partnerId (f ok) = Some p) by by rewrite Hf.
  destruct (Inv_partner _ _ _ _ HI1 Hok1 Hpk1)
    as (Hne & _ & _ & Hpc & Hof1 & op & t1 & t2 & Hop & Hback & H1 & Hz1 & H2 & Hz2).
  unfold cleanupClient.
  replace (clientsGet k (terminate k s)) with (Some (f ok))
    by (symmetry; by apply clientsGet_Some).
  unfold clientsDelete. cbn [log setClients].
  rewrite (handleLeave_paired now k (terminate k s) (f ok) p op t1 t2); try done.
  - cbn [log]. unfold terminate at 1. cbn [log emit modify setHeap].
    rewrite <- app_assoc. f_equal. simpl. f_equal.
    assert (isOpen p (terminate k s) = isOpen p s) as ->; [|done].
    apply isOpen_lookup. unfold terminate. simpl. by rewrite lookup_alter_ne.
  - by apply clientsGet_Some.
Qed.

Lemma heartbeat_partner now pingThrows st k o p op :
  Inv st → clientsGet k st = Some o → isAlive o = false → partnerOf o = Some p →
  clientsGet p st = Some op → isAlive op = true → pingThrows p = false →
  isOpen p st = true →
  ∃ lg, log (heartbeat now pingThrows st) = log st ++ lg ∧ ESend p MsgPartnerLeft ∈ lg.
Proof.
  intros HI Hg Hdead Hof Hgp Halive Hpt Hopen.
  pose proof Hg as [Hk Ho]%clientsGet_Some.
  unfold heartbeat.
  destruct (list_elem_of_split _ _ Hk) as (l1 & l2 & Hsplit).
  assert (Hnd : NoDup (l1 ++ k :: l2)).
  { rewrite <- Hsplit. by destruct HI. }
  apply NoDup_app in Hnd as (Hnd1 & Hk1 & _).
  assert (Hk1' : k ∉ l1).
  { intros Hin. apply (Hk1 _ Hin), list_elem_of_here. }
  rewrite Hsplit, foldl_app. simpl.
  set (s1 := foldl (λ s j, heartbeatStep now pingThrows j s) st l1).
  destruct (heartbeatFold_pair now pingThrows k p l1 Hpt st) as [(ok & Hgk & Hofk & Hdk) Hop1];
    try done.
  { by exists o. }
  { intros _. exists op. by apply clientsGet_Some in Hgp as [_ ?]. }
  fold s1 in Hgk, Hop1.
  assert (HI1 : Inv s1) by by apply Inv_heartbeatFold.
  pose proof (heartbeatStep_dead_log now pingThrows k p s1 ok HI1 Hgk Hofk Hdk) as Hl.
  rewrite Hop1 in Hl.
  destruct (heartbeatFold_any now pingThrows l1 st) as (_ & _ & lg1 & Hl1). fold s1 in Hl1.
  destruct (heartbeatFold_any now pingThrows l2 (heartbeatStep now pingThrows k s1))
    as (_ & _ & lg2 & Hl2).
  exists (lg1 ++ [ETerminate k; ESend p MsgPartnerLeft; ESend p (MsgStatus msgPartnerGone)]
          ++ lg2).
  split.
  - by rewrite Hl2, Hl, Hl1, <- !app_assoc.
  - rewrite !elem_of_app. right. left.
    apply list_elem_of_further, list_elem_of_here.
Qed.

Lemma unacknowledged_keeps k s s' :
  keeps s s' → unacknowledged k s → unacknowledged k s'.
Proof.
  intros (Hc & Ha & _) [[o Ho] Hun]. specialize (Ha k). rewrite Ho in Ha.
  destruct (heap s' !! k) as [o'|] eqn:Ho'; [|done].
  split; [by exists o'|]. intros Hk. destruct (Hun (Hc _ Hk)) as (o2 & Ho2 & Hf).
  exists o'. split; [done|]. simpl in Ha. congruence.
Qed.

Lemma unacknowledged_handle k ev s :
  enabled s ev → ev ≠ EvPong k → unacknowledged k s → unacknowledged k (handle ev s).
Proof.
  intros He Hev Hun.
  destruct ev as [now i|i|now i raw|now i|now i|i rs|now pt]; simpl in *.
  - destruct He as (_ & _ & Hfresh). destruct Hun as [[o Ho] Hun].
    assert (i ≠ k) as Hne by (intros ->; congruence).
    unfold onConnection. cbv zeta.
    eapply unacknowledged_keeps; [apply keeps_send|].
    eapply unacknowledged_keeps; [apply keeps_setStats|].
    unfold unacknowledged, clientsSet. simpl.
    rewrite lookup_insert_ne by done. split; [by exists o|].
    case_decide; [done|]. simpl.
    intros [Hk| ->%list_elem_of_singleton]%elem_of_app; [by apply Hun|done].
  - assert (i ≠ k) as Hne by (intros ->; done).
    destruct Hun as [[o Ho] Hun]. unfold unacknowledged. simpl.
    rewrite lookup_alter_ne by done. split; [by exists o|done].
  - eapply unacknowledged_keeps; [apply keeps_handleMessage|done].
  - eapply unacknowledged_keeps; [apply keeps_cleanupClient|done].
  - eapply unacknowledged_keeps; [apply keeps_cleanupClient|done].
  - apply (unacknowledged_keeps k s); [|done]. by apply keeps_modify.
  - destruct Hun as [[o Ho] Hun]. unfold heartbeat.
    destruct (heartbeatFold_any now pt (clients s) s) as (Hc & Ha & _).
    destruct (Ha _ _ Ho) as (o' & Ho' & Hle).
    split; [by exists o'|]. intros Hk.
    destruct (Hun (Hc _ Hk)) as (o2 & Ho2 & Hf).
    exists o'. split; [done|]. assert (o2 = o) as -> by congruence.
    destruct (isAlive o'); [|done]. rewrite Hle in Hf; done.
Qed.

Lemma unacknowledged_run k evs : ∀ s,
  enabledRun s evs → Forall (λ ev, ev ≠ EvPong k) evs →
  unacknowledged k s → unacknowledged k (run evs s).
Proof.
  induction evs as [|ev evs IH]; intros s He Hev Hun; simpl; [done|].
  destruct He as [He Hes]. apply Forall_cons in Hev as [Hev Hevs].
  apply IH; try done. by apply unacknowledged_handle.
Qed.

Lemma heartbeat_unacknowledged now pingThrows st k o :
  Inv st → clientsGet k st = Some o →
  unacknowledged k (heartbeat now pingThrows st).
Proof.
  intros HI Hg. pose proof Hg as [Hk Ho]%clientsGet_Some.
  destruct (heartbeat_each now pingThrows st k o HI Hg) as (lg & _ & Hdead & Halive).
  destruct (heartbeatFold_any now pingThrows (clients st) st) as (_ & Ha & _).
  destruct (Ha _ _ Ho) as (o' & Ho' & _).
  split; [by exists o'|]. intros Hin.
  destruct (isAlive o) eqn:Hal.
  - destruct Halive as (_ & o2 & Ho2 & Hf); [done|]. by exists o2.
  - by destruct Hdead as [Hout _].
Qed.

Lemma heartbeat_reaps_unacknowledged now pingThrows s k :
  Inv s → unacknowledged k s → k ∉ clients (heartbeat now pingThrows s).
Proof.
  intros HI [_ Hun] Hin.
  destruct (heartbeatFold_any now pingThrows (clients s) s) as (Hc & _).
  pose proof (Hc _ Hin) as Hk. destruct (Hun Hk) as (o & Ho & Hf).
  destruct (heartbeat_each now pingThrows s k o HI) as (lg & _ & Hdead & _).
  { by apply clientsGet_Some. }
  by destruct Hdead.
Qed.

(** C6.  One heartbeat tick in a reachable state, seen from a registered
    client k.  If its [isAlive] is false, the tick terminates its socket,
    runs for it what the close event runs (the loop body is [cleanupClient]
    after [terminate]) and k is out of the registry afterwards; when the
    loop reaches k, the partner k has at that moment is sent
    [partner_left] and a status if its socket is OPEN; in particular a
    partner that is live, is probed successfully and has an OPEN socket is
    sent [partner_left] in this tick.  If its [isAlive] is true, k is
    pinged and its flag is false afterwards.  And k is not in the registry
    after a second tick, whatever enabled events other than a pong for k
    come in between. *)
Theorem heartbeat_reaping st now pingThrows k o :
  reachable st → clientsGet k st = Some o →
  (∃ lg, log (heartbeat now pingThrows st) = log st ++ lg
     ∧ (isAlive o = false →
          (k ∉ clients (heartbeat now pingThrows st)) ∧ ETerminate k ∈ lg
          ∧ heartbeatStep now pingThrows k st
            = handle (EvClose now k) (terminate k st)
          ∧ (∀ l1 l2 ok p,
               clients st = l1 ++ k :: l2 →
               clientsGet k (foldl (λ s j, heartbeatStep now pingThrows j s) st l1)
                 = Some ok →
               partnerOf ok = Some p →
               log (heartbeatStep now pingThrows k
                      (foldl (λ s j, heartbeatStep now pingThrows j s) st l1))
               = log (foldl (λ s j, heartbeatStep now pingThrows j s) st l1)
                 ++ ETerminate k
                    :: (if isOpen p (foldl (λ s j, heartbeatStep now pingThrows j s) st l1)
                        then [ESend p MsgPartnerLeft;
                              ESend p (MsgStatus msgPartnerGone)]
                        else []))
          ∧ ∀ p op, partnerOf o = Some p → clientsGet p st = Some op →
              isAlive op = true → pingThrows p = false → isOpen p st = true →
              ESend p MsgPartnerLeft ∈ lg)
     ∧ (isAlive o = true →
          EPing k ∈ lg
          ∧ ∃ o', heap (heartbeat now pingThrows st) !! k = Some o'
                  ∧ isAlive o' = false))
  ∧ (∀ evs now' pingThrows',
       enabledRun (heartbeat now pingThrows st) evs →
       Forall (λ ev, ev ≠ EvPong k) evs →
       k ∉ clients (heartbeat now' pingThrows'
                      (run evs (heartbeat now pingThrows st)))).
Proof.
  intros HI%reachable_Inv Hg. split.
  - destruct (heartbeat_each now pingThrows st k o HI Hg) as (lg & Hl & Hdead & Halive).
    exists lg. split; [done|]. split; [|done].
    intros Hd. destruct (Hdead Hd) as [Hout Hterm].
    split; [done|]. split; [done|]. split; [|split].
    + unfold heartbeatStep. rewrite Hg, Hd. done.
    + intros l1 l2 ok p Hsplit Hgk Hofk.
      apply (heartbeatStep_dead_log now pingThrows k p _ ok);
        [by apply Inv_heartbeatFold|done|done|].
      assert (Hnd : NoDup (l1 ++ k :: l2)).
      { rewrite <- Hsplit. by destruct HI. }
      apply NoDup_app in Hnd as (_ & Hk1 & _).
      assert (Hk1' : k ∉ l1).
      { intros Hin. apply (Hk1 _ Hin), list_elem_of_here. }
      destruct (heartbeatFold_other now pingThrows k l1 st Hk1') as [_ Ha].
      apply clientsGet_Some in Hg as [_ Ho]. apply clientsGet_Some in Hgk as [_ Hok].
      rewrite Ho, Hok in Ha. simpl in Ha. congruence.
    + intros p op Hof Hgp Hal Hpt Hopen.
      destruct (heartbeat_partner now pingThrows st k o p op) as (lg' & Hl' & Hin); try done.
      rewrite Hl in Hl'. by apply app_inv_head in Hl' as ->.
  - intros evs now' pt' He Hev.
    apply heartbeat_reaps_unacknowledged.
    + apply Inv_run; [by apply Inv_heartbeat|done].
    + apply unacknowledged_run; try done. by apply heartbeat_unacknowledged with o.
Qed.

(** ** Further properties of the handlers *)

(** X1.  A request the server refuses leaves it as it was.  A frame
    that is not JSON and a message of an unknown type only add an error
    for the sender to the log (when its socket is OPEN); a falsy JSON
    value is dropped without a trace; a ready from a client that has a
    partner only adds the already-chatting status for the sender, so the
    pairing and the queue stay. *)
Theorem refused_requests_change_nothing now k st :
  handleMessage now k ParseThrows st
  = mkState (clients st) (heap st) (waitingQueue st) (stats st)
      (log st ++ (if isOpen k st then [ESend k (MsgError msgInvalidJson)] else []))
  ∧ handleMessage now k (ParseValue InOther) st
    = mkState (clients st) (heap st) (waitingQueue st) (stats st)
        (log st ++ (if isOpen k st then [ESend k (MsgError msgUnknownType)] else []))
  ∧ handleMessage now k ParseFalsy st = st
  ∧ (∀ o p, heap st !! k = Some o → partnerOf o = Some p →
       handleMessage now k (ParseValue InReady) st
       = mkState (clients st) (heap st) (waitingQueue st) (stats st)
           (log st ++ (if isOpen k st
                       then [ESend k (MsgStatus msgAlreadyChatting)] else []))).
Proof.
  split; [apply send_eq|]. split; [apply send_eq|]. split; [done|].
  intros o p Ho Hp. cbn [handleMessage]. unfold handleReady. rewrite Ho, Hp.
  apply send_eq.
Qed.

Lemma clientsGet_deleted k st : clientsGet k (clientsDelete k st) = None.
Proof.
  unfold clientsGet, clientsDelete. cbn [clients setClients].
  rewrite decide_False; [done|]. intros [? _]%list_elem_of_filter. done.
Qed.

(** X2.  [cleanupClient] can run twice for the same socket (the error
    callback and then the close callback): the second run changes
    nothing, in any state; and for an id that is not registered it is
    the identity. *)
Theorem cleanupClient_idempotent now1 now2 k st :
  cleanupClient now2 k (cleanupClient now1 k st) = cleanupClient now1 k st
  ∧ (k ∉ clients st → cleanupClient now1 k st = st).
Proof.
  split.
  - destruct (clientsGet k st) as [o|] eqn:Hg.
    + assert (cleanupClient now1 k st = clientsDelete k (handleLeave now1 k st)) as ->
        by (unfold cleanupClient; by rewrite Hg).
      unfold cleanupClient. by rewrite clientsGet_deleted.
    + assert (∀ n, cleanupClient n k st = st) as E
        by (intros n; unfold cleanupClient; by rewrite Hg).
      by rewrite !E.
  - intros Hk. unfold cleanupClient, clientsGet. by rewrite decide_False.
Qed.

(** X3.  After the cleanup of a registered client in a reachable state
    its id is neither registered nor queued, no client object names it as
    partner, its former partner is still registered and has no partner,
    and the objects of all other clients are as before. *)
Theorem cleanup_leaves_no_reference st now k o :
  reachable st → clientsGet k st = Some o →
  clients (cleanupClient now k st) = filter (λ j, j ≠ k) (clients st)
  ∧ (k ∉ waitingQueue (cleanupClient now k st))
  ∧ (∀ j oj, heap (cleanupClient now k st) !! j = Some oj → partnerId oj ≠ Some k)
  ∧ (∀ p, partnerOf o = Some p →
       ∃ op, clientsGet p (cleanupClient now k st) = Some op ∧ partnerId op = None)
  ∧ (∀ j, j ≠ k → partnerOf o ≠ Some j →
       heap (cleanupClient now k st) !! j = heap st !! j).
Proof.
  intros HI%reachable_Inv Hg.
  pose proof (Inv_cleanupClient now k st HI) as HI'.
  pose proof (cleanupClient_gone now k st HI) as Hgone.
  pose proof Hg as [Hk Ho]%clientsGet_Some.
  split; [|split; [|split; [|split]]].
  - unfold cleanupClient. rewrite Hg. unfold clientsDelete. cbn [clients setClients].
    by rewrite handleLeave_clients.
  - intros Hq. destruct HI' as (_ & _ & _ & _ & Hqi & _).
    by destruct (Hqi _ Hq) as [? _].
  - intros j oj Hj Hp.
    by destruct (Inv_partner _ _ _ _ HI' Hj Hp) as (_ & _ & _ & ? & _).
  - intros p [Hp _]%partnerOf_Some.
    destruct (Inv_partner _ _ _ _ HI Ho Hp)
      as (Hne & _ & _ & Hpc & Hof & op & _ & _ & Hop & _).
    exists (resetPartner op). split; [|done].
    unfold cleanupClient. rewrite Hg. apply clientsGet_Some. split.
    + unfold clientsDelete. cbn [clients setClients]. rewrite handleLeave_clients.
      by apply list_elem_of_filter.
    + unfold clientsDelete. cbn [heap setClients].
      rewrite (handleLeave_heap_paired now k st o p op); [|done|done|by apply clientsGet_Some].
      by rewrite lookup_alter_ne, lookup_alter_eq, Hop by congruence.
  - intros j Hne Hnp. apply cleanupClient_frame; [done|]. intros oj Hoj. congruence.
Qed.

(** What [handleLeave] does for a client with a partner when the
    invariant holds. *)
Lemma handleLeave_dissolves st now a oa b ob t1 t2 :
  Inv st → heap st !! a = Some oa → partnerId oa = Some b →
  heap st !! b = Some ob → pairedAt oa = Some t1 → pairedAt ob = Some t2 →
  (1 ≤ activeConversations (stats st))%Z
  ∧ handleLeave now a st
    = mkState (clients st)
        (alter resetClient a (alter resetPartner b (heap st)))
        (waitingQueue st)
        (mkStats (totalVisitors (stats st))
                 (activeConversations (stats st) - 1)
                 (conversationHistory (stats st)
                    ++ [mkRecord ((now - Z.max t1 t2) / 1000) now]))
        (log st ++ (if isOpen b st
                    then [ESend b MsgPartnerLeft; ESend b (MsgStatus msgPartnerGone)]
                    else [])).
Proof.
  intros HI Hoa Hp Hob H1 H2.
  destruct (Inv_partner _ _ _ _ HI Hoa Hp)
    as (Hne & _ & Ha & Hbc & Hof & ob' & t1' & t2' & Hob' & Hback & H1' & Hz1 & H2' & Hz2).
  assert (ob' = ob) as -> by congruence.
  assert (t1' = t1) as -> by congruence.
  assert (t2' = t2) as -> by congruence.
  assert (Hac : (1 ≤ activeConversations (stats st))%Z).
  { pose proof HI as (Hnd & _ & _ & _ & _ & Hcnt & _).
    assert (2 ≤ count (paired (heap st)) (clients st)); [|lia].
    rewrite <- (count_flip_off (paired (heap st))
                  (paired (alter resetPartner b (heap st))) b (clients st)); try done.
    - rewrite <- (count_flip_off (paired (alter resetPartner b (heap st)))
                    (paired (alter resetClient a (alter resetPartner b (heap st))))
                    a (clients st)); try done; [lia| | |].
      + rewrite paired_alter_other by done. by eapply paired_true.
      + unfold paired. by rewrite lookup_alter_eq, lookup_alter_ne, Hoa.
      + intros j _ Hj. by apply paired_alter_other.
    - eapply paired_true; [done|]. apply partnerOf_Some. split; [done|].
      destruct HI as (_ & _ & Hobj & _). by destruct (Hobj _ _ Hoa).
    - unfold paired. by rewrite lookup_alter_eq, Hob.
    - intros j _ Hj. by apply paired_alter_other. }
  split; [done|].
  rewrite (handleLeave_paired now a st oa b ob t1 t2); try done;
    [|by apply clientsGet_Some].
  f_equal.
  - apply removeFirst_notin. intros Hq.
    pose proof (Inv_queued_unpaired _ _ _ HI Hq Hoa). congruence.
  - unfold recordConversation. f_equal. lia.
Qed.

(** C10.  The counter of active conversations is never negative.  It
    starts at zero; [connectPair] adds exactly one to it; [handleLeave]
    replaces n by max(0, n - 1) when it dissolves a pairing (the client has
    a partner that is registered and both have a truthy [pairedAt]), and
    leaves the counter alone when there is no registered partner; in a
    reachable state every leave of a client that has a partner is such a
    dissolution, and the counter is at least one before it; and every
    handler execution, whatever the event, takes a state with a
    non-negative counter to one with a non-negative counter. *)
Theorem activeConversations_nonneg ev st :
  (0 ≤ activeConversations (stats st))%Z →
  (0 ≤ activeConversations (stats (handle ev st)))%Z
  ∧ activeConversations (stats (@initial Payload)) = 0%Z
  ∧ (∀ now a b,
       activeConversations (stats (connectPair now a b st))
       = (activeConversations (stats st) + 1)%Z)
  ∧ (∀ now k,
       activeConversations (stats (handleLeave now k st))
       = activeConversations (stats st)
       ∨ activeConversations (stats (handleLeave now k st))
         = Z.max 0 (activeConversations (stats st) - 1))
  ∧ (∀ now k o p op t1 t2,
       heap st !! k = Some o → partnerOf o = Some p → clientsGet p st = Some op →
       pairedAt o = Some t1 → pairedAt op = Some t2 → t1 ≠ 0%Z → t2 ≠ 0%Z →
       activeConversations (stats (handleLeave now k st))
       = Z.max 0 (activeConversations (stats st) - 1))
  ∧ (∀ now k,
       (∀ o p, heap st !! k = Some o → partnerOf o = Some p →
               clientsGet p st = None) →
       activeConversations (stats (handleLeave now k st))
       = activeConversations (stats st))
  ∧ (reachable st →
     ∀ now k o p, clientsGet k st = Some o → partnerOf o = Some p →
       (1 ≤ activeConversations (stats st))%Z
       ∧ activeConversations (stats (handleLeave now k st))
         = Z.max 0 (activeConversations (stats st) - 1)).
Proof.
  intros H. split; [by apply nonneg_handle|]. split; [done|].
  split; [|split; [|split; [|split]]].
  - intros now a b. by rewrite connectPair_stats.
  - intros now k.
    destruct (handleLeave_stats now k st) as [->|(t1 & t2 & ->)]; [by left|by right].
  - intros now k o p op t1 t2 Ho Hp Hg H1 H2 Hz1 Hz2.
    by rewrite (handleLeave_paired now k st o p op t1 t2).
  - intros now k Hdang. destruct (heap st !! k) as [o|] eqn:Ho.
    + destruct (partnerOf o) as [p|] eqn:Hp.
      * by rewrite (handleLeave_dangling now k st o p) by eauto.
      * by rewrite (handleLeave_alone now k st o).
    + unfold handleLeave, removeFromQueue, modify. simpl. by rewrite Ho.
  - intros HI%reachable_Inv now k o p [_ Ho]%clientsGet_Some Hof.
    pose proof Hof as [Hp _]%partnerOf_Some.
    destruct (Inv_partner _ _ _ _ HI Ho Hp)
      as (_ & _ & _ & _ & _ & op & t1 & t2 & Hop & _ & H1 & _ & H2 & _).
    destruct (handleLeave_dissolves st now k o p op t1 t2 HI Ho Hp Hop H1 H2)
      as [Hac ->].
    split; [done|]. simpl. lia.
Qed.

(** X4.  A leave from a client with a partner, in a reachable state:
    both objects lose [partnerId] and [pairedAt], exactly one record is
    appended to the history, whose duration is the whole seconds from the
    later [pairedAt] to the clock reading [now], the counter of active
    conversations goes down by exactly one (it is at least one), the
    queue and the registry stay, and the partner is sent [partner_left]
    and then a status when its socket is OPEN. *)
Theorem leave_dissolves_pairing st now a oa b :
  reachable st → clientsGet a st = Some oa → partnerOf oa = Some b →
  ∃ ob t1 t2 record,
    clientsGet b st = Some ob ∧ pairedAt oa = Some t1 ∧ pairedAt ob = Some t2
    ∧ (1 ≤ activeConversations (stats st))%Z
    ∧ duration record = ((now - Z.max t1 t2) / 1000)%Z
    ∧ handleLeave now a st
      = mkState (clients st)
          (alter resetClient a (alter resetPartner b (heap st)))
          (waitingQueue st)
          (mkStats (totalVisitors (stats st))
                   (activeConversations (stats st) - 1)
                   (conversationHistory (stats st) ++ [record]))
          (log st ++ (if isOpen b st
                      then [ESend b MsgPartnerLeft; ESend b (MsgStatus msgPartnerGone)]
                      else [])).
Proof.
  intros HI%reachable_Inv [Ha Hoa]%clientsGet_Some Hof.
  pose proof Hof as [Hp _]%partnerOf_Some.
  destruct (Inv_partner _ _ _ _ HI Hoa Hp)
    as (_ & _ & _ & Hbc & _ & ob & t1 & t2 & Hob & _ & H1 & _ & H2 & _).
  destruct (handleLeave_dissolves st now a oa b ob t1 t2 HI Hoa Hp Hob H1 H2)
    as [Hac Heq].
  exists ob, t1, t2, (mkRecord ((now - Z.max t1 t2) / 1000) now).
  split; [by apply clientsGet_Some|].
  by do 4 (split; [done|]).
Qed.

(** ** The counters the statistics endpoint reports *)

Lemma count_complement (f : string → bool) (l : list string) :
  length (filter (λ x, f x = false) l) + count f l = length l.
Proof.
  induction l as [|y l IH]; simpl; [done|].
  rewrite filter_cons. destruct (f y) eqn:Hf.
  - rewrite decide_False by done. lia.
  - rewrite decide_True by done. simpl. lia.
Qed.

(** X5.  In every reachable state the counter of active conversations is
    half the number of registered clients that have a partner, and the
    queue length plus twice that counter is at most the number of
    registered clients. *)
Theorem stats_consistent st :
  reachable st →
  Z.of_nat (count (paired (heap st)) (clients st))
  = (2 * activeConversations (stats st))%Z
  ∧ (Z.of_nat (length (waitingQueue st)) + 2 * activeConversations (stats st)
     ≤ Z.of_nat (length (clients st)))%Z.
Proof.
  intros HI%reachable_Inv.
  pose proof HI as (Hnd & _ & _ & Hqnd & Hq & Hcnt & _).
  split; [done|]. rewrite <- Hcnt.
  pose proof (count_complement (paired (heap st)) (clients st)) as Hc.
  assert (waitingQueue st ⊆+ filter (λ x, paired (heap st) x = false) (clients st)) as Hsub.
  { apply NoDup_submseteq; [done|]. intros x Hx.
    destruct (Hq _ Hx) as (Hxc & o & Ho & Hp & _).
    apply list_elem_of_filter. split; [|done].
    by apply paired_false with o, partnerOf_None_unpaired. }
  apply submseteq_length in Hsub. lia.
Qed.

Lemma steady_refl s : steady s s.
Proof. by split; [|split]. Qed.

Lemma steady_trans s1 s2 s3 : steady s1 s2 → steady s2 s3 → steady s1 s3.
Proof.
  intros (Hd1 & Ht1 & Hh1) (Hd2 & Ht2 & Hh2).
  split; [congruence|]. split; [congruence|]. by etrans.
Qed.

Lemma steady_send k m s : steady s (send k m s).
Proof.
  unfold steady. rewrite send_heap, send_stats. by split; [|split].
Qed.

Lemma steady_emit e s : steady s (emit e s).
Proof. by split; [|split]. Qed.

Lemma steady_modify k (f : Client → Client) s : steady s (modify k f s).
Proof. split; [apply dom_alter_L|]. by split. Qed.

Lemma steady_setQueue q s : steady s (setQueue q s).
Proof. by split; [|split]. Qed.

Lemma steady_clientsDelete k s : steady s (clientsDelete k s).
Proof. by split; [|split]. Qed.

Lemma steady_record now t1 t2 s :
  steady s (setStats (recordConversation now t1 t2 (stats s)) s).
Proof.
  split; [done|]. split; [done|]. simpl. by apply prefix_app_r.
Qed.

Lemma steady_counter n s :
  steady s (setStats (mkStats (totalVisitors (stats s)) n
                              (conversationHistory (stats s))) s).
Proof. by split; [|split]. Qed.

Ltac steady_chain :=
  repeat first
    [ apply steady_refl
    | eapply steady_trans; [|apply steady_send]
    | eapply steady_trans; [|apply steady_emit]
    | eapply steady_trans; [|apply steady_setQueue]
    | eapply steady_trans; [|apply steady_clientsDelete]
    | eapply steady_trans; [|apply steady_record]
    | eapply steady_trans; [|apply steady_modify] ].

Lemma steady_handleLeave now k s : steady s (handleLeave now k s).
Proof.
  unfold handleLeave, removeFromQueue.
  do 3 (eapply steady_trans; [|apply steady_modify]).
  cbn [heap setQueue].
  destruct (heap s !! k) as [o|]; [|steady_chain].
  destruct (partnerOf o) as [p|]; [|steady_chain].
  destruct (clientsGet p _) as [op|]; [|steady_chain].
  destruct (pairedAt o), (pairedAt op); try steady_chain.
  destruct (_ && _); steady_chain.
Qed.

Lemma steady_cleanupClient now k s : steady s (cleanupClient now k s).
Proof.
  unfold cleanupClient. destruct (clientsGet k s); [|apply steady_refl].
  eapply steady_trans; [apply steady_handleLeave|apply steady_clientsDelete].
Qed.

Lemma steady_connectPair now a b s : steady s (connectPair now a b s).
Proof.
  unfold connectPair.
  do 4 (eapply steady_trans; [|apply steady_send]).
  eapply steady_trans; [|apply steady_counter].
  steady_chain.
Qed.

Lemma steady_matchLoop now k q : ∀ s, steady s (matchLoop now k q s).
Proof.
  induction q as [|p q IH]; intros s; simpl.
  - unfold pushWaiting. steady_chain.
  - case_decide; [unfold pushWaiting; steady_chain|].
    assert (steady s (matchLoop now k q (setQueue q s))) as Hrec.
    { eapply steady_trans; [apply steady_setQueue|apply IH]. }
    destruct (clientsGet p _) as [op|]; [|done].
    case_decide; [|done].
    eapply steady_trans; [apply steady_setQueue|apply steady_connectPair].
Qed.

Lemma steady_handleMessage now k raw s : steady s (handleMessage now k raw s).
Proof.
  destruct raw as [| |[|payload| |]]; cbn [handleMessage].
  - steady_chain.
  - steady_chain.
  - unfold handleReady. destruct (heap s !! k) as [o|]; [|steady_chain].
    destruct (partnerOf o); [steady_chain|].
    case_decide; [steady_chain|].
    eapply steady_trans; [|apply steady_matchLoop]. apply steady_modify.
  - unfold handleSignal. destruct (heap s !! k) as [o|]; [|steady_chain].
    destruct (partnerOf o) as [p|]; [|steady_chain].
    destruct (clientsGet p s); [steady_chain|apply steady_handleLeave].
  - apply steady_handleLeave.
  - steady_chain.
Qed.

Lemma steady_heartbeatStep now pingThrows k s :
  steady s (heartbeatStep now pingThrows k s).
Proof.
  unfold heartbeatStep. destruct (clientsGet k s) as [o|]; [|apply steady_refl].
  destruct (negb (isAlive o)).
  - eapply steady_trans; [|apply steady_cleanupClient].
    unfold terminate. steady_chain.
  - destruct (pingThrows k).
    + eapply steady_trans; [|apply steady_cleanupClient]. steady_chain.
    + steady_chain.
Qed.

Lemma steady_heartbeat now pingThrows s : steady s (heartbeat now pingThrows s).
Proof.
  unfold heartbeat. generalize (clients s) as l. intros l.
  assert (∀ s', steady s s' →
            steady s (foldl (λ s k, heartbeatStep now pingThrows k s) s' l)) as H.
  { induction l as [|k l IH]; intros s' Hs; simpl; [done|].
    apply IH. eapply steady_trans; [done|apply steady_heartbeatStep]. }
  apply H, steady_refl.
Qed.

Lemma steady_handle ev s :
  (∀ now k, ev ≠ EvConnection now k) → steady s (handle ev s).
Proof.
  intros Hev. destruct ev as [now k|k|now k raw|now k|now k|k rs|now pt]; simpl.
  - by destruct (Hev now k).
  - apply steady_modify.
  - apply steady_handleMessage.
  - apply steady_cleanupClient.
  - apply steady_cleanupClient.
  - apply steady_modify.
  - apply steady_heartbeat.
Qed.

Lemma connection_or_not (ev : @Event Payload) :
  (∃ now k, ev = EvConnection now k) ∨ (∀ now k, ev ≠ EvConnection now k).
Proof. destruct ev; [left; by eexists _, _|right; intros ? ?; discriminate..]. Qed.

Lemma onConnection_totals now k s :
  dom (heap (onConnection now k s)) =@{gset string} {[k]} ∪ dom (heap s)
  ∧ totalVisitors (stats (onConnection now k s)) = (totalVisitors (stats s) + 1)%Z
  ∧ conversationHistory (stats (onConnection now k s)) = conversationHistory (stats s).
Proof.
  unfold onConnection. rewrite send_heap, send_stats. unfold clientsSet. simpl.
  split; [apply dom_insert_L|]. by case_decide.
Qed.

(** X6.  The visitor counter counts the client objects: in every
    reachable state [totalVisitors] is the number of clients ever
    connected (the objects in the store), and the registry is no larger. *)
Theorem totalVisitors_counts_connections st :
  reachable st →
  totalVisitors (stats st) = Z.of_nat (size (heap st))
  ∧ length (clients st) ≤ size (heap st).
Proof.
  intros Hr. split.
  - induction Hr as [|st ev Hr IH He]; [done|].
    destruct (connection_or_not ev) as [(now & k & ->)|Hne].
    + simpl. destruct He as (_ & _ & Hfresh).
      destruct (onConnection_totals now k st) as (Hd & Ht & _).
      rewrite Ht, IH, <- !size_dom, Hd.
      rewrite size_union, size_singleton; [lia|].
      apply disjoint_singleton_l. by apply not_elem_of_dom.
    + destruct (steady_handle ev st Hne) as (Hd & Ht & _).
      by rewrite Ht, IH, <- !size_dom, Hd.
  - apply reachable_Inv in Hr as (Hnd & Hreg & _).
    rewrite <- size_dom, <- (size_list_to_set (C:=gset string) (clients st)) by done.
    apply subseteq_size. intros x Hx%elem_of_list_to_set. by apply elem_of_dom, Hreg.
Qed.

(** X7.  No handler rewrites what is already recorded: for every event
    and every state, the history of conversations only grows at its end,
    no client object disappears from the store, and the visitor counter
    moves only on a connection, by one. *)
Theorem history_append_only ev st :
  conversationHistory (stats st) `prefix_of` conversationHistory (stats (handle ev st))
  ∧ dom (heap st) ⊆ dom (heap (handle ev st))
  ∧ totalVisitors (stats (handle ev st))
    = (totalVisitors (stats st)
       + match ev with EvConnection _ _ => 1 | _ => 0 end)%Z.
Proof.
  destruct (connection_or_not ev) as [(now & k & ->)|Hne].
  - simpl. destruct (onConnection_totals now k st) as (Hd & Ht & Hh).
    rewrite Hd, Ht, Hh. split; [done|]. split; [set_solver|done].
  - destruct (steady_handle ev st Hne) as (Hd & Ht & Hh).
    rewrite Hd, Ht. split; [done|]. split; [done|].
    destruct ev; try lia. by destruct (Hne now k).
Qed.

(** ** More on the heartbeat *)

Lemma lookup_foldl_alter (f : Client → Client) (l : list string) : ∀ (h : gmap string Client) j,
  NoDup l →
  foldl (λ h k, alter f k h) h l !! j
  = if decide (j ∈ l) then f <$> h !! j else h !! j.
Proof.
  induction l as [|k l IH]; intros h j Hnd; simpl; [done|].
  apply NoDup_cons in Hnd as [Hk Hnd]. rewrite IH by done.
  destruct (decide (j = k)) as [->|Hne].
  - rewrite (decide_False (P := k ∈ l)) by done.
    rewrite decide_True by apply list_elem_of_here. by rewrite lookup_alter_eq.
  - rewrite lookup_alter_ne by done.
    destruct (decide (j ∈ l)) as [Hj|Hj].
    + rewrite decide_True; [done|]. by apply list_elem_of_further.
    + rewrite decide_False; [done|]. by intros [?|?]%elem_of_cons.
Qed.

Lemma healthy_fold now pingThrows l : ∀ s,
  NoDup l →
  (∀ k, k ∈ l → pingThrows k = false
                ∧ ∃ o, clientsGet k s = Some o ∧ isAlive o = true) →
  foldl (λ s k, heartbeatStep now pingThrows k s) s l
  = mkState (clients s)
      (foldl (λ h k, alter (setIsAlive false) k h) (heap s) l)
      (waitingQueue s) (stats s) (log s ++ (EPing <$> l)).
Proof.
  induction l as [|k l IH]; intros s Hnd Hall; simpl.
  - rewrite app_nil_r. by destruct s.
  - apply NoDup_cons in Hnd as [Hk Hnd].
    destruct (Hall k) as (Hpt & o & Hg & Hal); [apply list_elem_of_here|].
    assert (heartbeatStep now pingThrows k s
            = emit (EPing k) (modify k (setIsAlive false) s)) as ->.
    { unfold heartbeatStep. by rewrite Hg, Hal, Hpt. }
    rewrite IH; [|done|].
    + cbn [clients heap waitingQueue stats log emit modify setHeap].
      by rewrite <- app_assoc.
    + intros j Hj. destruct (Hall j) as (Hptj & oj & Hgj & Halj);
        [by apply list_elem_of_further|].
      split; [done|]. exists oj. split; [|done].
      apply clientsGet_Some in Hgj as [? ?]. apply clientsGet_Some.
      split; [done|]. simpl. rewrite lookup_alter_ne; [done|]. by intros ->.
Qed.

(** X8.  A tick over healthy clients disturbs nothing: in a reachable
    state in which every registered client has [isAlive] set and no ping
    throws, the tick removes nobody, leaves queue, pairings and statistics
    alone, pings every registered client once, in registration order, and
    clears exactly the [isAlive] flags of the registered clients. *)
Theorem healthy_tick st now pingThrows :
  reachable st →
  (∀ k, k ∈ clients st → pingThrows k = false
                         ∧ ∃ o, heap st !! k = Some o ∧ isAlive o = true) →
  clients (heartbeat now pingThrows st) = clients st
  ∧ waitingQueue (heartbeat now pingThrows st) = waitingQueue st
  ∧ stats (heartbeat now pingThrows st) = stats st
  ∧ log (heartbeat now pingThrows st) = log st ++ (EPing <$> clients st)
  ∧ ∀ j, heap (heartbeat now pingThrows st) !! j
         = if decide (j ∈ clients st)
           then setIsAlive false <$> heap st !! j
           else heap st !! j.
Proof.
  intros HI%reachable_Inv Hall. unfold heartbeat.
  pose proof HI as (Hnd & _).
  rewrite healthy_fold; [|done|].
  - cbn [clients heap waitingQueue stats log]. do 4 (split; [done|]).
    intros j. by apply lookup_foldl_alter.
  - intros k Hk. destruct (Hall k Hk) as (Hpt & o & Ho & Hal).
    split; [done|]. exists o. split; [|done]. by apply clientsGet_Some.
Qed.

Lemma removeFirst_filter k (l : list string) :
  NoDup l → removeFirst k l = filter (λ j, j ≠ k) l.
Proof.
  induction 1 as [|y l Hy Hl IH]; simpl; [done|].
  rewrite filter_cons. destruct (decide (y = k)) as [->|Hne].
  - rewrite decide_False by (intros Hk; by apply Hk).
    rewrite <- IH. symmetry. by apply removeFirst_notin.
  - rewrite decide_True by done. by rewrite IH.
Qed.

Lemma filter_all (P : string → Prop) `{!∀ x, Decision (P x)} (l : list string) :
  (∀ x, x ∈ l → P x) → filter P l = l.
Proof.
  induction l as [|y l IH]; intros Hall; [done|].
  rewrite filter_cons, decide_True by apply Hall, list_elem_of_here.
  rewrite IH; [done|]. intros x Hx. by apply Hall, list_elem_of_further.
Qed.

Lemma handleLeave_queue now k s :
  waitingQueue (handleLeave now k s) = removeFirst k (waitingQueue s).
Proof.
  unfold handleLeave, removeFromQueue, clientsGet. simpl.
  destruct (heap s !! k) as [o|]; [|done].
  destruct (partnerOf o) as [p|]; [|done]. simpl.
  destruct (decide (p ∈ clients s)); [|done].
  destruct (heap s !! p) as [op|]; [|done].
  rewrite !send_queue. simpl.
  destruct (pairedAt o), (pairedAt op); try done.
  by destruct (_ && _).
Qed.

(** An iteration of the heartbeat loop either keeps registry and queue
    or takes its client out of both. *)
Lemma heartbeatStep_shape now pingThrows j s :
  Inv s →
  (clients (heartbeatStep now pingThrows j s) = clients s
   ∧ waitingQueue (heartbeatStep now pingThrows j s) = waitingQueue s)
  ∨ (clients (heartbeatStep now pingThrows j s) = filter (λ x, x ≠ j) (clients s)
     ∧ waitingQueue (heartbeatStep now pingThrows j s)
       = filter (λ x, x ≠ j) (waitingQueue s)).
Proof.
  intros HI. pose proof HI as (_ & _ & _ & Hqnd & _).
  assert (Hcl : ∀ s1, clients s1 = clients s → waitingQueue s1 = waitingQueue s →
            is_Some (clientsGet j s1) →
            clients (cleanupClient now j s1) = filter (λ x, x ≠ j) (clients s)
            ∧ waitingQueue (cleanupClient now j s1) = filter (λ x, x ≠ j) (waitingQueue s)).
  { intros s1 Hc Hq [o1 Hg1]. unfold cleanupClient. rewrite Hg1.
    unfold clientsDelete. cbn [clients waitingQueue setClients].
    rewrite handleLeave_clients, handleLeave_queue, Hc, Hq.
    split; [done|]. by apply removeFirst_filter. }
  unfold heartbeatStep. destruct (clientsGet j s) as [o|] eqn:Hg; [|by left].
  apply clientsGet_Some in Hg as [Hj Ho].
  destruct (negb (isAlive o)).
  - right. apply Hcl; [done..|].
    exists (if decide (readyState o = CLOSED) then o else setReadyState CLOSING o).
    apply clientsGet_Some. split; [done|].
    unfold terminate. simpl. by rewrite lookup_alter_eq, Ho.
  - destruct (pingThrows j); [|by left].
    right. apply Hcl; [done..|].
    exists (setIsAlive false o). apply clientsGet_Some. split; [done|].
    simpl. by rewrite lookup_alter_eq, Ho.
Qed.

Lemma heartbeatFold_survivors now pingThrows l : ∀ s,
  Inv s →
  clients (foldl (λ s k, heartbeatStep now pingThrows k s) s l)
  = filter (λ x, x ∈ clients (foldl (λ s k, heartbeatStep now pingThrows k s) s l))
           (clients s)
  ∧ waitingQueue (foldl (λ s k, heartbeatStep now pingThrows k s) s l)
    = filter (λ x, x ∈ clients (foldl (λ s k, heartbeatStep now pingThrows k s) s l))
             (waitingQueue s).
Proof.
  induction l as [|j l IH]; intros s HI; simpl.
  - destruct HI as (_ & _ & _ & _ & Hq & _).
    split; symmetry; apply filter_all; [done|].
    intros x Hx. by destruct (Hq _ Hx).
  - set (s1 := heartbeatStep now pingThrows j s).
    destruct (IH s1 (Inv_heartbeatStep now pingThrows j s HI)) as [Hc Hq].
    destruct (heartbeatFold_any now pingThrows l s1) as (Hshrink & _).
    set (s' := foldl (λ s k, heartbeatStep now pingThrows k s) s1 l) in *.
    destruct (heartbeatStep_shape now pingThrows j s HI) as [[Ec Eq]|[Ec Eq]];
      fold s1 in Ec, Eq; rewrite Ec in Hc; rewrite Eq in Hq.
    + done.
    + assert (∀ x, x ∈ clients s' → x ≠ j) as Hne.
      { intros x Hx%Hshrink. rewrite Ec in Hx.
        by apply list_elem_of_filter in Hx as [? _]. }
      rewrite list_filter_filter_l in Hc by done.
      rewrite list_filter_filter_l in Hq by done. done.
Qed.

(** X9.  A tick reaps only: a registered client with [isAlive] set whose
    ping does not throw is still registered after the tick, and registry
    and waiting queue after the tick are the old ones restricted to the
    clients that are still registered, in the old order. *)
Theorem tick_keeps_the_living st now pingThrows :
  reachable st →
  (∀ k o, clientsGet k st = Some o → isAlive o = true → pingThrows k = false →
     k ∈ clients (heartbeat now pingThrows st))
  ∧ clients (heartbeat now pingThrows st)
    = filter (λ x, x ∈ clients (heartbeat now pingThrows st)) (clients st)
  ∧ waitingQueue (heartbeat now pingThrows st)
    = filter (λ x, x ∈ clients (heartbeat now pingThrows st)) (waitingQueue st).
Proof.
  intros HI%reachable_Inv. split; [|by apply heartbeatFold_survivors].
  intros k o Hg Hal Hpt. pose proof Hg as [Hk Ho]%clientsGet_Some.
  unfold heartbeat.
  destruct (list_elem_of_split _ _ Hk) as (l1 & l2 & Hsplit).
  assert (Hnd : NoDup (l1 ++ k :: l2)).
  { rewrite <- Hsplit. by destruct HI. }
  apply NoDup_app in Hnd as (_ & Hk1 & [Hk2 _]%NoDup_cons).
  assert (Hk1' : k ∉ l1).
  { intros Hin. apply (Hk1 _ Hin), list_elem_of_here. }
  rewrite Hsplit, foldl_app. simpl.
  set (s1 := foldl (λ s j, heartbeatStep now pingThrows j s) st l1).
  destruct (heartbeatFold_other now pingThrows k l1 st Hk1') as [Hc1 Ha1].
  fold s1 in Hc1, Ha1.
  apply (heartbeatFold_other now pingThrows k l2); [done|].
  rewrite Ho in Ha1. destruct (heap s1 !! k) as [o1|] eqn:Ho1; [|done].
  assert (isAlive o1 = true) as Hal1 by (simpl in Ha1; congruence).
  unfold heartbeatStep.
  replace (clientsGet k s1) with (Some o1)
    by (symmetry; apply clientsGet_Some; split; [by apply Hc1|done]).
  rewrite Hal1, Hpt. simpl. by apply Hc1.
Qed.

(** X10.  [removeFromQueue] takes out the first occurrence of the id
    and nothing else: the entries before and behind it keep their order;
    for an id that is not queued the queue is unchanged; and on a queue
    without duplicates the id is gone afterwards. *)
Theorem removeFromQueue_first k st :
  (∀ l1 l2, waitingQueue st = l1 ++ k :: l2 → k ∉ l1 →
     waitingQueue (removeFromQueue k st) = l1 ++ l2)
  ∧ (k ∉ waitingQueue st → removeFromQueue k st = st)
  ∧ (NoDup (waitingQueue st) → k ∉ waitingQueue (removeFromQueue k st)).
Proof.
  split; [|split].
  - intros l1 l2 Hq Hk. unfold removeFromQueue. cbn [waitingQueue setQueue].
    rewrite Hq. clear Hq. induction l1 as [|y l1 IH]; simpl.
    + by rewrite decide_True.
    + apply not_elem_of_cons in Hk as [Hne Hk].
      rewrite decide_False by done. by rewrite IH.
  - intros Hk. unfold removeFromQueue. rewrite removeFirst_notin by done.
    by destruct st.
  - intros Hnd. simpl. by apply removeFirst_NoDup.
Qed.

(** ** The statistics endpoint *)

Lemma countRecord_sum b r :
  (b0_30s (countRecord b r) + b30s_1m (countRecord b r) + b1_5m (countRecord b r)
   + b5_15m (countRecord b r) + b15m_up (countRecord b r))%Z
  = (b0_30s b + b30s_1m b + b1_5m b + b5_15m b + b15m_up b + 1)%Z.
Proof. unfold countRecord. repeat case_match; simpl; lia. Qed.

Lemma foldl_countRecord_counts h : ∀ b,
  b0_30s (foldl countRecord b h)
  = (b0_30s b + Z.of_nat (length (filter (λ r, (duration r < 30)%Z) h)))%Z
  ∧ b30s_1m (foldl countRecord b h)
    = (b30s_1m b
       + Z.of_nat (length (filter (λ r, (30 ≤ duration r < 60)%Z) h)))%Z
  ∧ b1_5m (foldl countRecord b h)
    = (b1_5m b
       + Z.of_nat (length (filter (λ r, (60 ≤ duration r < 300)%Z) h)))%Z
  ∧ b5_15m (foldl countRecord b h)
    = (b5_15m b
       + Z.of_nat (length (filter (λ r, (300 ≤ duration r < 900)%Z) h)))%Z
  ∧ b15m_up (foldl countRecord b h)
    = (b15m_up b + Z.of_nat (length (filter (λ r, (900 ≤ duration r)%Z) h)))%Z.
Proof.
  induction h as [|r h IH]; intros b; simpl.
  - repeat split; lia.
  - destruct (IH (countRecord b r)) as (E0 & E1 & E2 & E3 & E4).
    rewrite E0, E1, E2, E3, E4, !filter_cons. unfold countRecord.
    destruct (Z.ltb_spec (duration r) 30);
      [|destruct (Z.ltb_spec (duration r) 60);
        [|destruct (Z.ltb_spec (duration r) 300);
          [|destruct (Z.ltb_spec (duration r) 900)]]];
      repeat case_decide; simpl; repeat split; lia.
Qed.

Lemma foldl_countRecord_sum h : ∀ b,
  (b0_30s (foldl countRecord b h) + b30s_1m (foldl countRecord b h)
   + b1_5m (foldl countRecord b h) + b5_15m (foldl countRecord b h)
   + b15m_up (foldl countRecord b h))%Z
  = (b0_30s b + b30s_1m b + b1_5m b + b5_15m b + b15m_up b
     + Z.of_nat (length h))%Z.
Proof.
  induction h as [|r h IH]; intros b; simpl; [lia|].
  rewrite IH, countRecord_sum. lia.
Qed.

(** X11.  The five buckets of the duration histogram partition the
    history: each bucket is the number of records whose duration lies in
    its interval (below 30, 30 to 59, 60 to 299, 300 to 899, 900 and
    more, so a negative duration counts as '0-30s'), and the buckets add
    up to the number of records. *)
Theorem distribution_partitions h :
  b0_30s (distribution h)
  = Z.of_nat (length (filter (λ r, (duration r < 30)%Z) h))
  ∧ b30s_1m (distribution h)
    = Z.of_nat (length (filter (λ r, (30 ≤ duration r < 60)%Z) h))
  ∧ b1_5m (distribution h)
    = Z.of_nat (length (filter (λ r, (60 ≤ duration r < 300)%Z) h))
  ∧ b5_15m (distribution h)
    = Z.of_nat (length (filter (λ r, (300 ≤ duration r < 900)%Z) h))
  ∧ b15m_up (distribution h)
    = Z.of_nat (length (filter (λ r, (900 ≤ duration r)%Z) h))
  ∧ (b0_30s (distribution h) + b30s_1m (distribution h) + b1_5m (distribution h)
     + b5_15m (distribution h) + b15m_up (distribution h))%Z
    = Z.of_nat (length h).
Proof.
  unfold distribution.
  destruct (foldl_countRecord_counts h (mkBuckets 0 0 0 0 0)) as (E0 & E1 & E2 & E3 & E4).
  pose proof (foldl_countRecord_sum h (mkBuckets 0 0 0 0 0)) as Es.
  simpl in *. repeat split; lia.
Qed.

Lemma jsSplit_nosep sep (str : string) :
  hasChar sep str = false → jsSplit sep str = [str].
Proof.
  induction str as [|c str IH]; simpl; [done|].
  case_decide; [done|]. intros Hs. by rewrite IH.
Qed.

Lemma jsSplit_app sep (a b : string) :
  hasChar sep a = false →
  jsSplit sep (a +:+ String sep b) = a :: jsSplit sep b.
Proof.
  induction a as [|c a IH]; simpl.
  - intros _. by rewrite decide_True.
  - case_decide; [done|]. intros Ha. by rewrite IH.
Qed.

Lemma jsSplit_pieces sep (str w : string) :
  w ∈ jsSplit sep str → hasChar sep w = false.
Proof.
  revert w. induction str as [|c str IH]; intros w; simpl.
  - by intros ->%list_elem_of_singleton.
  - case_decide as Hc.
    + intros [->|Hw]%elem_of_cons; [done|by apply IH].
    + destruct (jsSplit sep str) as [|v vs].
      * intros ->%list_elem_of_singleton. simpl. by rewrite decide_False.
      * intros [->|Hw]%elem_of_cons.
        -- simpl. rewrite decide_False by done. apply IH, list_elem_of_here.
        -- by apply IH, list_elem_of_further.
Qed.

(** X12.  The token the [/stats] handler compares with the password is
    the second space-separated piece of the Authorization header: there
    is none without a header or without a space in it; it never contains
    a space; and for a header made of any word, a space and a password
    without spaces it is that password, whatever the word is and whatever
    follows a further space. *)
Theorem bearerToken_second_piece :
  bearerToken None = None
  ∧ (∀ h, hasChar " " h = false → bearerToken (Some h) = None)
  ∧ (∀ h t, bearerToken (Some h) = Some t → hasChar " " t = false)
  ∧ (∀ scheme pw,
       hasChar " " scheme = false → hasChar " " pw = false →
       bearerToken (Some (scheme +:+ " " +:+ pw)) = Some pw
       ∧ ∀ rest, bearerToken (Some (scheme +:+ " " +:+ pw +:+ " " +:+ rest))
                 = Some pw).
Proof.
  split; [done|]. split; [|split].
  - intros h Hh. simpl. by rewrite jsSplit_nosep.
  - intros h t Ht. simpl in Ht. apply (jsSplit_pieces " " h).
    by eapply list_elem_of_lookup_2.
  - intros scheme pw Hs Hp. split.
    + unfold bearerToken.
      change (scheme +:+ " " +:+ pw) with (scheme +:+ String " " pw).
      rewrite (jsSplit_app " " scheme pw Hs). simpl.
      by rewrite jsSplit_nosep.
    + intros rest. unfold bearerToken.
      change (scheme +:+ " " +:+ pw +:+ " " +:+ rest)
        with (scheme +:+ String " " (pw +:+ String " " rest)).
      rewrite (jsSplit_app " " scheme _ Hs). simpl.
      by rewrite (jsSplit_app " " pw rest Hp).
Qed.

(** X13.  The HTTP listener gives the counters away only for a GET of
    /stats whose token is the password.  Any other request is answered
    without looking at the server state; a GET of /stats with another
    token, or none, is answered 401; with the right token the report
    holds the counters of the state, the sizes of registry and queue, and
    a histogram over the whole history; and a password that contains a
    space is never matched. *)
Theorem stats_need_the_password password adminFile req st :
  (¬ (url req = "/stats" ∧ method req = "GET"
      ∧ bearerToken (authorization req) = Some password) →
     ∀ st', httpHandler password adminFile req st
            = httpHandler password adminFile req st')
  ∧ (url req = "/stats" → method req = "GET" →
     bearerToken (authorization req) ≠ Some password →
     httpHandler password adminFile req st
     = mkResponse 401 [("Content-Type", "application/json")] BodyUnauthorized)
  ∧ (url req = "/stats" → method req = "GET" →
     bearerToken (authorization req) = Some password →
     status (httpHandler password adminFile req st) = 200%Z
     ∧ body (httpHandler password adminFile req st)
       = BodyStats
           (mkReport (totalVisitors (stats st)) (activeConversations (stats st))
              (Z.of_nat (length (conversationHistory (stats st))))
              (distribution (conversationHistory (stats st)))
              (Z.of_nat (length (clients st)))
              (Z.of_nat (length (waitingQueue st)))))
  ∧ (hasChar " " password = true →
     url req = "/stats" → method req = "GET" →
     status (httpHandler password adminFile req st) = 401%Z).
Proof.
  split; [|split; [|split]].
  - intros Hne st'. unfold httpHandler.
    repeat case_decide; try done. destruct Hne. naive_solver.
  - intros Hu Hm Ht. unfold httpHandler.
    rewrite decide_False by (rewrite Hu; by intros [? _]).
    rewrite decide_True by done. by rewrite decide_False.
  - intros Hu Hm Ht. unfold httpHandler.
    rewrite decide_False by (rewrite Hu; by intros [? _]).
    rewrite decide_True by done. by rewrite decide_True.
  - intros Hsp Hu Hm. unfold httpHandler.
    rewrite decide_False by (rewrite Hu; by intros [? _]).
    rewrite decide_True by done. rewrite decide_False; [done|].
    intros Ht. destruct (authorization req) as [h|]; [|done].
    simpl in Ht. apply list_elem_of_lookup_2, jsSplit_pieces in Ht. congruence.
Qed.

(** ** Nothing is written to a terminated socket *)

Lemma quiet_snoc (l : list (@Effect Payload)) e :
  (∀ l1 l2 k m, l = l1 ++ ETerminate k :: l2 → ESend k m ∉ l2) →
  (∀ k m, e = ESend k m → ETerminate k ∉ l) →
  ∀ l1 l2 k m, l ++ [e] = l1 ++ ETerminate k :: l2 → ESend k m ∉ l2.
Proof.
  intros Hl He l1 l2 k m. destruct l2 as [|e' l2 _] using rev_ind.
  - intros _. apply not_elem_of_nil.
  - rewrite app_comm_cons, app_assoc. intros [-> ->]%app_inj_tail.
    intros [Hin|Hin%list_elem_of_singleton]%elem_of_app.
    + by apply (Hl l1 l2 k m).
    + apply (He k m); [done|]. apply elem_of_app. right. apply list_elem_of_here.
Qed.

Lemma quiet_same s s' :
  heap s' = heap s → log s' = log s → terminatedQuiet s → terminatedQuiet s'.
Proof. unfold terminatedQuiet. by intros -> ->. Qed.

Lemma quiet_send k m s : terminatedQuiet s → terminatedQuiet (send k m s).
Proof.
  intros [HT HP]. unfold send.
  destruct (heap s !! k) as [o|] eqn:Ho; [|done].
  case_decide as Hopen; [|done]. split.
  - intros j [Hj|Hj%list_elem_of_singleton]%elem_of_app; [by apply HT|done].
  - apply quiet_snoc; [done|]. intros j m' [= <- <-] Hj.
    destruct (HT _ Hj) as (o' & Ho' & Hn). congruence.
Qed.

Lemma quiet_ping k s : terminatedQuiet s → terminatedQuiet (emit (EPing k) s).
Proof.
  intros [HT HP]. split.
  - intros j [Hj|Hj%list_elem_of_singleton]%elem_of_app; [by apply HT|done].
  - apply quiet_snoc; [done|]. intros j m' [=].
Qed.

Lemma quiet_modify k (f : Client → Client) s :
  (∀ o, readyState o ≠ OPEN → readyState (f o) ≠ OPEN) →
  terminatedQuiet s → terminatedQuiet (modify k f s).
Proof.
  intros Hf [HT HP]. split; [|done].
  intros j Hj. destruct (HT _ Hj) as (o & Ho & Hn). simpl.
  rewrite lookup_alter. case_decide; simplify_eq.
  - rewrite Ho. simpl. exists (f o). split; [done|by apply Hf].
  - by exists o.
Qed.

Lemma quiet_terminate k s o :
  heap s !! k = Some o → terminatedQuiet s → terminatedQuiet (terminate k s).
Proof.
  intros Ho [HT HP]. unfold terminate. split.
  - intros j Hj. simpl.
    assert (∀ x, readyState x ≠ OPEN →
              readyState (if decide (readyState x = CLOSED) then x
                          else setReadyState CLOSING x) ≠ OPEN) as Hf.
    { intros x Hx. by case_decide. }
    destruct (decide (k = j)) as [->|Hne].
    + rewrite lookup_alter_eq, Ho. simpl. eexists. split; [done|].
      case_decide; [congruence|done].
    + rewrite lookup_alter_ne by done.
      simpl in Hj. apply elem_of_app in Hj as [Hj|Hj%list_elem_of_singleton];
        [by apply HT|congruence].
  - simpl. apply quiet_snoc; [done|]. intros j m' [=].
Qed.

Lemma quiet_handleLeave now k s : terminatedQuiet s → terminatedQuiet (handleLeave now k s).
Proof.
  intros H. unfold handleLeave, removeFromQueue.
  do 3 (apply quiet_modify; [by intros|]).
  cbn [heap setQueue].
  assert (terminatedQuiet (setQueue (removeFirst k (waitingQueue s)) s)) as H0
    by (by apply (quiet_same s)).
  destruct (heap s !! k) as [o|]; [|done].
  destruct (partnerOf o) as [p|]; [|done].
  destruct (clientsGet p _) as [op|]; [|done].
  do 2 apply quiet_send. do 2 (apply quiet_modify; [by intros|]).
  destruct (pairedAt o), (pairedAt op); try done.
  destruct (_ && _); [|done]. by eapply quiet_same; [| |apply H0].
Qed.

Lemma quiet_cleanupClient now k s :
  terminatedQuiet s → terminatedQuiet (cleanupClient now k s).
Proof.
  intros H. unfold cleanupClient. destruct (clientsGet k s); [|done].
  eapply quiet_same; [| |by apply (quiet_handleLeave now k)]; done.
Qed.

Lemma quiet_connectPair now a b s :
  terminatedQuiet s → terminatedQuiet (connectPair now a b s).
Proof.
  intros H. unfold connectPair. do 4 apply quiet_send.
  eapply quiet_same; [reflexivity|reflexivity|].
  do 6 (apply quiet_modify; [by intros|]). done.
Qed.

Lemma quiet_pushWaiting k s : terminatedQuiet s → terminatedQuiet (pushWaiting k s).
Proof.
  intros H. unfold pushWaiting. apply quiet_send. by apply (quiet_same s).
Qed.

Lemma quiet_matchLoop now k q : ∀ s,
  terminatedQuiet s → terminatedQuiet (matchLoop now k q s).
Proof.
  induction q as [|p q IH]; intros s H; simpl; [by apply quiet_pushWaiting|].
  assert (terminatedQuiet (setQueue q s)) as H1 by (by apply (quiet_same s)).
  case_decide; [by apply quiet_pushWaiting|].
  destruct (clientsGet p _) as [op|]; [|by apply IH].
  case_decide; [by apply quiet_connectPair|by apply IH].
Qed.

Lemma quiet_handleMessage now k raw s :
  terminatedQuiet s → terminatedQuiet (handleMessage now k raw s).
Proof.
  intros H. destruct raw as [| |[|payload| |]]; cbn [handleMessage].
  - by apply quiet_send.
  - done.
  - unfold handleReady. destruct (heap s !! k) as [o|]; [|done].
    destruct (partnerOf o); [by apply quiet_send|].
    case_decide; [by apply quiet_send|].
    apply quiet_matchLoop. by apply quiet_modify.
  - unfold handleSignal. destruct (heap s !! k) as [o|]; [|done].
    destruct (partnerOf o) as [p|]; [|by apply quiet_send].
    destruct (clientsGet p s); [by apply quiet_send|by apply quiet_handleLeave].
  - by apply quiet_handleLeave.
  - by apply quiet_send.
Qed.

Lemma quiet_heartbeatStep now pingThrows k s :
  terminatedQuiet s → terminatedQuiet (heartbeatStep now pingThrows k s).
Proof.
  intros H. unfold heartbeatStep. destruct (clientsGet k s) as [o|] eqn:Hg; [|done].
  apply clientsGet_Some in Hg as [_ Ho].
  destruct (negb (isAlive o)).
  - by apply quiet_cleanupClient, quiet_terminate with o.
  - assert (terminatedQuiet (emit (EPing k) (modify k (setIsAlive false) s))) as H1.
    { apply quiet_ping. by apply quiet_modify. }
    destruct (pingThrows k); [by apply quiet_cleanupClient|done].
Qed.

Lemma quiet_onConnection now k s :
  heap s !! k = None → terminatedQuiet s → terminatedQuiet (onConnection now k s).
Proof.
  intros Hfresh [HT HP]. unfold onConnection. apply quiet_send.
  split; [|by (unfold clientsSet; simpl; case_decide)].
  intros j Hj. assert (ETerminate j ∈ log s) as Hj' by (unfold clientsSet in Hj; by case_decide).
  destruct (HT _ Hj') as (o & Ho & Hn). exists o. split; [|done].
  unfold clientsSet. simpl. rewrite lookup_insert_ne; [done|]. intros ->. congruence.
Qed.

Lemma quiet_handle ev s :
  enabled s ev → terminatedQuiet s → terminatedQuiet (handle ev s).
Proof.
  intros He H. destruct ev as [now k|k|now k raw|now k|now k|k rs|now pt]; simpl in *.
  - destruct He as (_ & _ & ?). by apply quiet_onConnection.
  - by apply quiet_modify.
  - by apply quiet_handleMessage.
  - by apply quiet_cleanupClient.
  - by apply quiet_cleanupClient.
  - by apply quiet_modify.
  - unfold heartbeat. generalize (clients s) as l. intros l. revert s H.
    induction l as [|j l IH]; intros s H; simpl; [done|].
    by apply IH, quiet_heartbeatStep.
Qed.

(** X14.  The server never writes to a socket it has terminated: in the
    log of every reachable state no message is sent to a socket behind
    the entry of its termination, and every socket that was terminated
    is not OPEN. *)
Theorem no_send_after_terminate st :
  reachable st →
  (∀ l1 l2 k m, log st = l1 ++ ETerminate k :: l2 → ESend k m ∉ l2)
  ∧ (∀ k, ETerminate k ∈ log st → isOpen k st = false).
Proof.
  intros Hr.
  assert (terminatedQuiet st) as [HT HP].
  { induction Hr as [|st ev _ IH He]; [|by apply quiet_handle].
    split; [by intros k ?%elem_of_nil|].
    intros l1 l2 k m Hl. by destruct l1. }
  split; [done|]. intros k Hk. destruct (HT _ Hk) as (o & Ho & Hn).
  unfold isOpen. rewrite Ho. by apply bool_decide_eq_false.
Qed.

(** ** Leaving and matching again *)

Lemma readyState_alter (f : Client → Client) k j (h : gmap string Client) :
  (∀ o, readyState (f o) = readyState o) →
  readyState <$> alter f k h !! j = readyState <$> h !! j.
Proof.
  intros Hf. rewrite lookup_alter. case_decide; simplify_eq; [|done].
  destruct (h !! j); simpl; [|done]. by rewrite Hf.
Qed.

Lemma readyState_handleLeave now k j s :
  readyState <$> heap (handleLeave now k s) !! j = readyState <$> heap s !! j.
Proof.
  unfold handleLeave, removeFromQueue, modify. cbn [heap setHeap].
  rewrite !readyState_alter by done. cbn [heap setQueue].
  destruct (heap s !! k) as [o|]; [|done].
  destruct (partnerOf o) as [p|]; [|done].
  destruct (clientsGet p _) as [op|]; [|done].
  rewrite !send_heap. cbn [heap setHeap]. rewrite !readyState_alter by done.
  destruct (pairedAt o), (pairedAt op); try done.
  by destruct (_ && _).
Qed.

Lemma isOpen_readyState j s s' :
  readyState <$> heap s' !! j = readyState <$> heap s !! j →
  isOpen j s' = isOpen j s.
Proof.
  unfold isOpen. destruct (heap s' !! j), (heap s !! j); simpl; try done.
  by intros [= ->].
Qed.

Lemma isOpen_handleLeave now k j s : isOpen j (handleLeave now k s) = isOpen j s.
Proof. apply isOpen_readyState, readyState_handleLeave. Qed.

(** X15.  Leaving and matching again.  In a reachable state let A and
    B be partners with OPEN sockets and let no valid entry wait in the
    queue.  If A leaves, B asks for a partner and then A does, B is told
    that its partner left and that it is waiting, the two are paired
    again with A as the offerer, the queue ends empty, one duration record
    has been added and the counter of active conversations is what it
    was. *)
Theorem leave_then_rematch st n1 n2 n3 a oa b :
  reachable st → (0 < n2)%Z → (0 < n3)%Z →
  clientsGet a st = Some oa → partnerOf oa = Some b →
  isOpen a st = true → isOpen b st = true →
  Forall (λ j, ¬ validEntry st j) (waitingQueue st) →
  let st3 := handleReady n3 a (handleReady n2 b (handleLeave n1 a st)) in
  log st3
  = log st ++ [ESend b MsgPartnerLeft; ESend b (MsgStatus msgPartnerGone);
               ESend b (MsgStatus msgWaiting);
               ESend a (MsgMatch b Offerer); ESend b (MsgMatch a Answerer);
               ESend a (MsgStatus msgConnectedPair);
               ESend b (MsgStatus msgConnectedPair)]
  ∧ waitingQueue st3 = []
  ∧ clients st3 = clients st
  ∧ activeConversations (stats st3) = activeConversations (stats st)
  ∧ length (conversationHistory (stats st3))
    = S (length (conversationHistory (stats st)))
  ∧ (∃ oa' ob', heap st3 !! a = Some oa' ∧ partnerId oa' = Some b
                ∧ pairedAt oa' = Some n3
                ∧ heap st3 !! b = Some ob' ∧ partnerId ob' = Some a
                ∧ pairedAt ob' = Some n3).
Proof.
  intros Hr Hn2 Hn3 Hga Hof Hopa Hopb Hall.
  pose proof (reachable_Inv st Hr) as HI.
  pose proof Hga as [Ha Hoa]%clientsGet_Some.
  pose proof Hof as [Hp _]%partnerOf_Some.
  destruct (Inv_partner _ _ _ _ HI Hoa Hp)
    as (Hne & _ & _ & Hb & _ & ob & t1 & t2 & Hob & _ & H1 & _ & H2 & _).
  destruct (handleLeave_dissolves st n1 a oa b ob t1 t2 HI Hoa Hp Hob H1 H2)
    as [Hac Hleave].
  assert (Hgb : clientsGet b st = Some ob) by (by apply clientsGet_Some).
  remember (handleLeave n1 a st) as st1 eqn:E1.
  assert (HI1 : Inv st1) by (rewrite E1; apply Inv_handleLeave; [done|by exists oa]).
  assert (Hc1 : clients st1 = clients st) by (rewrite E1; apply handleLeave_clients).
  assert (Hq1 : waitingQueue st1 = waitingQueue st) by (by rewrite Hleave).
  assert (Hopen1 : ∀ j, isOpen j st1 = isOpen j st)
    by (intros j; rewrite E1; apply isOpen_handleLeave).
  assert (Hv1 : ∀ j, validEntry st1 j ↔ validEntry st j).
  { intros j. unfold validEntry. by rewrite Hc1, Hopen1. }
  assert (Hb1 : heap st1 !! b = Some (resetPartner ob)).
  { rewrite Hleave. simpl. by rewrite lookup_alter_ne, lookup_alter_eq, Hob by congruence. }
  assert (Ha1 : heap st1 !! a = Some (resetClient oa)).
  { rewrite Hleave. simpl. by rewrite lookup_alter_eq, lookup_alter_ne, Hoa. }
  assert (Hbq : b ∉ waitingQueue st).
  { intros Hq. pose proof (Inv_queued_unpaired _ _ _ HI Hq Hob) as Hn.
    destruct (Inv_partner _ _ _ _ HI Hoa Hp) as (_ & _ & _ & _ & _ & ob' & _ & _ & Hob' & Hbk & _).
    congruence. }
  assert (Hready2 : handleReady n2 b st1
            = mkState (clients st1) (alter (setWantsChat true) b (heap st1)) [b]
                (stats st1) (log st1 ++ sent b (MsgStatus msgWaiting) st1)).
  { apply handleReady_none with (resetPartner ob); try done.
    - by rewrite Hq1.
    - rewrite Hq1. eapply Forall_impl; [done|]. intros j Hj. by rewrite Hv1. }
  remember (handleReady n2 b st1) as st2 eqn:E2.
  assert (HI2 : Inv st2).
  { rewrite E2. apply Inv_handleReady; [done|lia|by rewrite Hc1]. }
  assert (Hopen2 : ∀ j, isOpen j st2 = isOpen j st).
  { intros j. rewrite Hready2, <- Hopen1.
    apply (isOpen_wantsChat j b true st1). }
  assert (Hready3 : handleReady n3 a st2
            = mkState (clients st2)
                (alter (linkTo n3 b) a (alter (linkTo n3 a) b (heap st2)))
                []
                (mkStats (totalVisitors (stats st2)) (activeConversations (stats st2) + 1)
                         (conversationHistory (stats st2)))
                (log st2 ++ sent a (MsgMatch b Offerer) st2
                        ++ [ESend b (MsgMatch a Answerer)]
                        ++ sent a (MsgStatus msgConnectedPair) st2
                        ++ [ESend b (MsgStatus msgConnectedPair)])).
  { apply handleReady_found with (resetClient oa) []; try done.
    - rewrite Hready2. simpl. by rewrite lookup_alter_ne, Ha1 by congruence.
    - rewrite Hready2. simpl. by intros ->%list_elem_of_singleton.
    - by rewrite Hready2.
    - split; [rewrite Hready2; simpl; by rewrite Hc1|by rewrite Hopen2]. }
  cbv zeta. rewrite Hready3. cbn [log waitingQueue clients stats heap].
  unfold sent. rewrite !Hopen2, Hopa.
  split; [|split; [done|split; [|split; [|split]]]].
  - rewrite Hready2. cbn [log]. unfold sent.
    rewrite Hopen1, Hopb. rewrite Hleave. cbn [log].
    rewrite Hopb. by rewrite <- !app_assoc.
  - rewrite Hready2. cbn [clients]. done.
  - rewrite Hready2. cbn [stats]. rewrite Hleave. simpl. lia.
  - rewrite Hready2. cbn [stats]. rewrite Hleave. simpl. rewrite length_app. simpl. lia.
  - assert (Hb2 : heap st2 !! b = Some (setWantsChat true (resetPartner ob))).
    { rewrite Hready2. simpl. by rewrite lookup_alter_eq, Hb1. }
    assert (Ha2 : heap st2 !! a = Some (resetClient oa)).
    { rewrite Hready2. simpl. by rewrite lookup_alter_ne, Ha1 by congruence. }
    eexists _, _. rewrite lookup_alter_eq, lookup_alter_ne, Ha2 by congruence.
    rewrite lookup_alter_ne, lookup_alter_eq, Hb2 by done. simpl. done.
Qed.

(** ** Durations under a clock that does not go back *)

Lemma timely_mono t t' s : (t ≤ t')%Z → timely t s → timely t' s.
Proof.
  intros Ht [Hp Hd]. split; [|done]. intros k o u Ho Hu.
  specialize (Hp k o u Ho Hu). lia.
Qed.

Lemma timely_same t s s' :
  heap s' = heap s → stats s' = stats s → timely t s → timely t s'.
Proof. unfold timely. by intros -> ->. Qed.

Lemma timely_send t k m s : timely t s → timely t (send k m s).
Proof. apply timely_same; [apply send_heap|apply send_stats]. Qed.

Lemma timely_modify t k (f : Client → Client) s :
  (∀ o u, pairedAt (f o) = Some u → pairedAt o = Some u ∨ (u ≤ t)%Z) →
  timely t s → timely t (modify k f s).
Proof.
  intros Hf [Hp Hd]. split; [|done]. intros j o u. simpl.
  rewrite lookup_alter_Some. intros [(-> & x & Hx & ->)|(_ & Hj)] Hu.
  - destruct (Hf _ _ Hu) as [Hu'|?]; [by apply (Hp j x)|done].
  - by apply (Hp j o).
Qed.

Lemma timely_handleLeave now k s : timely now s → timely now (handleLeave now k s).
Proof.
  intros H. unfold handleLeave. cbv zeta.
  do 3 (apply timely_modify; [intros o u; simpl; intros Hu; first [done|by left]|]).
  assert (timely now (removeFromQueue k s)) as H0 by (by apply (timely_same now s)).
  assert (heap (removeFromQueue k s) = heap s) as Hh by done.
  destruct (heap (removeFromQueue k s) !! k) as [o|] eqn:Ho; [|done].
  destruct (partnerOf o) as [p|]; [|done].
  destruct (clientsGet p _) as [op|] eqn:Hg; [|done].
  do 2 apply timely_send.
  do 2 (apply timely_modify; [intros x u; simpl; intros Hu; first [done|by left]|]).
  destruct (pairedAt o) as [t1|] eqn:H1; [|done].
  destruct (pairedAt op) as [t2|] eqn:H2; [|done].
  destruct (_ && _); [|done].
  destruct H as [Hp Hd]. split; [done|]. simpl.
  apply Forall_app. split; [done|]. apply Forall_singleton. simpl.
  assert (heap s !! p = Some op) as Hop.
  { unfold clientsGet in Hg. rewrite Hh in Hg. by case_decide. }
  rewrite Hh in Ho.
  pose proof (Hp _ _ _ Ho H1). pose proof (Hp _ _ _ Hop H2).
  apply Z.div_pos; lia.
Qed.

Lemma timely_cleanupClient now k s :
  timely now s → timely now (cleanupClient now k s).
Proof.
  intros H. unfold cleanupClient. destruct (clientsGet k s); [|done].
  eapply timely_same; [| |by apply (timely_handleLeave now k)]; done.
Qed.

Lemma timely_connectPair now a b s :
  timely now s → timely now (connectPair now a b s).
Proof.
  intros H. unfold connectPair. do 4 apply timely_send.
  assert (∀ s', timely now s' →
            timely now (setStats (mkStats (totalVisitors (stats s'))
                                   (activeConversations (stats s') + 1)
                                   (conversationHistory (stats s'))) s')) as Hs.
  { intros s' [Hp Hd]. by split. }
  apply Hs.
  do 2 (apply timely_modify; [intros o u; simpl; intros [= <-]; right; lia|]).
  do 4 (apply timely_modify; [intros o u; simpl; by left|]). done.
Qed.

Lemma timely_pushWaiting now k s : timely now s → timely now (pushWaiting k s).
Proof.
  intros H. unfold pushWaiting. apply timely_send. by apply (timely_same now s).
Qed.

Lemma timely_matchLoop now k q : ∀ s,
  timely now s → timely now (matchLoop now k q s).
Proof.
  induction q as [|p q IH]; intros s H; simpl; [by apply timely_pushWaiting|].
  assert (timely now (setQueue q s)) as H1 by (by apply (timely_same now s)).
  case_decide; [by apply timely_pushWaiting|].
  destruct (clientsGet p _) as [op|]; [|by apply IH].
  case_decide; [by apply timely_connectPair|by apply IH].
Qed.

Lemma timely_handleMessage now k raw s :
  timely now s → timely now (handleMessage now k raw s).
Proof.
  intros H. destruct raw as [| |[|payload| |]]; cbn [handleMessage].
  - by apply timely_send.
  - done.
  - unfold handleReady. destruct (heap s !! k) as [o|]; [|done].
    destruct (partnerOf o); [by apply timely_send|].
    case_decide; [by apply timely_send|].
    apply timely_matchLoop. apply timely_modify; [|done]. intros x u. by left.
  - unfold handleSignal. destruct (heap s !! k) as [o|]; [|done].
    destruct (partnerOf o) as [p|]; [|by apply timely_send].
    destruct (clientsGet p s); [by apply timely_send|by apply timely_handleLeave].
  - by apply timely_handleLeave.
  - by apply timely_send.
Qed.

Lemma timely_heartbeatStep now pingThrows k s :
  timely now s → timely now (heartbeatStep now pingThrows k s).
Proof.
  intros H. unfold heartbeatStep. destruct (clientsGet k s) as [o|]; [|done].
  destruct (negb (isAlive o)).
  - apply timely_cleanupClient. unfold terminate.
    eapply timely_same; [reflexivity|reflexivity|].
    apply timely_modify; [|done]. intros x u. case_decide; by left.
  - assert (timely now (emit (EPing k) (modify k (setIsAlive false) s))) as H1.
    { eapply timely_same; [reflexivity|reflexivity|].
      apply timely_modify; [|done]. intros x u. by left. }
    destruct (pingThrows k); [by apply timely_cleanupClient|done].
Qed.

Lemma timely_handle t ev s :
  timely t s →
  match clockOf ev with Some now => (t ≤ now)%Z | None => True end →
  timely (default t (clockOf ev)) (handle ev s).
Proof.
  intros H Ht.
  destruct ev as [now k|k|now k raw|now k|now k|k rs|now pt]; simpl in *.
  - apply (timely_mono t now) in H; [|done]. unfold onConnection.
    apply timely_send. destruct H as [Hp Hd]. split.
    + intros j o u. unfold clientsSet. simpl. rewrite lookup_insert_Some.
      intros [(_ & <-)|(_ & Hj)] Hu; [done|by apply (Hp j o)].
    + unfold clientsSet. simpl. by case_decide.
  - apply timely_modify; [|done]. intros x u. by left.
  - by apply timely_handleMessage, (timely_mono t).
  - by apply timely_cleanupClient, (timely_mono t).
  - by apply timely_cleanupClient, (timely_mono t).
  - apply timely_modify; [|done]. intros x u. by left.
  - apply (timely_mono t now) in H; [|done].
    unfold heartbeat. generalize (clients s) as l. intros l. revert s H.
    induction l as [|j l IH]; intros s H; simpl; [done|].
    by apply IH, timely_heartbeatStep.
Qed.

Lemma timely_run evs : ∀ t s,
  timely t s → monotoneFrom t evs → ∃ t', timely t' (run evs s).
Proof.
  induction evs as [|ev evs IH]; intros t s H Hm; simpl; [by exists t|].
  simpl in Hm. pose proof (timely_handle t ev s H) as Hstep.
  destruct (clockOf ev) as [now|]; simpl in Hstep.
  - destruct Hm as [Ht Hm]. apply (IH now); [by apply Hstep|done].
  - apply (IH t); [by apply Hstep|done].
Qed.

(** X16.  Durations are not negative when the clock does not go back:
    after any sequence of events whose [Date.now()] readings never
    decrease, every record in the history of conversations has a
    duration of at least zero. *)
Theorem durations_nonnegative evs t :
  monotoneFrom t evs →
  Forall (λ r, (0 ≤ duration r)%Z)
         (conversationHistory (stats (run evs (@initial Payload)))).
Proof.
  intros Hm. destruct (timely_run evs t initial) as (t' & _ & Hd); [|done|done].
  split; [|by apply Forall_nil_2]. intros k o u. simpl. by rewrite lookup_empty.
Qed.

End ServerProofs.

(** ** The claims on the concrete runs *)

Lemma exWaiting_reachable : reachable exWaiting.
Proof.
  apply reachable_run; [apply reachable_initial|].
  vm_compute. repeat split; try done; apply list_elem_of_here.
Qed.

Lemma exPaired_reachable : reachable exPaired.
Proof.
  apply reachable_run; [apply reachable_initial|].
  vm_compute.
  repeat split; try done;
    repeat first [apply list_elem_of_here | apply list_elem_of_further].
Qed.

Lemma pairing_symmetry_witness :
  ∃ ob, clientsGet "B" exPaired = Some ob ∧ partnerOf ob = Some "A"
        ∧ is_Some (Some 4000%Z) ∧ is_Some (pairedAt ob).
Proof.
  apply (pairing_symmetry exPaired "A"
           (mkClient OPEN (Some "B") false true 1000 (Some 4000%Z)) "B").
  - apply exPaired_reachable.
  - vm_compute. reflexivity.
  - reflexivity.
Defined.

Lemma exTicked_reachable : reachable exTicked.
Proof.
  apply reachable_run; [apply reachable_initial|].
  vm_compute.
  repeat split; try done;
    repeat first [apply list_elem_of_here | apply list_elem_of_further].
Qed.

(** C2 as worded fails on the run of the two visitors: A waits in the
    queue and B, registered, unpaired and with an OPEN socket, sends
    ready; A is not sent the offerer role and B is not sent the answerer
    role (A was sent the answerer role, B the offerer role). *)
Lemma role_assignment_counterexample :
  reachable exWaiting
  ∧ waitingQueue exWaiting = ["A"]
  ∧ clientsGet "B" exWaiting = Some (mkClient OPEN None false true 3000 None)
  ∧ received "A" (log (handleReady 4000 "B" exWaiting))
    = [MsgStatus msgConnected; MsgStatus msgWaiting;
       MsgMatch "B" Answerer; MsgStatus msgConnectedPair]
  ∧ received "B" (log (handleReady 4000 "B" exWaiting))
    = [MsgStatus msgConnected; MsgMatch "A" Offerer; MsgStatus msgConnectedPair]
  ∧ ¬ (MsgMatch "B" Offerer ∈ received "A" (log (handleReady 4000 "B" exWaiting))
       ∧ MsgMatch "A" Answerer ∈ received "B" (log (handleReady 4000 "B" exWaiting))).
Proof.
  split; [apply exWaiting_reachable|].
  split; [vm_compute; reflexivity|].
  split; [vm_compute; reflexivity|].
  split; [vm_compute; reflexivity|].
  split; [vm_compute; reflexivity|].
  intros [H _]. vm_compute in H.
  repeat (apply elem_of_cons in H as [H|H]; [discriminate H|]).
  by apply elem_of_nil in H.
Qed.

Lemma role_assignment_witness :
  log (handleReady 4000 "B" exWaiting)
  = log exWaiting
    ++ [ESend "B" (MsgMatch "A" Offerer); ESend "A" (MsgMatch "B" Answerer);
        ESend "B" (MsgStatus msgConnectedPair);
        ESend "A" (MsgStatus msgConnectedPair)].
Proof.
  apply (role_assignment exWaiting 4000 "A" "B"
           (mkClient OPEN None false true 3000 None) [] []).
  - apply exWaiting_reachable.
  - vm_compute. reflexivity.
  - apply Forall_nil_2.
  - split; [apply list_elem_of_here|vm_compute; reflexivity].
  - vm_compute. reflexivity.
  - reflexivity.
  - vm_compute. intros H%list_elem_of_singleton. discriminate H.
  - vm_compute. reflexivity.
Defined.

Lemma ready_fifo_matching_witness :
  handleReady 6000 "B" exQueue
  = mkState (clients exQueue)
      (alter (linkTo 6000 "A") "B" (alter (linkTo 6000 "B") "A" (heap exQueue)))
      ["C"]
      (mkStats 4 1 [])
      (log exQueue
         ++ [ESend "B" (MsgMatch "A" Offerer); ESend "A" (MsgMatch "B" Answerer);
             ESend "B" (MsgStatus msgConnectedPair);
             ESend "A" (MsgStatus msgConnectedPair)]).
Proof.
  apply (proj1 (ready_fifo_matching exQueue 6000 "B"
                  (mkClient OPEN None false true 4000 None)
                  ltac:(repeat constructor; discriminate)
                  ltac:(vm_compute; reflexivity)
                  ltac:(reflexivity)
                  ltac:(apply (bool_decide_unpack _); vm_compute; exact I))
          ["D"; "X"] "A" ["C"]).
  - reflexivity.
  - repeat constructor.
    + intros [_ H]. vm_compute in H. discriminate H.
    + intros [H _]. revert H. apply (bool_decide_unpack _). vm_compute. exact I.
  - split; [apply (bool_decide_unpack _); vm_compute; exact I|vm_compute; reflexivity].
Defined.

(** C4 as worded fails on an offer that A writes with spaces behind the
    colons and commas: the server parses the frame and writes the parsed
    payload again, so the frame B is sent carries the same value in other
    bytes. *)
Lemma relay_contract_counterexample :
  receive (signalText exOfferText) = Some (ParseValue (InSignal (Some exOffer)))
  ∧ clientsGet "A" exPairedJson
    = Some (mkClient OPEN (Some "B") false true 1000 (Some 4000%Z))
  ∧ clientsGet "B" exPairedJson
    = Some (mkClient OPEN (Some "A") false true 3000 (Some 4000%Z))
  ∧ log (handleMessage 5000 "A" (ParseValue (InSignal (Some exOffer))) exPairedJson)
    = log exPairedJson ++ [ESend "B" (MsgSignal (Some exOffer))]
  ∧ wire (MsgSignal (Some exOffer)) = signalText exOfferCompact
  ∧ exOfferCompact ≠ exOfferText
  ∧ wire (MsgSignal (Some exOffer)) ≠ signalText exOfferText.
Proof.
  split; [vm_compute; reflexivity|].
  split; [vm_compute; reflexivity|].
  split; [vm_compute; reflexivity|].
  split; [vm_compute; reflexivity|].
  split; [vm_compute; reflexivity|].
  split; [vm_compute; discriminate|].
  vm_compute. discriminate.
Qed.

Lemma relay_contract_witness :
  handleSignal 5000 "A" "offer X" exPaired
  = mkState (clients exPaired) (heap exPaired) (waitingQueue exPaired) (stats exPaired)
      (log exPaired ++ [ESend "B" (MsgSignal "offer X")]).
Proof.
  apply (proj2 (relay_contract 5000 "A" "offer X" exPaired
                  (mkClient OPEN (Some "B") false true 1000 (Some 4000%Z))
                  ltac:(vm_compute; reflexivity))
          "B" (mkClient OPEN (Some "A") false true 3000 (Some 4000%Z))).
  - reflexivity.
  - vm_compute. reflexivity.
Defined.

Lemma idempotent_leave_witness :
  handleLeave 6000 "A" (handleLeave 5000 "A" exPaired) = handleLeave 5000 "A" exPaired
  ∧ stats (handleLeave 6000 "A" (handleLeave 5000 "B" exPaired))
    = stats (handleLeave 5000 "B" exPaired)
  ∧ log (handleLeave 6000 "A" (cleanupClient 5000 "B" exPaired))
    = log (cleanupClient 5000 "B" exPaired)
  ∧ (activeConversations (stats exPaired)
       + Z.of_nat (length (conversationHistory (stats exPaired))))%Z
    = Z.of_nat (formed (log exPaired)).
Proof.
  destruct (idempotent_leave exPaired 5000 6000 "A"
              (mkClient OPEN (Some "B") false true 1000 (Some 4000%Z))
              exPaired_reachable ltac:(vm_compute; reflexivity))
    as (H1 & H2 & _ & H4 & _).
  destruct (H2 "B" eq_refl) as (Hs & _ & _ & Hl).
  exact (conj H1 (conj Hs (conj Hl H4))).
Defined.

Lemma heartbeat_reaping_witness :
  ("A" ∉ clients (heartbeat 7000 (λ _, false) exTicked))
  ∧ (∃ lg, log (heartbeat 7000 (λ _, false) exTicked) = log exTicked ++ lg
           ∧ ETerminate "A" ∈ lg ∧ ESend "B" MsgPartnerLeft ∈ lg)
  ∧ "B" ∉ clients (heartbeat 9000 (λ _, false)
                     (run [EvClose 8000 "A"] (heartbeat 7000 (λ _, false) exTicked))).
Proof.
  destruct (heartbeat_reaping exTicked 7000 (λ _, false) "A"
              (mkClient OPEN (Some "B") false false 1000 (Some 4000%Z))
              exTicked_reachable ltac:(vm_compute; reflexivity))
    as [(lg & Hl & Hdead & _) _].
  destruct (Hdead eq_refl) as (Hout & Hterm & _ & _ & Hpartner).
  destruct (heartbeat_reaping exTicked 7000 (λ _, false) "B"
              (mkClient OPEN (Some "A") false true 3000 (Some 4000%Z))
              exTicked_reachable ltac:(vm_compute; reflexivity))
    as [_ Htwice].
  split; [exact Hout|]. split.
  - exists lg. split; [exact Hl|]. split; [exact Hterm|].
    apply (Hpartner "B" (mkClient OPEN (Some "A") false true 3000 (Some 4000%Z)));
      vm_compute; reflexivity.
  - apply Htwice.
    + vm_compute. split; [reflexivity|exact I].
    + apply Forall_cons. split; [discriminate|apply Forall_nil_2].
Defined.

Lemma no_self_pairing_witness :
  (∀ a oa, heap exWaiting !! a = Some oa → partnerId oa ≠ Some a)
  ∧ heap (handleReady 2500 "A" exWaiting) = heap exWaiting
  ∧ waitingQueue (handleReady 2500 "A" exWaiting) = ["A"].
Proof.
  destruct (no_self_pairing exWaiting exWaiting_reachable) as [H1 H2].
  split; [exact H1|]. apply (H2 2500%Z "A"). apply list_elem_of_here.
Defined.

Lemma waiting_queue_invariant_witness :
  NoDup (waitingQueue exWaiting)
  ∧ handleReady 2500 "A" exWaiting
    = mkState (clients exWaiting) (heap exWaiting) ["A"] (stats exWaiting)
        (log exWaiting ++ [ESend "A" (MsgStatus msgStillWaiting)]).
Proof.
  destruct (waiting_queue_invariant exWaiting exWaiting_reachable) as (H1 & _ & H3).
  split; [exact H1|]. apply (H3 2500%Z "A"). apply list_elem_of_here.
Defined.

(** C9 as worded fails on the dangling client A: a remaining side (B,
    when its partner A leaves) is sent [partner_left] and a status and the
    counter of active conversations goes down, while the client with the
    dangling partner is sent nothing and the counter stays. *)
Lemma dangling_partner_teardown_counterexample :
  clientsGet "A" exDangling
  = Some (mkClient OPEN (Some "Z") false true 1000 (Some 2000%Z))
  ∧ clientsGet "Z" exDangling = None
  ∧ received "B" (log (handleLeave 5000 "A" exPaired))
    = received "B" (log exPaired) ++ [MsgPartnerLeft; MsgStatus msgPartnerGone]
  ∧ activeConversations (stats (handleLeave 5000 "A" exPaired))
    = (activeConversations (stats exPaired) - 1)%Z
  ∧ received "A" (log (handleSignal 3000 "A" "offer X" exDangling)) = []
  ∧ activeConversations (stats (handleSignal 3000 "A" "offer X" exDangling))
    = activeConversations (stats exDangling)
  ∧ ¬ (MsgPartnerLeft ∈ received "A" (log (handleSignal 3000 "A" "offer X" exDangling))
       ∧ activeConversations (stats (handleSignal 3000 "A" "offer X" exDangling))
         = (activeConversations (stats exDangling) - 1)%Z).
Proof.
  split; [vm_compute; reflexivity|].
  split; [vm_compute; reflexivity|].
  split; [vm_compute; reflexivity|].
  split; [vm_compute; reflexivity|].
  split; [vm_compute; reflexivity|].
  split; [vm_compute; reflexivity|].
  intros [H _]. vm_compute in H. by apply elem_of_nil in H.
Qed.

Lemma dangling_partner_teardown_witness :
  log (handleSignal 3000 "A" "offer X" exDangling) = []
  ∧ heap (handleSignal 3000 "A" "offer X" exDangling) !! "A"
    = Some (mkClient OPEN None false true 1000 None)
  ∧ waitingQueue (handleSignal 3000 "A" "offer X" exDangling) = [].
Proof.
  destruct (dangling_partner_teardown 3000 "A" "offer X" exDangling
              (mkClient OPEN (Some "Z") false true 1000 (Some 2000%Z)) "Z"
              ltac:(vm_compute; reflexivity) ltac:(reflexivity)
              ltac:(vm_compute; reflexivity))
    as (H1 & _ & _ & _ & H5 & H6 & _).
  exact (conj H1 (conj H5 H6)).
Defined.

Lemma activeConversations_nonneg_witness :
  (0 ≤ activeConversations
         (stats (handle (EvMessage 5000 "A" (ParseValue InLeave)) exPaired)))%Z
  ∧ activeConversations (stats (connectPair 4000 "B" "A" exWaiting)) = 1%Z
  ∧ activeConversations (stats exPaired) = 1%Z
  ∧ activeConversations (stats (handleLeave 5000 "A" exPaired)) = 0%Z.
Proof.
  destruct (activeConversations_nonneg
              (EvMessage 5000 "A" (ParseValue InLeave)) exPaired
              ltac:(vm_compute; discriminate))
    as (H1 & _ & _ & _ & H5 & _).
  destruct (activeConversations_nonneg (evReady 4000 "B") exWaiting
              ltac:(vm_compute; discriminate))
    as (_ & _ & H3 & _).
  split; [exact H1|]. split; [exact (H3 4000%Z "B" "A")|]. split; [reflexivity|].
  exact (H5 5000%Z "A"
           (mkClient OPEN (Some "B") false true 1000 (Some 4000%Z)) "B"
           (mkClient OPEN (Some "A") false true 3000 (Some 4000%Z)) 4000%Z 4000%Z
           ltac:(vm_compute; reflexivity) eq_refl ltac:(vm_compute; reflexivity)
           eq_refl eq_refl ltac:(discriminate) ltac:(discriminate)).
Defined.

(** ** The further properties on the concrete runs *)

Lemma refused_requests_change_nothing_witness :
  handleMessage 5000 "A" (ParseValue InReady) exPaired
  = mkState (clients exPaired) (heap exPaired) (waitingQueue exPaired) (stats exPaired)
      (log exPaired ++ [ESend "A" (MsgStatus msgAlreadyChatting)]).
Proof.
  destruct (refused_requests_change_nothing 5000 "A" exPaired) as (_ & _ & _ & H).
  exact (H (mkClient OPEN (Some "B") false true 1000 (Some 4000%Z)) "B"
           ltac:(vm_compute; reflexivity) eq_refl).
Defined.

Lemma cleanupClient_idempotent_witness :
  cleanupClient 5000 "Z" exPaired = exPaired.
Proof.
  apply (proj2 (cleanupClient_idempotent 5000 6000 "Z" exPaired)).
  apply (bool_decide_unpack _). vm_compute. exact I.
Defined.

Lemma cleanup_leaves_no_reference_witness :
  clients (cleanupClient 5000 "A" exPaired) = ["B"]
  ∧ ∃ op, clientsGet "B" (cleanupClient 5000 "A" exPaired) = Some op
          ∧ partnerId op = None.
Proof.
  destruct (cleanup_leaves_no_reference exPaired 5000 "A"
              (mkClient OPEN (Some "B") false true 1000 (Some 4000%Z))
              exPaired_reachable ltac:(vm_compute; reflexivity))
    as (H1 & _ & _ & H4 & _).
  split; [exact H1|]. exact (H4 "B" eq_refl).
Defined.

Lemma leave_dissolves_pairing_witness :
  ∃ ob t1 t2 record,
    clientsGet "B" exPaired = Some ob ∧ Some 4000%Z = Some t1 ∧ pairedAt ob = Some t2
    ∧ (1 ≤ activeConversations (stats exPaired))%Z
    ∧ duration record = ((9500 - Z.max t1 t2) / 1000)%Z
    ∧ handleLeave 9500 "A" exPaired
      = mkState (clients exPaired)
          (alter resetClient "A" (alter resetPartner "B" (heap exPaired)))
          (waitingQueue exPaired)
          (mkStats (totalVisitors (stats exPaired))
                   (activeConversations (stats exPaired) - 1)
                   (conversationHistory (stats exPaired) ++ [record]))
          (log exPaired
             ++ [ESend "B" MsgPartnerLeft; ESend "B" (MsgStatus msgPartnerGone)]).
Proof.
  apply (leave_dissolves_pairing exPaired 9500 "A"
           (mkClient OPEN (Some "B") false true 1000 (Some 4000%Z)) "B").
  - apply exPaired_reachable.
  - vm_compute. reflexivity.
  - reflexivity.
Defined.

Lemma stats_consistent_witness :
  Z.of_nat (count (paired (heap exPaired)) (clients exPaired))
  = (2 * activeConversations (stats exPaired))%Z
  ∧ (Z.of_nat (length (waitingQueue exPaired))
     + 2 * activeConversations (stats exPaired)
     ≤ Z.of_nat (length (clients exPaired)))%Z.
Proof. apply (stats_consistent exPaired), exPaired_reachable. Defined.

Lemma totalVisitors_counts_connections_witness :
  totalVisitors (stats exTicked) = Z.of_nat (size (heap exTicked))
  ∧ length (clients exTicked) ≤ size (heap exTicked).
Proof. apply (totalVisitors_counts_connections exTicked), exTicked_reachable. Defined.

Lemma healthy_tick_witness :
  clients (heartbeat 5000 (λ _, false) exPaired) = clients exPaired
  ∧ waitingQueue (heartbeat 5000 (λ _, false) exPaired) = waitingQueue exPaired
  ∧ stats (heartbeat 5000 (λ _, false) exPaired) = stats exPaired
  ∧ log (heartbeat 5000 (λ _, false) exPaired)
    = log exPaired ++ (EPing <$> clients exPaired)
  ∧ ∀ j, heap (heartbeat 5000 (λ _, false) exPaired) !! j
         = if decide (j ∈ clients exPaired)
           then setIsAlive false <$> heap exPaired !! j
           else heap exPaired !! j.
Proof.
  apply (healthy_tick exPaired 5000 (λ _, false)).
  - apply exPaired_reachable.
  - intros k Hk. split; [reflexivity|].
    apply elem_of_cons in Hk as [->|Hk].
    + eexists. split; [vm_compute; reflexivity|reflexivity].
    + apply elem_of_cons in Hk as [->|Hk].
      * eexists. split; [vm_compute; reflexivity|reflexivity].
      * by apply elem_of_nil in Hk.
Defined.

Lemma tick_keeps_the_living_witness :
  "B" ∈ clients (heartbeat 7000 (λ _, false) exTicked).
Proof.
  apply (proj1 (tick_keeps_the_living exTicked 7000 (λ _, false) exTicked_reachable)
           "B" (mkClient OPEN (Some "A") false true 3000 (Some 4000%Z))).
  - vm_compute. reflexivity.
  - reflexivity.
  - reflexivity.
Defined.

Lemma removeFromQueue_first_witness :
  waitingQueue (removeFromQueue "A" exWaiting) = [] ++ [].
Proof.
  apply (proj1 (removeFromQueue_first "A" exWaiting)).
  - vm_compute. reflexivity.
  - apply not_elem_of_nil.
Defined.

Lemma bearerToken_second_piece_witness :
  bearerToken (Some "Bearer secret") = Some "secret"
  ∧ ∀ rest, bearerToken (Some ("Bearer" +:+ " " +:+ "secret" +:+ " " +:+ rest))
            = Some "secret".
Proof.
  destruct bearerToken_second_piece as (_ & _ & _ & H).
  exact (H "Bearer" "secret" eq_refl eq_refl).
Defined.

Lemma stats_need_the_password_witness :
  httpHandler "secret" None (mkRequest "/stats" "GET" (Some "Bearer wrong")) exPaired
  = mkResponse 401 [("Content-Type", "application/json")] BodyUnauthorized.
Proof.
  apply (proj1 (proj2 (stats_need_the_password "secret" None
                         (mkRequest "/stats" "GET" (Some "Bearer wrong")) exPaired))).
  - reflexivity.
  - reflexivity.
  - vm_compute. intros H. discriminate H.
Defined.

Lemma no_send_after_terminate_witness :
  isOpen "A" (run [EvHeartbeat 7000 (λ _, false)] exTicked) = false.
Proof.
  apply (proj2 (no_send_after_terminate
                  (run [EvHeartbeat 7000 (λ _, false)] exTicked)
                  ltac:(apply reachable_run;
                        [apply exTicked_reachable|vm_compute; repeat split; done]))).
  vm_compute. repeat first [apply list_elem_of_here | apply list_elem_of_further].
Defined.

Lemma leave_then_rematch_witness :
  log (handleReady 7000 "A" (handleReady 6000 "B" (handleLeave 5000 "A" exPaired)))
  = log exPaired
    ++ [ESend "B" MsgPartnerLeft; ESend "B" (MsgStatus msgPartnerGone);
        ESend "B" (MsgStatus msgWaiting);
        ESend "A" (MsgMatch "B" Offerer); ESend "B" (MsgMatch "A" Answerer);
        ESend "A" (MsgStatus msgConnectedPair);
        ESend "B" (MsgStatus msgConnectedPair)].
Proof.
  apply (leave_then_rematch exPaired 5000 6000 7000 "A"
           (mkClient OPEN (Some "B") false true 1000 (Some 4000%Z)) "B").
  - apply exPaired_reachable.
  - reflexivity.
  - reflexivity.
  - vm_compute. reflexivity.
  - reflexivity.
  - vm_compute. reflexivity.
  - vm_compute. reflexivity.
  - apply Forall_nil_2.
Defined.

Lemma durations_nonnegative_witness :
  Forall (λ r, (0 ≤ duration r)%Z)
    (conversationHistory
       (stats (run [EvConnection 1000 "A"; evReady 2000 "A"; EvConnection 3000 "B";
                    evReady 4000 "B"; EvMessage 9500 "A" (ParseValue InLeave)]
                 initial))).
Proof.
  apply (durations_nonnegative _ 0). simpl. lia.
Defined.
